(** * Nostr to Bluesky cross-poster: a shallow embedding of [bot.py]

    The development follows the source file top to bottom:

    - Python strings are lists of Unicode code points;
    - the fragment of [re] the bot uses is a small backtracking matcher
      with Python's priorities (greedy repetition, ordered alternatives,
      leftmost match), on which [re.findall] and [re.sub] are built;
    - the text helpers ([extract_image_urls], [remove_image_urls],
      [extract_npub_mentions]) are the source's regular expressions run
      on that matcher;
    - the asynchronous methods that talk to the relay, to the web and to
      Bluesky are written in a state-and-exception monad over the bot's
      fields, an abstract outside world and the trace of external calls. *)

From Stdlib Require Import List ZArith NArith QArith Lia String Ascii Bool.
From stdpp Require Import base gmap sets list.
Import ListNotations.

(** ** Python strings *)

(** A [str] is a sequence of code points. *)
Abbreviation char := N.
Abbreviation pystr := (list N).

(** String literals of the source. *)
Definition str (s : string) : pystr :=
  List.map N_of_ascii (list_ascii_of_string s).

Definition chr (a : ascii) : char := N_of_ascii a.

(** [c in s] for a one-character [c]. *)
Definition char_in (s : pystr) (c : char) : bool :=
  existsb (N.eqb c) s.

(** [str.isspace] on one code point, which is also [\s] of [re] on [str]
    patterns: the code points CPython lists as whitespace. *)
Definition isspace (c : char) : bool :=
  ((9 <=? c) && (c <=? 13) || (28 <=? c) && (c <=? 32) ||
   (c =? 133) || (c =? 160) || (c =? 5760) ||
   (8192 <=? c) && (c <=? 8202) || (c =? 8232) || (c =? 8233) ||
   (c =? 8239) || (c =? 8287) || (c =? 12288))%N.

(** [s.startswith(p)], returning what follows the prefix. *)
Fixpoint strip_prefix (p s : pystr) : option pystr :=
  match p with
  | [] => Some s
  | a :: p' =>
      match s with
      | [] => None
      | b :: s' => if (a =? b)%N then strip_prefix p' s' else None
      end
  end.

Definition startswith (s p : pystr) : bool :=
  match strip_prefix p s with Some _ => true | None => false end.

(** [s.lstrip()], [s.rstrip()] and [s.strip()] without argument. *)
Fixpoint lstrip (s : pystr) : pystr :=
  match s with
  | [] => []
  | c :: s' => if isspace c then lstrip s' else s
  end.

Definition rstrip (s : pystr) : pystr := rev (lstrip (rev s)).

Definition strip (s : pystr) : pystr := rstrip (lstrip s).

(** [s.replace(old, new)]: the occurrences of [old] are replaced from left
    to right, the search resuming after each replaced occurrence. [skip]
    counts the characters of the occurrence still to be passed over. *)
Fixpoint replace_from (old new s : pystr) (skip : nat) : pystr :=
  match skip with
  | S n =>
      match s with
      | [] => []
      | _ :: s' => replace_from old new s' n
      end
  | O =>
      match strip_prefix old s with
      | Some _ =>
          new ++
          match s with
          | [] => []
          | c :: s' =>
              match length old with
              | O => c :: replace_from old new s' 0
              | S n => replace_from old new s' n
              end
          end
      | None =>
          match s with
          | [] => []
          | c :: s' => c :: replace_from old new s' 0
          end
      end
  end.

Definition replace (s old new : pystr) : pystr := replace_from old new s 0.

(** ** The fragment of [re] used by the bot *)

Inductive regex : Type :=
| Lit (s : pystr)                          (* literal characters *)
| Opt (r : regex)                          (* r? *)
| Many (cls : char -> bool) (lo : nat)     (* [cls]{lo,}, greedy *)
| Seq (r1 r2 : regex)                      (* r1 r2 *)
| Alt (r1 r2 : regex)                      (* r1|r2 *)
| Eol                                      (* $ *)
| Group (r : regex).                       (* (r), the capturing group *)

(** [$] without [re.MULTILINE]: the end of the string, or just before a
    newline that ends the string. *)
Definition at_end (s : pystr) : bool :=
  match s with
  | [] => true
  | [c] => (c =? 10)%N
  | _ => false
  end.

(** Greedy repetition of a character class: the longest run is tried
    first, then shorter ones down to [lo] characters. *)
Fixpoint many {A} (cls : char -> bool) (lo : nat) (s : pystr)
    (k : pystr -> option A) : option A :=
  let stop := match lo with O => k s | S _ => None end in
  match s with
  | [] => stop
  | c :: s' =>
      if cls c then
        match many cls (pred lo) s' k with
        | Some x => Some x
        | None => stop
        end
      else stop
  end.

(** The matcher, in continuation-passing style: [k] receives what is left
    of the subject and the text captured by the group so far, and a [None]
    from [k] makes the matcher backtrack. *)
Fixpoint rmatch {A} (r : regex) (s : pystr) (cap : option pystr)
    (k : pystr -> option pystr -> option A) : option A :=
  match r with
  | Lit l =>
      match strip_prefix l s with
      | Some rest => k rest cap
      | None => None
      end
  | Opt r1 =>
      match rmatch r1 s cap k with
      | Some x => Some x
      | None => k s cap
      end
  | Many cls lo => many cls lo s (fun rest => k rest cap)
  | Seq r1 r2 => rmatch r1 s cap (fun rest cap' => rmatch r2 rest cap' k)
  | Alt r1 r2 =>
      match rmatch r1 s cap k with
      | Some x => Some x
      | None => rmatch r2 s cap k
      end
  | Eol => if at_end s then k s cap else None
  | Group r1 =>
      rmatch r1 s cap
        (fun rest _ => k rest (Some (firstn (length s - length rest) s)))
  end.

(** A match anchored at the start of [s]: the unmatched rest and the
    captured group. *)
Definition match_here (r : regex) (s : pystr) : option (pystr * option pystr) :=
  rmatch r s None (fun rest cap => Some (rest, cap)).

Fixpoint has_group (r : regex) : bool :=
  match r with
  | Lit _ | Many _ _ | Eol => false
  | Opt r1 => has_group r1
  | Seq r1 r2 | Alt r1 r2 => has_group r1 || has_group r2
  | Group _ => true
  end.

(** The successive non-overlapping matches of [r] in [s], each with its
    captured group. *)
Fixpoint scan (r : regex) (s : pystr) (skip : nat)
    : list (pystr * option pystr) :=
  match skip with
  | S n =>
      match s with
      | [] => []
      | _ :: s' => scan r s' n
      end
  | O =>
      match match_here r s with
      | Some (rest, cap) =>
          let len := (length s - length rest)%nat in
          (firstn len s, cap) ::
          match s with
          | [] => []
          | _ :: s' => scan r s' (pred len)
          end
      | None =>
          match s with
          | [] => []
          | _ :: s' => scan r s' 0
          end
      end
  end.

(** [re.findall(r, s)]: the matches, or the group of each match when the
    pattern has one (an unmatched group gives the empty string). *)
Definition findall (r : regex) (s : pystr) : list pystr :=
  List.map
    (fun m : pystr * option pystr =>
       if has_group r then match snd m with Some g => g | None => [] end
       else fst m)
    (scan r s 0).

(** [re.sub(r, repl, s)] for a replacement without group references. *)
Fixpoint sub_from (r : regex) (repl s : pystr) (skip : nat) : pystr :=
  match skip with
  | S n =>
      match s with
      | [] => []
      | _ :: s' => sub_from r repl s' n
      end
  | O =>
      match match_here r s with
      | Some (rest, _) =>
          repl ++
          match s with
          | [] => []
          | c :: s' =>
              match (length s - length rest)%nat with
              | O => c :: sub_from r repl s' 0
              | S n => sub_from r repl s' n
              end
          end
      | None =>
          match s with
          | [] => []
          | c :: s' => c :: sub_from r repl s' 0
          end
      end
  end.

Definition re_sub (r : regex) (repl s : pystr) : pystr := sub_from r repl s 0.

(** ** Text helpers of [NostrToBlueskyBot] *)

(** [[.,;:!?)\]]] *)
Definition punct : char -> bool := char_in (str ".,;:!?)]").

(** [[qpzry9x8gf2tvdw0s3jn54khce6mua7l]] *)
Definition bech32 : char -> bool :=
  char_in (str "qpzry9x8gf2tvdw0s3jn54khce6mua7l").

Definition nonspace (c : char) : bool := negb (isspace c).

(** The space and the newline. *)
Definition is_space (c : char) : bool := (c =? 32)%N.

Definition is_newline (c : char) : bool := (c =? 10)%N.

Definition image_extensions : list pystr :=
  List.map str
    ["jpg"; "jpeg"; "png"; "gif"; "webp"; "JPG"; "JPEG"; "PNG"; "GIF"; "WEBP"]%string.

(** [(?:jpg|jpeg|png|gif|webp|JPG|JPEG|PNG|GIF|WEBP)] *)
Definition extension_alt : regex :=
  Alt (Lit (str "jpg")) (Alt (Lit (str "jpeg")) (Alt (Lit (str "png"))
  (Alt (Lit (str "gif")) (Alt (Lit (str "webp")) (Alt (Lit (str "JPG"))
  (Alt (Lit (str "JPEG")) (Alt (Lit (str "PNG")) (Alt (Lit (str "GIF"))
  (Lit (str "WEBP")))))))))).

(** [https?://[^\s]+\.(?:jpg|...|WEBP)] *)
Definition image_pattern : regex :=
  Seq (Lit (str "http")) (Seq (Opt (Lit (str "s"))) (Seq (Lit (str "://"))
  (Seq (Many nonspace 1) (Seq (Lit (str ".")) extension_alt)))).

(** [[.,;:!?)\]]+$] *)
Definition trailing_punct : regex := Seq (Many punct 1) Eol.

Definition extract_image_urls (content : pystr) : list pystr :=
  let urls := findall image_pattern content in
  List.map (fun url => re_sub trailing_punct [] url) urls.

(** [re.escape(url) + r'[.,;:!?)\]]*']: the escaped URL matches itself,
    character for character. *)
Definition url_pattern (url : pystr) : regex := Seq (Lit url) (Many punct 0).

Definition remove_image_urls (content : pystr) (image_urls : list pystr) : pystr :=
  let cleaned_content :=
    fold_left (fun cleaned url => re_sub (url_pattern url) [] cleaned)
      image_urls content in
  let cleaned_content :=
    re_sub (Many is_space 1) (str " ") cleaned_content in
  let cleaned_content :=
    re_sub (Many is_newline 3) [10; 10]%N cleaned_content in
  strip cleaned_content.

(** [nostr:(npub1[qpzry9x8gf2tvdw0s3jn54khce6mua7l]+)] *)
Definition npub_pattern : regex :=
  Seq (Lit (str "nostr:")) (Group (Seq (Lit (str "npub1")) (Many bech32 1))).

Definition extract_npub_mentions (content : pystr) : list pystr :=
  findall npub_pattern content.

(** ** The bot's fields, its events and the outside world *)

(** [self.processed_events] and [self.start_time] (in seconds). *)
Record bot : Type := Bot {
  processed_events : gset pystr;
  start_time : Z
}.

(** What [handle_nostr_event] reads of an [Event]: [id().to_hex()],
    [created_at().as_secs()], [tags().event_ids()] and [content()]. *)
Record Event : Type := {
  id : pystr;
  created_at : Z;
  event_ids : list pystr;
  content : pystr
}.

(** The values [json.loads] builds. Of a number only its truth value is
    ever read, so a float is any integer with the same truth value. *)
#[warnings="-register-all"]
Inductive json : Type :=
| JNull
| JBool (b : bool)
| JNum (n : Z)
| JStr (s : pystr)
| JArr (items : list json)
| JObj (fields : list (pystr * json)).

(** The response of [client.get]: status, [content-type] header if any,
    and body. *)
Record response : Type := {
  status_code : Z;
  content_type_header : option pystr;
  body : list Byte.byte
}.

Section Model.

Context {World Blob : Type}.

(** [models.AppBskyEmbedImages.Image(alt=..., image=...)] *)
Record image_embed : Type := { alt : pystr; image : Blob }.

(** The libraries and services the bot calls. A call to the outside takes
    the world and gives it back changed; [None] stands for a raised
    exception (a timeout included), [false] of [send_post] as well. *)
Record services : Type := {
  PublicKey_parse : pystr -> option pystr;
  get_events_of : pystr -> World -> option (list pystr) * World;
  json_loads : pystr -> option json;
  http_get : pystr -> World -> option response * World;
  image_verify : list Byte.byte -> bool;
  upload_blob : list Byte.byte -> World -> option Blob * World;
  send_post : pystr -> option (list image_embed) -> World -> bool * World;
  (** the order in which [for npub in set(npubs)] visits the set *)
  set_iter : list pystr -> list pystr
}.

(** A Python set holds each element once; the order of iteration is not
    specified. *)
Definition set_iter_lawful (env : services) : Prop :=
  forall l, NoDup (set_iter env l) /\ (forall x, In x (set_iter env l) <-> In x l).

(** The writes to [processed_events] and the calls to the outside, in
    program order. *)
Inductive effect : Type :=
| Mark (event_id : pystr)
| Query (pubkey : pystr)
| Get (url : pystr)
| Upload (data : list Byte.byte)
| Post (text : pystr) (embed : option (list image_embed)).

(** *** The monad of the asynchronous methods *)

Record reply (A : Type) : Type := Reply {
  result : option A;          (* [None]: an exception propagates *)
  self : bot;
  world : World;
  trace : list effect
}.

Arguments Reply {A}.
Arguments result {A}.
Arguments self {A}.
Arguments world {A}.
Arguments trace {A}.

Definition M (A : Type) : Type := bot -> World -> reply A.

Definition ret {A} (a : A) : M A := fun s w => Reply (Some a) s w [].

Definition raise {A} : M A := fun s w => Reply None s w [].

Definition bind {A B} (m : M A) (f : A -> M B) : M B := fun s w =>
  let r := m s w in
  match result r with
  | Some a =>
      let r' := f a (self r) (world r) in
      Reply (result r') (self r') (world r') (trace r ++ trace r')
  | None => Reply None (self r) (world r) (trace r)
  end.

Notation "'let*' x ':=' m 'in' k" := (bind m (fun x => k))
  (at level 10, x name, m at level 200, k at level 200).

(** A call to the outside, recorded in the trace. *)
Definition call {A} (e : effect) (f : World -> A * World) : M A := fun s w =>
  let (a, w') := f w in Reply (Some a) s w' [e].

Definition get_self : M bot := fun s w => Reply (Some s) s w [].

(** [self.processed_events.add(event_id)] *)
Definition add_processed (event_id : pystr) : M unit := fun s w =>
  Reply (Some tt)
    (Bot ({[ event_id ]} ∪ processed_events s) (start_time s)) w [Mark event_id].

Variable env : services.

(** *** [is_reply] *)

Definition is_reply (event : Event) : bool :=
  (0 <? length (event_ids event))%nat.

(** *** [fetch_profile_metadata] *)

(** Python's truth value. *)
Definition truthy (v : json) : bool :=
  match v with
  | JNull => false
  | JBool b => b
  | JNum n => negb (n =? 0)%Z
  | JStr s => match s with [] => false | _ => true end
  | JArr l => match l with [] => false | _ => true end
  | JObj f => match f with [] => false | _ => true end
  end.

(** [a or b] *)
Definition py_or (a b : json) : json := if truthy a then a else b.

Fixpoint lookup_key (fields : list (pystr * json)) (key : pystr) : option json :=
  match fields with
  | [] => None
  | (k, v) :: rest => if decide (k = key) then Some v else lookup_key rest key
  end.

(** [d.get(key, default)] *)
Definition dict_get (fields : list (pystr * json)) (key : pystr) (default : json) : json :=
  match lookup_key fields key with
  | Some v => v
  | None => default
  end.

(** The body of the [try]: every exception ends in [return None], so the
    method itself never raises. The relay is queried only once the token
    parsed as a public key. *)
Definition fetch_profile_metadata (npub : pystr)
    : M (option (list (pystr * json))) :=
  match PublicKey_parse env npub with
  | None => ret None
  | Some pubkey =>
      let* events := call (Query pubkey) (get_events_of env pubkey) in
      match events with
      | None | Some [] => ret None
      | Some (metadata_event :: _) =>
          match json_loads env metadata_event with
          | Some (JObj metadata) =>
              let display_name :=
                py_or (dict_get metadata (str "display_name") JNull)
                  (py_or (dict_get metadata (str "name") JNull) JNull) in
              if truthy display_name then
                ret (Some [(str "display_name", display_name);
                           (str "name", dict_get metadata (str "name") (JStr []))])
              else ret None
          | Some _ => ret None            (* no [get] on it: AttributeError *)
          | None => ret None              (* JSONDecodeError *)
          end
      end
  end.

(** *** [replace_npub_mentions] *)

(** [metadata and metadata.get('display_name')] as a condition. *)
Definition has_display_name (metadata : option (list (pystr * json))) : bool :=
  match metadata with
  | Some ((_ :: _) as d) => truthy (dict_get d (str "display_name") JNull)
  | _ => false
  end.

(** The body of the loop. [str.replace] raises [TypeError] when the new
    text is not a [str]. *)
Definition replace_mention (modified_content npub : pystr) : M pystr :=
  let* metadata := fetch_profile_metadata npub in
  let mention_pattern := str "nostr:" ++ npub in
  if has_display_name metadata then
    match metadata with
    | Some d =>
        match dict_get d (str "display_name") JNull with
        | JStr display_name =>
            ret (replace modified_content mention_pattern display_name)
        | _ => raise
        end
    | None => raise
    end
  else ret (replace modified_content mention_pattern npub).

Fixpoint for_each {A B} (body : A -> B -> M A) (l : list B) (acc : A) : M A :=
  match l with
  | [] => ret acc
  | x :: l' => let* acc' := body acc x in for_each body l' acc'
  end.

Definition replace_npub_mentions (content : pystr) : M pystr :=
  let npubs := extract_npub_mentions content in
  match npubs with
  | [] => ret content
  | _ => for_each replace_mention (set_iter env npubs) content
  end.

(** *** [download_image] *)

Inductive rejection : Type :=
| BadStatus          (* [raise_for_status] raised *)
| NotAnImage         (* "URL is not an image" *)
| TooLarge           (* "Image too large" *)
| InvalidImage.      (* "Invalid image file" *)

(** [len(content) / (1024 * 1024)]; the division by a power of two is
    exact in floating point, so the rational is the float. *)
Definition size_mb (content : list Byte.byte) : Q :=
  Z.of_nat (length content) # (1024 * 1024).

(** [response.is_success], the condition under which
    [raise_for_status] returns. *)
Definition is_success (r : response) : bool :=
  ((200 <=? status_code r) && (status_code r <=? 299))%Z.

(** The checks on a response, in the order of the source, each failure
    with the diagnostic the source logs. *)
Definition check_response (max_size_mb : Z) (r : response)
    : rejection + (list Byte.byte * pystr) :=
  if negb (is_success r) then inl BadStatus
  else
    let content_type :=
      match content_type_header r with Some t => t | None => [] end in
    if negb (startswith content_type (str "image/")) then inl NotAnImage
    else
      let content := body r in
      if negb (Qle_bool (size_mb content) (inject_Z max_size_mb)) then inl TooLarge
      else if negb (image_verify env content) then inl InvalidImage
      else inr (content, content_type).

Definition download_image (url : pystr) (max_size_mb : Z)
    : M (option (list Byte.byte * pystr)) :=
  let* r := call (Get url) (http_get env url) in
  match r with
  | None => ret None
  | Some resp =>
      match check_response max_size_mb resp with
      | inl _ => ret None
      | inr image_data => ret (Some image_data)
      end
  end.

(** *** [upload_image_to_bluesky] *)

Definition upload_image_to_bluesky (image_data : list Byte.byte) : M (option Blob) :=
  call (Upload image_data) (upload_blob env image_data).

(** *** [post_to_bluesky] *)

(** The body of [for url in image_urls[:4]], on the pair
    [(images, successfully_processed_urls)]. *)
Definition process_image (acc : list image_embed * list pystr) (url : pystr)
    : M (list image_embed * list pystr) :=
  let* image_data := download_image url 10 in
  match image_data with
  | Some (image_bytes, _) =>
      let* blob := upload_image_to_bluesky image_bytes in
      match blob with
      | Some b =>
          ret (fst acc ++ [{| alt := str "Image from Nostr"; image := b |}],
               snd acc ++ [url])
      | None => ret acc
      end
  | None => ret acc
  end.

Definition post_to_bluesky (content : pystr) (image_urls : option (list pystr))
    : M bool :=
  let* acc :=
    match image_urls with
    | Some ((_ :: _) as urls) => for_each process_image (firstn 4 urls) ([], [])
    | _ => ret ([], [])
    end in
  let images := fst acc in
  let successfully_processed_urls := snd acc in
  let post_content :=
    match successfully_processed_urls with
    | _ :: _ => remove_image_urls content successfully_processed_urls
    | [] => content
    end in
  match images with
  | _ :: _ => call (Post post_content (Some images))
                (send_post env post_content (Some images))
  | [] => call (Post post_content None) (send_post env post_content None)
  end.

(** *** [handle_nostr_event] *)

Inductive skip_reason : Type := duplicate | too_old | reply_event | empty.

(** Which [return] of the method was reached. *)
Inductive outcome : Type :=
| Skipped (why : skip_reason)
| Published
| PublishFailed.

(** [datetime.fromtimestamp(secs, tz=timezone.utc)]: a [datetime] holds
    the years 1 to 9999, and the call raises for a time outside them. *)
Definition fromtimestamp_utc (secs : Z) : option Z :=
  if ((-62135596800 <=? secs) && (secs <=? 253402300799))%Z then Some secs
  else None.

(** The lines that log the note come between the check of the text and
    the resolution of the mentions: the author and the preview are
    formatted without failure, the time of the note is converted by
    [fromtimestamp_utc]. *)
Definition handle_nostr_event (event : Event) : M outcome :=
  let event_id := id event in
  let* bot := get_self in
  if decide (event_id ∈ processed_events bot) then ret (Skipped duplicate)
  else if (created_at event <? start_time bot)%Z then ret (Skipped too_old)
  else
    let* marked := add_processed event_id in
    if is_reply event then ret (Skipped reply_event)
    else
      let content := content event in
      match strip content with
      | [] => ret (Skipped empty)
      | _ =>
          match fromtimestamp_utc (created_at event) with
          | None => raise
          | Some timestamp =>
              let* content := replace_npub_mentions content in
              let image_urls := extract_image_urls content in
              let* success := post_to_bluesky content
                           (match image_urls with [] => None | _ => Some image_urls end) in
              if success : bool then ret Published else ret PublishFailed
          end
      end.

(** [handle_nostr_event] from the reply check on: what the method does
    once the event is marked. *)
Definition cross_post (event : Event) : M outcome :=
  if is_reply event then ret (Skipped reply_event)
  else
    let content := content event in
    match strip content with
    | [] => ret (Skipped empty)
    | _ =>
        match fromtimestamp_utc (created_at event) with
        | None => raise
        | Some timestamp =>
            let* content := replace_npub_mentions content in
            let image_urls := extract_image_urls content in
            let* success := post_to_bluesky content
                         (match image_urls with [] => None | _ => Some image_urls end) in
            if success : bool then ret Published else ret PublishFailed
        end
    end.

(** *** [NotificationHandler.handle], event after event *)

(** The events the subscription delivers are handled one at a time, in
    order; the bot and the world left by one are those the next starts
    from. *)
Fixpoint deliver (events : list Event) (s : bot) (w : World)
    : bot * World * list effect :=
  match events with
  | [] => (s, w, [])
  | event :: rest =>
      let r := handle_nostr_event event s w in
      let '(s', w', t) := deliver rest (self r) (world r) in
      (s', w', trace r ++ t)
  end.

End Model.

Arguments services : clear implicits.
Arguments effect : clear implicits.
Arguments image_embed : clear implicits.
Arguments reply : clear implicits.
Arguments Reply {World Blob A}.
Arguments result {World Blob A}.
Arguments self {World Blob A}.
Arguments world {World Blob A}.
Arguments trace {World Blob A}.
Arguments M : clear implicits.

(** The fields as [__init__] leaves them. *)
Definition initial (now : Z) : bot := Bot ∅ now.

(** *** [__init__] *)

(** Why [__init__] raises: one of the three required variables is
    missing, no public key is given, or [PublicKey.parse] rejects the key
    that is given. *)
Inductive init_error : Type :=
| MissingVariables     (* "Missing required environment variables" *)
| MissingPublicKey     (* "Must provide either NOSTR_NPUB or NOSTR_PUBKEY" *)
| InvalidPublicKey.    (* [PublicKey.parse] raised *)

(** The attributes [__init__] sets from the environment, with the fields
    of the bot. *)
Record settings : Type := {
  nostr_relay : pystr;
  bluesky_username : pystr;
  bluesky_password : pystr;
  nostr_pubkey : pystr;
  bot_fields : bot
}.

(** The truth value of what [os.getenv] returns: set, and not empty. *)
Definition set_and_nonempty (v : option pystr) : bool :=
  match v with
  | Some (_ :: _) => true
  | _ => false
  end.

(** [getenv] is the environment once [load_dotenv] has run, [parse] is
    [PublicKey.parse] and [now] is [Timestamp.now()]. *)
Definition init (getenv : pystr -> option pystr) (parse : pystr -> option pystr)
    (now : Z) : init_error + settings :=
  let relay := getenv (str "NOSTR_RELAY") in
  let username := getenv (str "BLUESKY_USERNAME") in
  let password := getenv (str "BLUESKY_APP_PASSWORD") in
  match relay, username, password with
  | Some ((_ :: _) as r), Some ((_ :: _) as u), Some ((_ :: _) as p) =>
      let npub := getenv (str "NOSTR_NPUB") in
      let hex_pubkey := getenv (str "NOSTR_PUBKEY") in
      let key :=
        if set_and_nonempty npub then npub
        else if set_and_nonempty hex_pubkey then hex_pubkey
        else None in
      match key with
      | Some k =>
          match parse k with
          | Some pubkey =>
              inr {| nostr_relay := r; bluesky_username := u;
                     bluesky_password := p; nostr_pubkey := pubkey;
                     bot_fields := Bot ∅ now |}
          | None => inl InvalidPublicKey
          end
      | None => inl MissingPublicKey
      end
  | _, _, _ => inl MissingVariables
  end.

(** ** The text of the post and the patterns, in the words of the
    specification *)

(** The number of characters of class [cls] that [s] starts with, and
    what follows them. *)
Fixpoint run (cls : char -> bool) (s : pystr) : nat :=
  match s with
  | c :: s' => if cls c then S (run cls s') else 0
  | [] => 0
  end.

Fixpoint drop_run (cls : char -> bool) (s : pystr) : pystr :=
  match s with
  | c :: s' => if cls c then drop_run cls s' else s
  | [] => []
  end.

(** Every occurrence of [url], with the punctuation right after it,
    removed from [text]; [skip] counts what is left to remove of the
    occurrence under way. *)
Fixpoint remove_url_from (url text : pystr) (skip : nat) : pystr :=
  match skip with
  | S n =>
      match text with
      | [] => []
      | _ :: text' => remove_url_from url text' n
      end
  | O =>
      match text with
      | [] => []
      | c :: text' =>
          match strip_prefix url text with
          | Some rest =>
              match (length url + run punct rest)%nat with
              | O => c :: remove_url_from url text' 0
              | S n => remove_url_from url text' n
              end
          | None => c :: remove_url_from url text' 0
          end
      end
  end.

Definition remove_url (url text : pystr) : pystr := remove_url_from url text 0.

(** Runs of spaces collapsed to one space: a space is dropped when
    another one follows. *)
Fixpoint collapse_spaces (s : pystr) : pystr :=
  match s with
  | [] => []
  | c :: s' =>
      if is_space c then
        match s' with
        | d :: _ => if is_space d then collapse_spaces s' else c :: collapse_spaces s'
        | [] => [c]
        end
      else c :: collapse_spaces s'
  end.

(** Runs of three newlines or more collapsed to two: a newline is dropped
    when two more follow. *)
Fixpoint collapse_newlines (s : pystr) : pystr :=
  match s with
  | [] => []
  | c :: s' =>
      if is_newline c then
        match s' with
        | d :: e :: _ =>
            if is_newline d && is_newline e then collapse_newlines s'
            else c :: collapse_newlines s'
        | _ => c :: collapse_newlines s'
        end
      else c :: collapse_newlines s'
  end.

(** The body of the post for the URLs that were attached. *)
Definition post_body (text : pystr) (attached_urls : list pystr) : pystr :=
  match attached_urls with
  | [] => text
  | _ =>
      strip (collapse_newlines (collapse_spaces
        (fold_left (fun t url => remove_url url t) attached_urls text)))
  end.

(** [matches r m rest]: [r] can match [m] when [rest] follows. *)
Inductive matches : regex -> pystr -> pystr -> Prop :=
| matches_lit l rest : matches (Lit l) l rest
| matches_opt_some r m rest : matches r m rest -> matches (Opt r) m rest
| matches_opt_none r rest : matches (Opt r) [] rest
| matches_many cls lo m rest :
    forallb cls m = true -> (lo <= length m)%nat -> matches (Many cls lo) m rest
| matches_seq r1 r2 m1 m2 rest :
    matches r1 m1 (m2 ++ rest) -> matches r2 m2 rest ->
    matches (Seq r1 r2) (m1 ++ m2) rest
| matches_alt_l r1 r2 m rest : matches r1 m rest -> matches (Alt r1 r2) m rest
| matches_alt_r r1 r2 m rest : matches r2 m rest -> matches (Alt r1 r2) m rest
| matches_eol rest : at_end rest = true -> matches Eol [] rest
| matches_group r m rest : matches r m rest -> matches (Group r) m rest.

(** What [image_pattern] describes: a scheme, characters that are not
    whitespace, a dot and one of the ten spellings of an extension. *)
Definition image_url (u : pystr) : Prop :=
  exists scheme body ext,
    u = scheme ++ body ++ str "." ++ ext /\
    (scheme = str "http://" \/ scheme = str "https://") /\
    body <> [] /\ forallb nonspace body = true /\ In ext image_extensions.

(** Patterns none of whose characters can be whitespace. *)
Fixpoint spaceless (r : regex) : Prop :=
  match r with
  | Lit l => forallb nonspace l = true
  | Opt r1 => spaceless r1
  | Many cls _ => forall c, isspace c = true -> cls c = false
  | Seq r1 r2 | Alt r1 r2 => spaceless r1 /\ spaceless r2
  | Eol | Group _ => False
  end.

(** [sep.join(l)] *)
Fixpoint join (sep : pystr) (l : list pystr) : pystr :=
  match l with
  | [] => []
  | [x] => x
  | x :: l' => x ++ sep ++ join sep l'
  end.

Definition candidates (image_urls : option (list pystr)) : list pystr :=
  match image_urls with
  | Some urls => firstn 4 urls
  | None => []
  end.

Definition mark (event_id : pystr) (s : bot) : bot :=
  Bot ({[ event_id ]} ∪ processed_events s) (start_time s).

Definition content_type (r : response) : pystr :=
  match content_type_header r with Some t => t | None => [] end.

(** The name a metadata record gives: [display_name] first, then
    [name]. *)
Definition chosen_name (fields : list (pystr * json)) : json :=
  py_or (dict_get fields (str "display_name") JNull)
    (py_or (dict_get fields (str "name") JNull) JNull).

(** The characters of class [cls] that [s] starts with. *)
Fixpoint take_run (cls : char -> bool) (s : pystr) : pystr :=
  match s with
  | c :: s' => if cls c then c :: take_run cls s' else []
  | [] => []
  end.

(** What follows the scheme in [image_pattern], run on the matcher:
    [[^\s]+\.(?:jpg|...|WEBP)]. *)
Definition after_scheme (s : pystr) : option (pystr * option pystr) :=
  many nonspace 1 s
    (fun rest =>
       rmatch (Seq (Lit (str ".")) extension_alt) rest None
         (fun rest' cap => Some (rest', cap))).

(** [extraction text urls]: [urls] are the image URLs of [text] read from
    left to right, each one the leftmost in what is left of the text and
    the longest that starts there, the reading resuming after it. *)
Inductive extraction : pystr -> list pystr -> Prop :=
| extraction_done text :
    (forall pre u post, text = pre ++ u ++ post -> ~ image_url u) ->
    extraction text []
| extraction_next gap u rest urls :
    image_url u ->
    (forall pre u' post,
       gap ++ u ++ rest = pre ++ u' ++ post -> image_url u' ->
       (length gap <= length pre)%nat /\
       (length pre = length gap -> (length u' <= length u)%nat)) ->
    extraction rest urls ->
    extraction (gap ++ u ++ rest) (u :: urls).

(** [s] has [n] characters of class [cls] in a row somewhere. *)
Fixpoint long_run (cls : char -> bool) (n : nat) (s : pystr) : bool :=
  match s with
  | [] => false
  | c :: s' => (n <=? run cls (c :: s'))%nat || long_run cls n s'
  end.

(** [p] occurs in [s]. *)
Definition occurs (p s : pystr) : Prop := exists pre post, s = pre ++ p ++ post.

(** [delimited u text k]: [text] is made of parts that whitespace
    characters separate; [k] of the parts hold [u], after characters
    other than the letter h and before punctuation only, and the other
    parts hold no image URL. *)
Inductive delimited (u : pystr) : pystr -> nat -> Prop :=
| delimited_none part :
    (forall pre v post, part = pre ++ v ++ post -> ~ image_url v) ->
    delimited u part 0
| delimited_one pre tail :
    ~ In (chr "h") pre -> forallb punct tail = true ->
    delimited u (pre ++ u ++ tail) 1
| delimited_sep t1 w t2 k1 k2 :
    isspace w = true -> delimited u t1 k1 -> delimited u t2 k2 ->
    delimited u (t1 ++ w :: t2) (k1 + k2).

(** [trimmed s body]: [body] is [s] without the whitespace at its two
    ends. *)
Definition trimmed (s body : pystr) : Prop :=
  exists a b,
    s = a ++ body ++ b /\
    forallb isspace a = true /\ forallb isspace b = true /\
    (forall c t, body = c :: t -> isspace c = false) /\
    (forall t c, body = t ++ [c] -> isspace c = false).

(** ** Reading a trace and a run of the services *)

Section Reading.

Context {World Blob : Type}.

Definition marks (t : list (effect Blob)) : list pystr :=
  flat_map (fun e => match e with Mark i => [i] | _ => [] end) t.

Definition queries (t : list (effect Blob)) : list pystr :=
  flat_map (fun e => match e with Query k => [k] | _ => [] end) t.

Definition gets (t : list (effect Blob)) : list pystr :=
  flat_map (fun e => match e with Get u => [u] | _ => [] end) t.

Definition uploads (t : list (effect Blob)) : list (list Byte.byte) :=
  flat_map (fun e => match e with Upload d => [d] | _ => [] end) t.

Definition posts (t : list (effect Blob))
    : list (pystr * option (list (image_embed Blob))) :=
  flat_map (fun e => match e with Post x i => [(x, i)] | _ => [] end) t.

(** [m] gives the bot's fields back as it got them, and every call it
    makes satisfies [p]. *)
Definition confined {A} (p : effect Blob -> Prop) (m : M World Blob A) : Prop :=
  forall s w, self (m s w) = s /\ Forall p (trace (m s w)).

Definition is_query (e : effect Blob) : Prop :=
  match e with Query _ => True | _ => False end.

Definition is_media (e : effect Blob) : Prop :=
  match e with Get _ | Upload _ => True | _ => False end.

Definition generic_image (b : Blob) : image_embed Blob :=
  {| alt := str "Image from Nostr"; image := b |}.

(** What [post_to_bluesky] publishes. *)
Definition post_text (content : pystr) (attached : list (pystr * Blob)) : pystr :=
  match attached with
  | [] => content
  | _ => remove_image_urls content (List.map fst attached)
  end.

Definition post_embed (attached : list (pystr * Blob))
    : option (list (image_embed Blob)) :=
  match attached with
  | [] => None
  | _ => Some (List.map generic_image (List.map snd attached))
  end.

(** Candidates given with their bytes and their blob: the calls that
    download and upload them one after the other, and what they attach. *)
Definition media_calls (items : list (pystr * list Byte.byte * Blob))
    : list (effect Blob) :=
  flat_map (fun item => [Get item.1.1; Upload item.1.2]) items.

Definition attachments (items : list (pystr * list Byte.byte * Blob))
    : list (pystr * Blob) :=
  List.map (fun item => (item.1.1, item.2)) items.

Variable env : services World Blob.

(** What [download_image] keeps of a response. *)
Definition accepted (r : option response) : option (list Byte.byte * pystr) :=
  match r with
  | Some resp =>
      match check_response env 10 resp with
      | inr image_data => Some image_data
      | inl _ => None
      end
  | None => None
  end.

(** The candidates of a list of URLs, one after the other: the pairs of
    URL and blob that end up attached, the world after the last call and
    the calls made. A candidate is dropped when the download is rejected
    or the upload fails. *)
Fixpoint attach (urls : list pystr) (w : World)
    : list (pystr * Blob) * World * list (effect Blob) :=
  match urls with
  | [] => ([], w, [])
  | url :: rest =>
      let (r, w1) := http_get env url w in
      match accepted r with
      | Some (image_bytes, _) =>
          let (blob, w2) := upload_blob env image_bytes w1 in
          let '(attached, w3, t) := attach rest w2 in
          (match blob with
           | Some b => (url, b) :: attached
           | None => attached
           end, w3, Get url :: Upload image_bytes :: t)
      | None =>
          let '(attached, w3, t) := attach rest w1 in
          (attached, w3, Get url :: t)
      end
  end.

(** A candidate is valid when, whatever the state of the world, its
    download passes every check and the upload of its bytes succeeds. *)
Definition valid (url : pystr) : Prop :=
  forall w, exists image_bytes mime,
    accepted (http_get env url w).1 = Some (image_bytes, mime) /\
    forall w', (upload_blob env image_bytes w').1 <> None.

(** A candidate is served as [image_bytes] and stored as [blob] when,
    whatever the state of the world, its download passes every check
    with these bytes and the upload of these bytes gives this blob. *)
Definition served (url : pystr) (image_bytes : list Byte.byte) (blob : Blob)
    : Prop :=
  forall w,
    (exists mime, accepted (http_get env url w).1 = Some (image_bytes, mime)) /\
    (upload_blob env image_bytes w).1 = Some blob.

(** The metadata record the relay has for a token, if the token parses,
    the query answers with an event and its content is a JSON object. *)
Definition profile_of (npub : pystr) (w : World) : option (list (pystr * json)) :=
  match PublicKey_parse env npub with
  | Some pubkey =>
      match (get_events_of env pubkey w).1 with
      | Some (metadata_event :: _) =>
          match json_loads env metadata_event with
          | Some (JObj fields) => Some fields
          | _ => None
          end
      | _ => None
      end
  | None => None
  end.

(** The world after the lookup of a token, and the query it made. *)
Definition world_after (npub : pystr) (w : World) : World :=
  match PublicKey_parse env npub with
  | Some pubkey => (get_events_of env pubkey w).2
  | None => w
  end.

Definition lookup_queries (npub : pystr) : list pystr :=
  match PublicKey_parse env npub with
  | Some pubkey => [pubkey]
  | None => []
  end.

(** What takes the place of a mention: the chosen name when there is one,
    the bare token otherwise; [None] when the chosen name is not a string
    and [str.replace] raises. *)
Definition replacement (npub : pystr) (w : World) : option pystr :=
  match profile_of npub w with
  | Some fields =>
      if truthy (chosen_name fields) then
        match chosen_name fields with
        | JStr name => Some name
        | _ => None
        end
      else Some npub
  | None => Some npub
  end.

(** The tokens one after the other, each on the text the previous ones
    left. *)
Fixpoint resolve_all (tokens : list pystr) (text : pystr) (w : World)
    : option pystr :=
  match tokens with
  | [] => Some text
  | npub :: rest =>
      match replacement npub w with
      | Some name =>
          resolve_all rest (replace text (str "nostr:" ++ npub) name)
            (world_after npub w)
      | None => None
      end
  end.

(** The world after the lookups of the tokens, one after the other. *)
Definition world_after_all (tokens : list pystr) (w : World) : World :=
  fold_left (fun w' npub => world_after npub w') tokens w.

End Reading.

(** ** Sample services and inputs, for running the model *)

(** A world that counts the calls made to it; a blob is named after the
    number of bytes uploaded. [profile] is the relay's answer for a key,
    [decode] stands for [json.loads], [page] is the web, [posting] says
    whether [send_post] goes through. *)
Definition sample_services
    (profile : pystr -> option (list pystr)) (decode : pystr -> option json)
    (page : pystr -> option response) (posting : bool)
    : services nat nat :=
  {| PublicKey_parse := fun npub => Some npub;
     get_events_of := fun pubkey w => (profile pubkey, S w);
     json_loads := decode;
     http_get := fun url w => (page url, S w);
     image_verify := fun data => match data with [] => false | _ => true end;
     upload_blob := fun data w => (Some (length data), S w);
     send_post := fun _ _ w => (posting, S w);
     set_iter := remove_dups |}.

Definition png_page (url : pystr) : option response :=
  Some {| status_code := 200;
          content_type_header := Some (str "image/png");
          body := [Byte.x89; Byte.x50; Byte.x4e; Byte.x47] |}.

Definition no_profile (pubkey : pystr) : option (list pystr) := None.

Definition no_json (text : pystr) : option json := None.

Definition note (i : string) (t : Z) (text : string) : Event :=
  {| id := str i; created_at := t; event_ids := []; content := str text |}.

Definition quiet_services : services nat nat :=
  sample_services no_profile no_json png_page true.

Definition failing_services : services nat nat :=
  sample_services no_profile no_json png_page false.

Definition html_page (url : pystr) : option response :=
  Some {| status_code := 200;
          content_type_header := Some (str "text/html");
          body := [Byte.x3c; Byte.x68; Byte.x31; Byte.x3e] |}.

Definition oversized : list Byte.byte := repeat Byte.x00 (Z.to_nat 10485761).

Definition oversized_png_page (url : pystr) : option response :=
  Some {| status_code := 200;
          content_type_header := Some (str "image/png");
          body := oversized |}.

Definition six_urls : list pystr :=
  List.map str ["https://ex.com/1.png"; "https://ex.com/2.png";
                "https://ex.com/3.png"; "https://ex.com/4.png";
                "https://ex.com/5.png"; "https://ex.com/6.png"]%string.

(** The metadata texts [{"name":"Fountain"}] and
    [{"display_name":"Fountain"}], and a stand-in for [json.loads] that
    knows them. *)
Definition name_only_json : pystr :=
  [123; 34]%N ++ str "name" ++ [34; 58; 34]%N ++ str "Fountain" ++ [34; 125]%N.

Definition display_name_json : pystr :=
  [123; 34]%N ++ str "display_name" ++ [34; 58; 34]%N ++ str "Fountain" ++
  [34; 125]%N.

Definition sample_json_loads (text : pystr) : option json :=
  if decide (text = name_only_json) then
    Some (JObj [(str "name", JStr (str "Fountain"))])
  else if decide (text = display_name_json) then
    Some (JObj [(str "display_name", JStr (str "Fountain"))])
  else None.

Definition named_services : services nat nat :=
  sample_services (fun _ => Some [name_only_json]) sample_json_loads png_page true.

Definition display_named_services : services nat nat :=
  sample_services (fun _ => Some [display_name_json]) sample_json_loads
    png_page true.

(** A relay that knows the profile of [npub10xlx] only, with a [name]
    and no [display_name]. *)
Definition prefix_profile (pubkey : pystr) : option (list pystr) :=
  if decide (pubkey = str "npub10xlx") then Some [name_only_json] else None.

Definition prefix_services : services nat nat :=
  sample_services prefix_profile sample_json_loads png_page true.

(** A web that serves one image, and an HTML page for any other URL. *)
Definition one_png_page (url : pystr) : option response :=
  if decide (url = str "https://ex.com/a.png") then png_page url
  else html_page url.

Definition one_png_services : services nat nat :=
  sample_services no_profile no_json one_png_page true.

(** The metadata text [{"display_name":5}], whose name is a number. *)
Definition numeric_name_json : pystr :=
  [123; 34]%N ++ str "display_name" ++ [34; 58]%N ++ str "5" ++ [125]%N.

Definition numeric_json_loads (text : pystr) : option json :=
  if decide (text = numeric_name_json) then
    Some (JObj [(str "display_name", JNum 5)])
  else None.

Definition numeric_name_services : services nat nat :=
  sample_services (fun _ => Some [numeric_name_json]) numeric_json_loads
    png_page true.

(** Services whose [PublicKey.parse] accepts only tokens of the length of
    an npub, 63 characters. *)
Definition strict_services : services nat nat :=
  {| PublicKey_parse := fun npub =>
       if decide (length npub = 63%nat) then Some npub else None;
     get_events_of := get_events_of display_named_services;
     json_loads := json_loads display_named_services;
     http_get := http_get display_named_services;
     image_verify := image_verify display_named_services;
     upload_blob := upload_blob display_named_services;
     send_post := send_post display_named_services;
     set_iter := set_iter display_named_services |}.

(** An environment with the three required variables, an npub that does
    not parse and a hexadecimal key that would. *)
Definition sample_getenv (name : pystr) : option pystr :=
  if decide (name = str "NOSTR_RELAY") then Some (str "wss://relay.example")
  else if decide (name = str "BLUESKY_USERNAME") then Some (str "me.bsky.social")
  else if decide (name = str "BLUESKY_APP_PASSWORD") then Some (str "secret")
  else if decide (name = str "NOSTR_NPUB") then Some (str "npub1xxxx")
  else if decide (name = str "NOSTR_PUBKEY") then Some (str "00ff")
  else None.

Definition hex_only_parse (key : pystr) : option pystr :=
  if decide (key = str "00ff") then Some key else None.

(** ** The monad and the methods that leave the bot's fields alone *)

Section Frame.

Context {World Blob : Type}.
Variable env : services World Blob.

Lemma marks_app (t1 t2 : list (effect Blob)) :
  marks (t1 ++ t2) = marks t1 ++ marks t2.
Proof. apply flat_map_app. Qed.

Lemma posts_app (t1 t2 : list (effect Blob)) :
  posts (t1 ++ t2) = posts t1 ++ posts t2.
Proof. apply flat_map_app. Qed.

Lemma gets_app (t1 t2 : list (effect Blob)) :
  gets (t1 ++ t2) = gets t1 ++ gets t2.
Proof. apply flat_map_app. Qed.

Lemma queries_app (t1 t2 : list (effect Blob)) :
  queries (t1 ++ t2) = queries t1 ++ queries t2.
Proof. apply flat_map_app. Qed.

Lemma uploads_app (t1 t2 : list (effect Blob)) :
  uploads (t1 ++ t2) = uploads t1 ++ uploads t2.
Proof. apply flat_map_app. Qed.

Lemma confined_weaken {A} (p q : effect Blob -> Prop) (m : M World Blob A) :
  (forall e, p e -> q e) -> confined p m -> confined q m.
Proof.
  intros Hpq Hm s w. destruct (Hm s w) as [Hs Ht]. split; [exact Hs|].
  eapply Forall_impl; [exact Ht | exact Hpq].
Qed.

Lemma confined_ret {A} p (a : A) : confined p (ret a : M World Blob A).
Proof. intros s w. split; [reflexivity | constructor]. Qed.

Lemma confined_raise {A} p : confined p (raise : M World Blob A).
Proof. intros s w. split; [reflexivity | constructor]. Qed.

Lemma confined_call {A} (p : effect Blob -> Prop) e (f : World -> A * World) :
  p e -> confined p (call e f).
Proof.
  intros He s w. unfold call. destruct (f w) as [a w']. split; [reflexivity|].
  simpl. repeat constructor. exact He.
Qed.

Lemma confined_bind {A B} p (m : M World Blob A) (f : A -> M World Blob B) :
  confined p m -> (forall a, confined p (f a)) -> confined p (bind m f).
Proof.
  intros Hm Hf s w. unfold bind.
  destruct (Hm s w) as [Hs Ht].
  destruct (result (m s w)) as [a|]; simpl.
  - destruct (Hf a (self (m s w)) (world (m s w))) as [Hs' Ht'].
    split; [congruence|]. apply Forall_app. split; assumption.
  - split; assumption.
Qed.

Lemma bind_run {A B} (m : M World Blob A) (f : A -> M World Blob B) s w :
  bind m f s w =
  match result (m s w) with
  | Some a =>
      Reply (result (f a (self (m s w)) (world (m s w))))
        (self (f a (self (m s w)) (world (m s w))))
        (world (f a (self (m s w)) (world (m s w))))
        (trace (m s w) ++ trace (f a (self (m s w)) (world (m s w))))
  | None => Reply None (self (m s w)) (world (m s w)) (trace (m s w))
  end.
Proof. reflexivity. Qed.

Lemma confined_for_each {A B} p (body : A -> B -> M World Blob A) (l : list B) :
  (forall a b, confined p (body a b)) ->
  forall acc, confined p (for_each body l acc).
Proof.
  intros Hbody. induction l as [|x l IH]; intros acc; simpl.
  - apply confined_ret.
  - apply confined_bind; [apply Hbody | intros a; apply IH].
Qed.

Lemma confined_fetch_profile_metadata npub :
  confined is_query (fetch_profile_metadata env npub).
Proof.
  unfold fetch_profile_metadata.
  destruct (PublicKey_parse env npub) as [pubkey|]; [|apply confined_ret].
  apply confined_bind; [apply confined_call; exact I|].
  intros [[|ev evs]|]; try apply confined_ret.
  destruct (json_loads env ev) as [[]|]; try apply confined_ret.
  match goal with |- context [if ?b then _ else _] => destruct b end;
    apply confined_ret.
Qed.

Lemma confined_replace_mention text npub :
  confined is_query (replace_mention env text npub).
Proof.
  unfold replace_mention.
  apply confined_bind; [apply confined_fetch_profile_metadata|].
  intros metadata. destruct (has_display_name metadata).
  - destruct metadata as [d|]; [|apply confined_raise].
    destruct (dict_get d (str "display_name") JNull);
      first [apply confined_ret | apply confined_raise].
  - apply confined_ret.
Qed.

Lemma confined_replace_npub_mentions text :
  confined is_query (replace_npub_mentions env text).
Proof.
  unfold replace_npub_mentions.
  destruct (extract_npub_mentions text); [apply confined_ret|].
  apply confined_for_each. intros a b. apply confined_replace_mention.
Qed.

Lemma queries_no_marks (t : list (effect Blob)) :
  Forall is_query t -> marks t = [] /\ posts t = [] /\ gets t = [] /\ uploads t = [].
Proof.
  induction 1 as [|e t He _ IH]; [repeat split|].
  destruct e; try contradiction. simpl. exact IH.
Qed.

Lemma media_no_marks (t : list (effect Blob)) :
  Forall is_media t -> marks t = [] /\ posts t = [] /\ queries t = [].
Proof.
  induction 1 as [|e t He _ IH]; [repeat split|].
  destruct e; try contradiction; simpl; exact IH.
Qed.

End Frame.

(** ** The posting loop and the publish call *)

Section Posting.

Context {World Blob : Type}.
Variable env : services World Blob.

Lemma app_nil_end_cons {A} (l : list A) (x : A) (l' : list A) :
  (l ++ [x]) ++ l' = l ++ x :: l'.
Proof. rewrite <- app_assoc. reflexivity. Qed.

Lemma download_image_run url s w :
  download_image env url 10 s w =
  Reply (Some (accepted env (http_get env url w).1)) s (http_get env url w).2 [Get url].
Proof.
  unfold download_image, bind, call, accepted.
  destruct (http_get env url w) as [[resp|] w1]; simpl; [|reflexivity].
  destruct (check_response env 10 resp) as [why|image_data]; reflexivity.
Qed.

Lemma process_image_run acc url s w :
  process_image env acc url s w =
  match accepted env (http_get env url w).1 with
  | Some (image_bytes, _) =>
      let up := upload_blob env image_bytes (http_get env url w).2 in
      Reply
        (Some match up.1 with
              | Some b => (fst acc ++ [generic_image b], snd acc ++ [url])
              | None => acc
              end)
        s up.2 [Get url; Upload image_bytes]
  | None => Reply (Some acc) s (http_get env url w).2 [Get url]
  end.
Proof.
  unfold process_image, bind. rewrite download_image_run. simpl.
  destruct (accepted env (http_get env url w).1) as [[image_bytes mime]|];
    [|reflexivity].
  unfold upload_image_to_bluesky, call. simpl.
  destruct (upload_blob env image_bytes (http_get env url w).2) as [[b|] w2];
    reflexivity.
Qed.

Lemma attach_cons url rest w :
  attach env (url :: rest) w =
  match accepted env (http_get env url w).1 with
  | Some (image_bytes, _) =>
      let up := upload_blob env image_bytes (http_get env url w).2 in
      let a := attach env rest up.2 in
      (match up.1 with Some b => (url, b) :: a.1.1 | None => a.1.1 end,
       a.1.2, Get url :: Upload image_bytes :: a.2)
  | None =>
      let a := attach env rest (http_get env url w).2 in
      (a.1.1, a.1.2, Get url :: a.2)
  end.
Proof.
  simpl. unfold accepted.
  destruct (http_get env url w) as [[resp|] w1]; simpl.
  - destruct (check_response env 10 resp) as [why|[image_bytes mime]]; simpl.
    + destruct (attach env rest w1) as [[att w3] t]. reflexivity.
    + destruct (upload_blob env image_bytes w1) as [blob w2]. simpl.
      destruct (attach env rest w2) as [[att w3] t]. reflexivity.
  - destruct (attach env rest w1) as [[att w3] t]. reflexivity.
Qed.

(** The loop of [post_to_bluesky] computes [attach]. *)
Lemma for_each_process_image urls : forall acc s w,
  for_each (process_image env) urls acc s w =
  Reply
    (Some (fst acc ++ List.map generic_image (List.map snd (attach env urls w).1.1),
           snd acc ++ List.map fst (attach env urls w).1.1))
    s (attach env urls w).1.2 (attach env urls w).2.
Proof.
  induction urls as [|url rest IH]; intros [images ok] s w.
  - simpl. unfold ret. rewrite !app_nil_r. reflexivity.
  - rewrite attach_cons.
    change (for_each (process_image env) (url :: rest) (images, ok) s w)
      with (bind (process_image env (images, ok) url)
              (fun acc' => for_each (process_image env) rest acc') s w).
    unfold bind. rewrite process_image_run.
    destruct (accepted env (http_get env url w).1) as [[image_bytes mime]|]; simpl.
    + rewrite IH.
      destruct (upload_blob env image_bytes (http_get env url w).2) as [[b|] w2];
        simpl; rewrite ?app_nil_end_cons; reflexivity.
    + rewrite IH. reflexivity.
Qed.

(** [post_to_bluesky] runs the candidates, then publishes once, whatever
    became of the candidates. *)
Lemma post_to_bluesky_run content image_urls s w :
  let a := attach env (candidates image_urls) w in
  let text := post_text content a.1.1 in
  let embed := post_embed a.1.1 in
  post_to_bluesky env content image_urls s w =
  Reply (Some (send_post env text embed a.1.2).1) s
    (send_post env text embed a.1.2).2 (a.2 ++ [Post text embed]).
Proof.
  unfold post_to_bluesky. unfold bind at 1.
  assert (Hloop :
    (match image_urls with
     | Some ((_ :: _) as urls) =>
         for_each (process_image env) (firstn 4 urls) ([], [])
     | _ => ret ([], [])
     end) s w =
    for_each (process_image env) (candidates image_urls) ([], []) s w).
  { destruct image_urls as [[|u us]|]; reflexivity. }
  rewrite Hloop, for_each_process_image. simpl.
  destruct (attach env (candidates image_urls) w) as [[att w1] t]. simpl.
  destruct att as [|[u b] att]; simpl; unfold call;
    match goal with |- context [send_post env ?x ?y ?z] =>
      destruct (send_post env x y z) as [ok w2] end; reflexivity.
Qed.

(** The downloads are those of the candidates, in their order. *)
Lemma attach_gets urls : forall w, gets (attach env urls w).2 = urls.
Proof.
  induction urls as [|url rest IH]; intros w; [reflexivity|].
  rewrite attach_cons.
  destruct (accepted env (http_get env url w).1) as [[image_bytes mime]|]; simpl;
    rewrite IH; reflexivity.
Qed.

Lemma attach_media urls : forall w, Forall is_media (attach env urls w).2.
Proof.
  induction urls as [|url rest IH]; intros w; [constructor|].
  rewrite attach_cons.
  destruct (accepted env (http_get env url w).1) as [[image_bytes mime]|]; simpl;
    repeat (constructor; [exact I|]); apply IH.
Qed.

(** The attached URLs are candidates, in the order of the candidates. *)
Lemma attach_sublist urls : forall w,
  sublist (List.map fst (attach env urls w).1.1) urls.
Proof.
  induction urls as [|url rest IH]; intros w; [constructor|].
  rewrite attach_cons.
  destruct (accepted env (http_get env url w).1) as [[image_bytes mime]|]; simpl.
  - destruct (upload_blob env image_bytes (http_get env url w).2) as [[b|] w2];
      simpl; constructor; apply IH.
  - constructor. apply IH.
Qed.

Lemma post_to_bluesky_posts content image_urls s w :
  let r := post_to_bluesky env content image_urls s w in
  self r = s /\ marks (trace r) = [] /\ queries (trace r) = [] /\
  gets (trace r) = candidates image_urls /\ length (posts (trace r)) = 1%nat.
Proof.
  simpl. rewrite post_to_bluesky_run. simpl.
  pose proof (attach_media (candidates image_urls) w) as Hm.
  apply media_no_marks in Hm. destruct Hm as (Hm & Hp & Hq).
  rewrite marks_app, queries_app, gets_app, posts_app, Hm, Hp, Hq, attach_gets.
  simpl. rewrite app_nil_r. repeat split.
Qed.

End Posting.

(** ** The gates of [handle_nostr_event] *)

Section Gates.

Context {World Blob : Type}.
Variable env : services World Blob.

(** The method, gate by gate. *)
Lemma handle_nostr_event_run event s w :
  handle_nostr_event env event s w =
  if decide (id event ∈ processed_events s) then
    Reply (Some (Skipped duplicate)) s w []
  else if (created_at event <? start_time s)%Z then
    Reply (Some (Skipped too_old)) s w []
  else
    let r := cross_post env event (mark (id event) s) w in
    Reply (result r) (self r) (world r) (Mark (id event) :: trace r).
Proof.
  unfold handle_nostr_event, bind, get_self. simpl.
  destruct (decide (id event ∈ processed_events s)); [reflexivity|].
  destruct (created_at event <? start_time s)%Z; [reflexivity|].
  reflexivity.
Qed.

Lemma handle_duplicate event s w :
  id event ∈ processed_events s ->
  handle_nostr_event env event s w = Reply (Some (Skipped duplicate)) s w [].
Proof.
  intros Hin. rewrite handle_nostr_event_run.
  destruct (decide (id event ∈ processed_events s)); [reflexivity | contradiction].
Qed.

Lemma handle_too_old event s w :
  id event ∉ processed_events s ->
  (created_at event < start_time s)%Z ->
  handle_nostr_event env event s w = Reply (Some (Skipped too_old)) s w [].
Proof.
  intros Hin Hold. rewrite handle_nostr_event_run.
  destruct (decide (id event ∈ processed_events s)); [contradiction|].
  apply Z.ltb_lt in Hold. rewrite Hold. reflexivity.
Qed.

Lemma handle_fresh event s w :
  id event ∉ processed_events s ->
  (start_time s <= created_at event)%Z ->
  handle_nostr_event env event s w =
  let r := cross_post env event (mark (id event) s) w in
  Reply (result r) (self r) (world r) (Mark (id event) :: trace r).
Proof.
  intros Hin Hnew. rewrite handle_nostr_event_run.
  destruct (decide (id event ∈ processed_events s)); [contradiction|].
  apply Z.ltb_ge in Hnew. rewrite Hnew. reflexivity.
Qed.

Lemma candidates_of_extracted (urls : list pystr) :
  candidates (match urls with [] => None | _ => Some urls end) = firstn 4 urls.
Proof. destruct urls; reflexivity. Qed.

(** [cross_post] for a note that is no reply and has text: it raises when
    the time of the note cannot be converted or the resolution of the
    mentions raises, and otherwise reports on the one publish call. *)
Lemma cross_post_run event s w :
  is_reply event = false ->
  strip (content event) <> [] ->
  cross_post env event s w =
  match fromtimestamp_utc (created_at event) with
  | None => Reply None s w []
  | Some _ =>
      let r1 := replace_npub_mentions env (content event) s w in
      match result r1 with
      | Some resolved =>
          let a := attach env (firstn 4 (extract_image_urls resolved)) (world r1) in
          let text := post_text resolved a.1.1 in
          let embed := post_embed a.1.1 in
          let sent := send_post env text embed a.1.2 in
          Reply (Some (if sent.1 then Published else PublishFailed)) s sent.2
            (trace r1 ++ a.2 ++ [Post text embed])
      | None => Reply None s (world r1) (trace r1)
      end
  end.
Proof.
  intros Hreply Htext. unfold cross_post. rewrite Hreply.
  destruct (strip (content event)) as [|c0 stripped]; [contradiction|].
  destruct (fromtimestamp_utc (created_at event)) as [timestamp|];
    [|reflexivity].
  cbv zeta. rewrite bind_run.
  destruct (confined_replace_npub_mentions env (content event) s w) as [Hs _].
  set (r1 := replace_npub_mentions env (content event) s w) in *.
  destruct (result r1) as [resolved|]; [|rewrite Hs; reflexivity].
  rewrite bind_run, post_to_bluesky_run. cbv zeta.
  cbn [result self world trace]. rewrite candidates_of_extracted, Hs.
  destruct (send_post env _ _ _) as [[|] w2]; cbn [fst snd ret result self world trace];
    rewrite app_nil_r; reflexivity.
Qed.

(** After the mark the bot's fields are left alone, and there is at most
    one publish call: exactly one when the method reports on a publish. *)
Lemma cross_post_frame event s w :
  let r := cross_post env event s w in
  self r = s /\ marks (trace r) = [] /\
  (length (posts (trace r)) <= 1)%nat /\
  (result r = Some Published \/ result r = Some PublishFailed ->
   length (posts (trace r)) = 1%nat).
Proof.
  simpl. unfold cross_post.
  destruct (is_reply event).
  { simpl. repeat split; [lia | intros [H|H]; discriminate]. }
  destruct (strip (content event)) as [|c0 stripped].
  { simpl. repeat split; [lia | intros [H|H]; discriminate]. }
  destruct (fromtimestamp_utc (created_at event)) as [timestamp|].
  2: { simpl. repeat split; [lia | intros [H|H]; discriminate]. }
  rewrite bind_run.
  destruct (confined_replace_npub_mentions env (content event) s w) as [Hs Hq].
  apply queries_no_marks in Hq. destruct Hq as (Hm & Hp & _).
  set (r1 := replace_npub_mentions env (content event) s w) in *.
  destruct (result r1) as [text|]; cbn [result self world trace].
  - rewrite bind_run.
    match goal with |- context [post_to_bluesky env ?c ?u ?s' ?w'] =>
      pose proof (post_to_bluesky_posts env c u s' w') as Hpost;
      set (r2 := post_to_bluesky env c u s' w') in *
    end.
    cbn zeta in Hpost. destruct Hpost as (Hs' & Hm' & _ & _ & Hp').
    destruct (result r2) as [[|]|]; cbn [result self world trace ret];
      rewrite ?marks_app, ?posts_app, Hm, Hp, Hm'; simpl;
      rewrite ?app_nil_r, Hp';
      (split; [congruence|]); repeat split; try lia;
      intros [H|H]; discriminate.
  - rewrite Hm, Hp. simpl. repeat split; try assumption; try lia.
    intros [H|H]; discriminate.
Qed.

Lemma elem_of_mark (x i : pystr) (s : bot) :
  x ∈ processed_events (mark i s) <-> x = i \/ x ∈ processed_events s.
Proof. unfold mark. simpl. rewrite elem_of_union, elem_of_singleton. tauto. Qed.

(** After the mark either nothing is published, or there is one publish
    call and the method reports its outcome. *)
Lemma cross_post_posts event s w :
  let r := cross_post env event s w in
  posts (trace r) = [] \/
  exists w0 text embed,
    posts (trace r) = [(text, embed)] /\
    result r =
      Some (if (send_post env text embed w0).1 then Published else PublishFailed).
Proof.
  cbv zeta. destruct (is_reply event) eqn:Hreply.
  { left. unfold cross_post. rewrite Hreply. reflexivity. }
  destruct (strip (content event)) as [|c0 stripped] eqn:Htext.
  { left. unfold cross_post. rewrite Hreply, Htext. reflexivity. }
  rewrite cross_post_run; [|exact Hreply|rewrite Htext; discriminate].
  destruct (fromtimestamp_utc (created_at event)) as [timestamp|];
    [|left; reflexivity].
  cbv zeta.
  destruct (confined_replace_npub_mentions env (content event) s w) as [_ Hq].
  apply queries_no_marks in Hq. destruct Hq as (_ & Hp1 & _).
  set (r1 := replace_npub_mentions env (content event) s w) in *.
  destruct (result r1) as [resolved|]; [|left; exact Hp1].
  right. cbn [result trace].
  pose proof (attach_media env (firstn 4 (extract_image_urls resolved)) (world r1))
    as Hm.
  apply media_no_marks in Hm. destruct Hm as (_ & Hp2 & _).
  set (a := attach env (firstn 4 (extract_image_urls resolved)) (world r1)) in *.
  exists a.1.2, (post_text resolved a.1.1), (post_embed a.1.1).
  rewrite !posts_app, Hp1, Hp2. split; reflexivity.
Qed.

(** The set of processed events only grows, and the cutoff never moves. *)
Lemma handle_monotone event s w :
  let r := handle_nostr_event env event s w in
  processed_events s ⊆ processed_events (self r) /\
  start_time (self r) = start_time s /\
  (forall x, x ∈ processed_events (self r) ->
     x ∈ processed_events s \/
     x = id event /\ (start_time s <= created_at event)%Z).
Proof.
  cbv zeta. rewrite handle_nostr_event_run.
  destruct (decide (id event ∈ processed_events s)); simpl.
  { split; [set_solver|]. split; [reflexivity|]. intros x Hx. left. exact Hx. }
  destruct (created_at event <? start_time s)%Z eqn:Hold; simpl.
  { split; [set_solver|]. split; [reflexivity|]. intros x Hx. left. exact Hx. }
  destruct (cross_post_frame event (mark (id event) s) w) as (Hs & _).
  rewrite Hs. simpl. split; [set_solver|]. split; [reflexivity|].
  intros x Hx. apply Z.ltb_ge in Hold.
  apply elem_of_union in Hx. destruct Hx as [Hx|Hx]; [|left; exact Hx].
  apply elem_of_singleton in Hx. right. split; assumption.
Qed.

Lemma deliver_cons event rest s w :
  deliver env (event :: rest) s w =
  let r := handle_nostr_event env event s w in
  let d := deliver env rest (self r) (world r) in
  (d.1.1, d.1.2, trace r ++ d.2).
Proof.
  simpl. destruct (deliver env rest _ _) as [[s' w'] t]. reflexivity.
Qed.

(** Over any deliveries the set only grows, the cutoff stays, and every
    identifier in the set is that of a delivered event created at or after
    the cutoff. *)
Lemma deliver_monotone events : forall s w,
  let d := deliver env events s w in
  processed_events s ⊆ processed_events d.1.1 /\
  start_time d.1.1 = start_time s /\
  (forall x, x ∈ processed_events d.1.1 ->
     x ∈ processed_events s \/
     exists event, In event events /\ id event = x /\
       (start_time s <= created_at event)%Z).
Proof.
  induction events as [|event rest IH]; intros s w.
  - simpl. split; [set_solver|]. split; [reflexivity|]. intros x Hx. left. exact Hx.
  - rewrite deliver_cons. cbv zeta. cbn [fst snd].
    destruct (handle_monotone event s w) as (Hsub & Hst & Hin).
    destruct (IH (self (handle_nostr_event env event s w))
                (world (handle_nostr_event env event s w))) as (Hsub' & Hst' & Hin').
    split; [etrans; eassumption|]. split; [congruence|].
    intros x Hx. destruct (Hin' x Hx) as [Hx'|(ev & Hev & Hid & Hts)].
    + destruct (Hin x Hx') as [Hx''|[Hid Hts]]; [left; exact Hx''|].
      right. exists event. split; [left; reflexivity|]. split; [congruence|exact Hts].
    + right. exists ev. split; [right; exact Hev|]. split; [exact Hid|].
      rewrite <- Hst. exact Hts.
Qed.

End Gates.

(** ** Deduplication, the age gate and the accepted loss of a failed publish *)

Section Delivery.

Context {World Blob : Type}.
Variable env : services World Blob.

(** C1. An event whose identifier is already in [processed_events] is
    skipped as a duplicate before any later step: the bot and the world
    are as before and nothing is traced. Hence, of two deliveries of the
    same event within one run (whatever was delivered in between), the
    second resolves no mention, touches no media and publishes nothing. *)
Theorem duplicate_is_skipped :
  (forall event s w,
     id event ∈ processed_events s ->
     handle_nostr_event env event s w = Reply (Some (Skipped duplicate)) s w [])
  /\
  (forall first between second s w,
     id second = id first ->
     created_at second = created_at first ->
     let d := deliver env (first :: between) s w in
     let r := handle_nostr_event env second d.1.1 d.1.2 in
     trace r = [] /\ self r = d.1.1 /\ world r = d.1.2 /\
     (result r = Some (Skipped duplicate) \/ result r = Some (Skipped too_old)) /\
     ((start_time s <= created_at first)%Z -> result r = Some (Skipped duplicate))).
Proof.
  split; [intros event s w Hin; apply handle_duplicate; exact Hin|].
  intros first between second s w Hid Hts. cbv zeta.
  rewrite deliver_cons. cbv zeta. cbn [fst snd].
  set (r1 := handle_nostr_event env first s w).
  destruct (deliver_monotone env between (self r1) (world r1)) as (Hsub & Hst & _).
  set (d := deliver env between (self r1) (world r1)) in *.
  destruct (handle_monotone env first s w) as (_ & Hst1 & _). fold r1 in Hst1.
  destruct (decide (id second ∈ processed_events d.1.1)) as [Hin|Hout].
  - rewrite handle_duplicate by exact Hin. simpl.
    repeat split; try reflexivity. left. reflexivity.
  - assert (Hold : (created_at first < start_time s)%Z).
    { destruct (Z.ltb_spec (created_at first) (start_time s)) as [H|H]; [exact H|].
      exfalso. apply Hout. apply Hsub. subst r1. rewrite Hid.
      rewrite handle_nostr_event_run.
      destruct (decide (id first ∈ processed_events s)) as [Hs|Hs]; simpl.
      + exact Hs.
      + apply Z.ltb_ge in H. rewrite H. simpl.
        destruct (cross_post_frame env first (mark (id first) s) w) as (Hself & _).
        rewrite Hself. simpl. set_solver. }
    rewrite handle_too_old; [|exact Hout|rewrite Hts, Hst, Hst1; exact Hold].
    simpl. repeat split; try reflexivity; [right; reflexivity|]. lia.
Qed.

(** C2. An event created strictly before the cutoff is skipped as too old
    before the mark: nothing is traced, so nothing is published, and its
    identifier is not in [processed_events], neither before nor after.
    [processed_events] only ever holds identifiers of delivered events
    created at or after the cutoff. (An identifier names one event, so
    the deliveries that carry it carry the same creation time.) *)
Theorem stale_event_is_skipped now events event w :
  (forall e, In e events -> id e = id event -> created_at e = created_at event) ->
  (created_at event < now)%Z ->
  let d := deliver env events (initial now) w in
  handle_nostr_event env event d.1.1 d.1.2 =
    Reply (Some (Skipped too_old)) d.1.1 d.1.2 [] /\
  (id event ∉ processed_events d.1.1) /\
  (forall x, x ∈ processed_events d.1.1 ->
     exists e, In e events /\ id e = x /\ (now <= created_at e)%Z).
Proof.
  intros Hsame Hold. cbv zeta.
  destruct (deliver_monotone env events (initial now) w) as (_ & Hst & Hin).
  set (d := deliver env events (initial now) w) in *.
  assert (Hall : forall x, x ∈ processed_events d.1.1 ->
            exists e, In e events /\ id e = x /\ (now <= created_at e)%Z).
  { intros x Hx. destruct (Hin x Hx) as [Hx'|Hx']; [|exact Hx'].
    simpl in Hx'. set_solver. }
  assert (Hout : id event ∉ processed_events d.1.1).
  { intros Hx. destruct (Hall _ Hx) as (e & He & Hid & Hts).
    rewrite (Hsame e He Hid) in Hts. lia. }
  split; [|split; assumption].
  apply handle_too_old; [exact Hout|]. rewrite Hst. exact Hold.
Qed.

(** C3. An event that passes the duplicate and age gates is marked before
    anything else is done for it, so before the publish call; there is at
    most one publish call. When the publish call fails the method reports
    the failure after that single call, with the identifier still in
    [processed_events]: a second delivery of the event is skipped as a
    duplicate. The report is the outcome of the publish call: for a note
    that is no reply, has text and a time that can be converted, and
    whose mentions resolve, the trace is the mark, the lookups, the media
    calls and the one publish call, and the method reports [Published]
    when that call went through and [PublishFailed] when it did not. *)
Theorem publish_failure_is_final event s w :
  id event ∉ processed_events s ->
  (start_time s <= created_at event)%Z ->
  let r := handle_nostr_event env event s w in
  (exists t, trace r = Mark (id event) :: t /\ marks t = [] /\
             (length (posts t) <= 1)%nat) /\
  id event ∈ processed_events (self r) /\
  (result r = Some PublishFailed -> length (posts (trace r)) = 1%nat) /\
  (forall w',
     handle_nostr_event env event (self r) w' =
     Reply (Some (Skipped duplicate)) (self r) w' []) /\
  (forall text embed,
     In (text, embed) (posts (trace r)) ->
     (forall w0, (send_post env text embed w0).1 = false) ->
     result r = Some PublishFailed) /\
  (event_ids event = [] ->
   strip (content event) <> [] ->
   fromtimestamp_utc (created_at event) <> None ->
   forall resolved,
   let r1 := replace_npub_mentions env (content event) (mark (id event) s) w in
   result r1 = Some resolved ->
   let a := attach env (firstn 4 (extract_image_urls resolved)) (world r1) in
   let text := post_text resolved a.1.1 in
   let embed := post_embed a.1.1 in
   let sent := send_post env text embed a.1.2 in
   trace r = Mark (id event) :: trace r1 ++ a.2 ++ [Post text embed] /\
   posts (trace r) = [(text, embed)] /\
   self r = mark (id event) s /\
   world r = sent.2 /\
   result r = Some (if sent.1 then Published else PublishFailed)).
Proof.
  intros Hout Hnew. cbv zeta. rewrite (handle_fresh env event s w Hout Hnew).
  cbv zeta.
  destruct (cross_post_frame env event (mark (id event) s) w)
    as (Hself & Hmarks & Hle & Hone).
  pose proof (cross_post_posts env event (mark (id event) s) w) as Hposts.
  set (r := cross_post env event (mark (id event) s) w) in *.
  cbn [trace self result world].
  assert (Hin : id event ∈ processed_events (self r)).
  { rewrite Hself. apply elem_of_mark. left. reflexivity. }
  split; [exists (trace r); repeat split; assumption|].
  split; [exact Hin|]. split; [|split; [|split]].
  - intros Hfail. simpl. apply Hone. right. exact Hfail.
  - intros w'. apply handle_duplicate. exact Hin.
  - intros text embed Hpost Hfails. simpl in Hpost.
    destruct Hposts as [Hnone|(w0 & text0 & embed0 & Hp & Hres)].
    + rewrite Hnone in Hpost. contradiction.
    + rewrite Hp in Hpost. destruct Hpost as [[= <- <-]|[]].
      rewrite Hres, Hfails. reflexivity.
  - intros Htags Htext Htime resolved Hres. subst r.
    rewrite cross_post_run;
      [|unfold is_reply; rewrite Htags; reflexivity|exact Htext].
    destruct (fromtimestamp_utc (created_at event)) as [timestamp|];
      [|contradiction].
    cbv zeta. rewrite Hres. cbn [result self world trace].
    destruct (confined_replace_npub_mentions env (content event)
                (mark (id event) s) w) as [_ Hq].
    apply queries_no_marks in Hq. destruct Hq as (_ & Hp1 & _).
    pose proof (attach_media env (firstn 4 (extract_image_urls resolved))
                  (world (replace_npub_mentions env (content event)
                            (mark (id event) s) w))) as Hm.
    apply media_no_marks in Hm. destruct Hm as (_ & Hp2 & _).
    split; [reflexivity|]. split; [|repeat split].
    change (posts (Mark (id event) :: ?t)) with (posts t).
    rewrite !posts_app, Hp1, Hp2. reflexivity.
Qed.

End Delivery.

Lemma duplicate_is_skipped_witness :
  handle_nostr_event quiet_services (note "e1" 100 "hello")
    (Bot {[ str "e1" ]} 50) 0%nat =
  Reply (Some (Skipped duplicate)) (Bot {[ str "e1" ]} 50) 0%nat []
  /\
  trace (handle_nostr_event quiet_services (note "e1" 100 "hello")
           (deliver quiet_services [note "e1" 100 "hello"; note "e2" 101 "x"]
              (initial 50) 0%nat).1.1
           (deliver quiet_services [note "e1" 100 "hello"; note "e2" 101 "x"]
              (initial 50) 0%nat).1.2) = [].
Proof.
  split.
  - apply (proj1 (duplicate_is_skipped quiet_services)
             (note "e1" 100 "hello") (Bot {[ str "e1" ]} 50) 0%nat).
    simpl. set_solver.
  - apply (proj2 (duplicate_is_skipped quiet_services)
             (note "e1" 100 "hello") [note "e2" 101 "x"] (note "e1" 100 "hello")
             (initial 50) 0%nat); reflexivity.
Defined.

Lemma stale_event_is_skipped_witness :
  let d := deliver quiet_services [note "e1" 100 "hello"] (initial 50) 0%nat in
  handle_nostr_event quiet_services (note "e0" 10 "old news") d.1.1 d.1.2 =
  Reply (Some (Skipped too_old)) d.1.1 d.1.2 [].
Proof.
  apply (stale_event_is_skipped quiet_services 50 [note "e1" 100 "hello"]
           (note "e0" 10 "old news") 0%nat).
  - intros e [He|[]] Hid. subst e. vm_compute in Hid. discriminate.
  - reflexivity.
Defined.

Lemma publish_failure_is_final_witness :
  let r := handle_nostr_event failing_services (note "e1" 100 "hello")
             (initial 50) 0%nat in
  result r = Some PublishFailed /\
  trace r = [Mark (str "e1"); Post (str "hello") None] /\
  str "e1" ∈ processed_events (self r) /\
  handle_nostr_event failing_services (note "e1" 100 "hello") (self r) 7%nat =
  Reply (Some (Skipped duplicate)) (self r) 7%nat [].
Proof.
  pose proof (publish_failure_is_final failing_services (note "e1" 100 "hello")
                (initial 50) 0%nat) as H.
  assert (Hout : id (note "e1" 100 "hello") ∉ processed_events (initial 50)).
  { simpl. apply not_elem_of_empty. }
  assert (Hnew : (start_time (initial 50) <= created_at (note "e1" 100 "hello"))%Z).
  { simpl. lia. }
  specialize (H Hout Hnew). cbv zeta in H.
  destruct H as (_ & Hin & _ & Hdup & _ & Hrun).
  specialize (Hrun eq_refl ltac:(discriminate) ltac:(discriminate)
                (str "hello") eq_refl).
  destruct Hrun as (Htrace & _ & _ & _ & Hres).
  cbv zeta. split; [exact Hres|]. split; [exact Htrace|].
  split; [exact Hin | apply Hdup].
Defined.

(** ** The checks of [download_image] and the cap on attachments *)

Section Media.

Context {World Blob : Type}.
Variable env : services World Blob.

(** [size_mb > max_size_mb], on the number of bytes. *)
Lemma too_large_iff (data : list Byte.byte) (max_size_mb : Z) :
  negb (Qle_bool (size_mb data) (inject_Z max_size_mb)) =
  (max_size_mb * (1024 * 1024) <? Z.of_nat (length data))%Z.
Proof.
  unfold Qle_bool, size_mb, inject_Z. cbn [Qnum Qden].
  rewrite Z.mul_1_r.
  change (Z.pos (1024 * 1024)) with (1024 * 1024)%Z.
  rewrite Z.ltb_antisym. reflexivity.
Qed.

Lemma attach_valid urls : forall w,
  Forall (valid env) urls -> List.map fst (attach env urls w).1.1 = urls.
Proof.
  induction urls as [|url rest IH]; intros w Hv; [reflexivity|].
  apply Forall_cons in Hv. destruct Hv as [Hurl Hrest].
  rewrite attach_cons. destruct (Hurl w) as (image_bytes & mime & Hacc & Hup).
  rewrite Hacc. cbv zeta. cbn [fst snd].
  specialize (Hup (http_get env url w).2).
  destruct (upload_blob env image_bytes (http_get env url w).2) as [[b|] w2];
    [|contradiction].
  simpl. f_equal. apply IH. exact Hrest.
Qed.

Lemma attach_length urls w :
  (length (attach env urls w).1.1 <= length urls)%nat.
Proof.
  pose proof (sublist_length _ _ (attach_sublist env urls w)) as H.
  rewrite length_map in H. exact H.
Qed.

Lemma rejected_candidate_still_posts url s w text :
  accepted env (http_get env url w).1 = None ->
  post_to_bluesky env text (Some [url]) s w =
  Reply (Some (send_post env text None (http_get env url w).2).1) s
    (send_post env text None (http_get env url w).2).2
    [Get url; Post text None].
Proof.
  intros Hrej. rewrite post_to_bluesky_run. cbv zeta.
  unfold candidates. cbn [firstn]. rewrite attach_cons, Hrej. reflexivity.
Qed.

(** C6. [download_image] makes one request and then checks, in this
    order: the status, the [content-type] header, the size against
    10 MiB, the decodability; the first check that fails decides the
    diagnostic, and any failure gives no image. A text/html response is
    rejected whatever its size, an image/png response of more than 10 MiB
    is rejected. A rejected candidate does not stop the post: it is
    published, without the candidate and with the text as it was. *)
Theorem download_checks_in_order url s w resp :
  (http_get env url w).1 = Some resp ->
  let r := download_image env url 10 s w in
  let big := (10 * (1024 * 1024) <? Z.of_nat (length (body resp)))%Z in
  trace r = [Get url] /\
  (is_success resp = false ->
     check_response env 10 resp = inl BadStatus /\ result r = Some None) /\
  (is_success resp = true ->
   startswith (content_type resp) (str "image/") = false ->
     check_response env 10 resp = inl NotAnImage /\ result r = Some None) /\
  (is_success resp = true ->
   startswith (content_type resp) (str "image/") = true ->
   big = true ->
     check_response env 10 resp = inl TooLarge /\ result r = Some None) /\
  (is_success resp = true ->
   startswith (content_type resp) (str "image/") = true ->
   big = false ->
   image_verify env (body resp) = false ->
     check_response env 10 resp = inl InvalidImage /\ result r = Some None) /\
  (is_success resp = true ->
   startswith (content_type resp) (str "image/") = true ->
   big = false ->
   image_verify env (body resp) = true ->
     result r = Some (Some (body resp, content_type resp))) /\
  (result r = Some None ->
   forall text,
     post_to_bluesky env text (Some [url]) s w =
     Reply (Some (send_post env text None (http_get env url w).2).1) s
       (send_post env text None (http_get env url w).2).2
       [Get url; Post text None]).
Proof.
  intros Hget. cbv zeta. rewrite download_image_run. cbn [trace result].
  split; [reflexivity|].
  assert (Hacc : accepted env (http_get env url w).1 =
                 match check_response env 10 resp with
                 | inr image_data => Some image_data
                 | inl _ => None
                 end).
  { unfold accepted. rewrite Hget. reflexivity. }
  assert (Hlast : Some (accepted env (http_get env url w).1) = Some None ->
            forall text,
              post_to_bluesky env text (Some [url]) s w =
              Reply (Some (send_post env text None (http_get env url w).2).1) s
                (send_post env text None (http_get env url w).2).2
                [Get url; Post text None]).
  { intros H text. apply rejected_candidate_still_posts. congruence. }
  revert Hlast. rewrite Hacc. clear Hacc. intros Hlast.
  unfold check_response in *. rewrite too_large_iff in *.
  fold (content_type resp) in *.
  destruct (is_success resp); cbn [negb] in *;
    [|repeat split; intros; first [discriminate | reflexivity | auto]].
  destruct (startswith (content_type resp) (str "image/")); cbn [negb] in *;
    [|repeat split; intros; first [discriminate | reflexivity | auto]].
  destruct (10 * (1024 * 1024) <? Z.of_nat (length (body resp)))%Z;
    [repeat split; intros; first [discriminate | reflexivity | auto]|].
  destruct (image_verify env (body resp)); cbn [negb] in *;
    repeat split; intros; first [discriminate | reflexivity | auto].
Qed.

(** Candidates that are served are downloaded, uploaded and attached
    one after the other, in their order. *)
Lemma attach_served items : forall w,
  Forall (fun item => served env item.1.1 item.1.2 item.2) items ->
  (attach env (List.map (fun item => item.1.1) items) w).1.1 = attachments items /\
  (attach env (List.map (fun item => item.1.1) items) w).2 = media_calls items.
Proof.
  induction items as [|[[url image_bytes] blob] rest IH]; intros w Hall;
    [split; reflexivity|].
  apply Forall_cons in Hall. destruct Hall as [Hitem Hrest].
  cbn [List.map fst snd] in *. rewrite attach_cons.
  destruct (Hitem w) as [[mime Hacc] _]. rewrite Hacc. cbv zeta. cbn [fst snd].
  destruct (Hitem (http_get env url w).2) as [_ Hup]. rewrite Hup.
  destruct (IH (upload_blob env image_bytes (http_get env url w).2).2 Hrest)
    as [Hatt Hcalls].
  rewrite Hatt, Hcalls. split; reflexivity.
Qed.

(** C7. Of a list of image URLs only the first four are ever requested,
    in the order of the list, and the loop is followed by the one publish
    call. What is attached is what the candidates give when they are
    taken one after the other: a selection of the four in their order,
    each with the blob of its own upload, and all four when every URL is
    valid. When the first four URLs are served, each as its bytes and
    stored as its blob, the calls are: download and upload of the first,
    of the second, and so on, then the publish call, whose embed holds
    the four blobs in the order of the URLs; a fifth and a sixth URL are
    never requested. *)
Theorem attachment_cap content urls s w :
  let r := post_to_bluesky env content (Some urls) s w in
  let a := attach env (firstn 4 urls) w in
  gets (trace r) = firstn 4 urls /\
  trace r = a.2 ++ [Post (post_text content a.1.1) (post_embed a.1.1)] /\
  sublist (List.map fst a.1.1) (firstn 4 urls) /\
  (length a.1.1 <= 4)%nat /\
  (Forall (valid env) urls -> List.map fst a.1.1 = firstn 4 urls) /\
  (forall items : list (pystr * list Byte.byte * Blob),
     List.map (fun item => item.1.1) items = firstn 4 urls ->
     Forall (fun item => served env item.1.1 item.1.2 item.2) items ->
     trace r =
       media_calls items ++
       [Post (post_text content (attachments items))
          (post_embed (attachments items))] /\
     post_embed (attachments items) =
       match items with
       | [] => None
       | _ => Some (List.map (fun item => generic_image item.2) items)
       end).
Proof.
  cbv zeta. rewrite post_to_bluesky_run. cbv zeta. cbn [trace candidates].
  pose proof (attach_media env (firstn 4 urls) w) as Hm.
  apply media_no_marks in Hm. destruct Hm as (_ & Hp & _).
  rewrite gets_app, attach_gets. simpl. rewrite !app_nil_r.
  split; [reflexivity|]. split; [reflexivity|].
  split; [apply attach_sublist|]. split; [|split].
  - pose proof (attach_length (firstn 4 urls) w) as H.
    rewrite length_take in H. lia.
  - intros Hv. apply attach_valid. apply Forall_take. exact Hv.
  - intros items Hurls Hserved.
    destruct (attach_served items w Hserved) as [Hatt Hcalls].
    rewrite Hurls in Hatt, Hcalls. rewrite Hatt, Hcalls.
    split; [reflexivity|].
    unfold post_embed, attachments. destruct items as [|item rest];
      [reflexivity|].
    rewrite !map_map. reflexivity.
Qed.

End Media.

Lemma download_checks_in_order_witness :
  result (download_image (sample_services no_profile no_json html_page true)
            (str "https://ex.com/a.png") 10 (initial 0) 0%nat) = Some None
  /\
  result (download_image (sample_services no_profile no_json oversized_png_page true)
            (str "https://ex.com/a.png") 10 (initial 0) 0%nat) = Some None.
Proof.
  split.
  - refine (proj2 (proj1 (proj2 (proj2
      (download_checks_in_order
         (sample_services no_profile no_json html_page true)
         (str "https://ex.com/a.png") (initial 0) 0%nat
         {| status_code := 200;
            content_type_header := Some (str "text/html");
            body := [Byte.x3c; Byte.x68; Byte.x31; Byte.x3e] |}
         eq_refl))) eq_refl eq_refl)).
  - refine (proj2 (proj1 (proj2 (proj2 (proj2
      (download_checks_in_order
         (sample_services no_profile no_json oversized_png_page true)
         (str "https://ex.com/a.png") (initial 0) 0%nat
         {| status_code := 200;
            content_type_header := Some (str "image/png");
            body := oversized |}
         eq_refl)))) eq_refl eq_refl _)).
    cbn [body]. unfold oversized. rewrite repeat_length, Z2Nat.id by lia.
    reflexivity.
Defined.

Lemma sample_png_served profile decode posting url :
  served (sample_services profile decode png_page posting) url
    [Byte.x89; Byte.x50; Byte.x4e; Byte.x47] 4%nat.
Proof. intros w. split; [eexists; reflexivity | reflexivity]. Qed.

Lemma attachment_cap_witness :
  trace (post_to_bluesky quiet_services (str "six pictures") (Some six_urls)
           (initial 0) 0%nat) =
  [Get (str "https://ex.com/1.png"); Upload [Byte.x89; Byte.x50; Byte.x4e; Byte.x47];
   Get (str "https://ex.com/2.png"); Upload [Byte.x89; Byte.x50; Byte.x4e; Byte.x47];
   Get (str "https://ex.com/3.png"); Upload [Byte.x89; Byte.x50; Byte.x4e; Byte.x47];
   Get (str "https://ex.com/4.png"); Upload [Byte.x89; Byte.x50; Byte.x4e; Byte.x47];
   Post (str "six pictures")
     (Some (repeat {| alt := str "Image from Nostr"; image := 4%nat |} 4))].
Proof.
  destruct (attachment_cap quiet_services (str "six pictures") six_urls
              (initial 0) 0%nat) as (_ & _ & _ & _ & _ & Hitems).
  destruct (Hitems
              (List.map (fun url => (url, [Byte.x89; Byte.x50; Byte.x4e; Byte.x47],
                                     4%nat))
                 (firstn 4 six_urls))) as [Htrace _].
  - reflexivity.
  - repeat (apply Forall_cons; split; [apply sample_png_served|]). constructor.
  - rewrite Htrace. reflexivity.
Defined.

(** ** The matcher against a declarative reading of the patterns *)

Section Matcher.

Lemma strip_prefix_Some p : forall s rest,
  strip_prefix p s = Some rest <-> s = p ++ rest.
Proof.
  induction p as [|a p IH]; intros s rest; simpl.
  - split; [intros [= ->]; reflexivity | intros ->; reflexivity].
  - destruct s as [|b s]; [split; discriminate|].
    destruct (N.eqb_spec a b) as [->|Hne].
    + rewrite IH. split; [intros ->; reflexivity | intros [= ->]; reflexivity].
    + split; [discriminate | intros [= H _]; congruence].
Qed.

Lemma strip_prefix_app p rest : strip_prefix p (p ++ rest) = Some rest.
Proof. apply strip_prefix_Some. reflexivity. Qed.

Context {A : Type}.

Lemma many_sound cls : forall s lo (k : pystr -> option A) x,
  many cls lo s k = Some x ->
  exists m rest, s = m ++ rest /\ forallb cls m = true /\
    (lo <= length m)%nat /\ k rest = Some x.
Proof.
  induction s as [|c s IH]; intros lo k x H; simpl in H.
  - destruct lo; [|discriminate]. exists [], []. repeat split; [lia | exact H].
  - assert (Hstop : match lo with O => k (c :: s) | S _ => None end = Some x ->
              exists m rest, c :: s = m ++ rest /\ forallb cls m = true /\
                (lo <= length m)%nat /\ k rest = Some x).
    { destruct lo; [|discriminate]. intros Hk.
      exists [], (c :: s). repeat split; [lia | exact Hk]. }
    destruct (cls c) eqn:Hc; [|exact (Hstop H)].
    destruct (many cls (pred lo) s k) as [y|] eqn:Hrec; [|exact (Hstop H)].
    injection H as ->.
    destruct (IH _ _ _ Hrec) as (m & rest & -> & Hall & Hlen & Hk).
    exists (c :: m), rest. simpl. rewrite Hc, Hall.
    repeat split; [lia | exact Hk].
Qed.

Lemma many_complete cls : forall m lo rest (k : pystr -> option A),
  forallb cls m = true -> (lo <= length m)%nat -> k rest <> None ->
  many cls lo (m ++ rest) k <> None.
Proof.
  induction m as [|c m IH]; intros lo rest k Hall Hlen Hk.
  - simpl in Hlen. assert (lo = 0%nat) as -> by lia. simpl.
    destruct rest as [|c rest]; simpl; [exact Hk|].
    destruct (cls c); [|exact Hk].
    destruct (many cls 0 rest k); [discriminate | exact Hk].
  - simpl in Hall. apply andb_prop in Hall. destruct Hall as [Hc Hall].
    simpl. rewrite Hc.
    specialize (IH (pred lo) rest k Hall).
    destruct (many cls (pred lo) (m ++ rest) k); [discriminate|].
    exfalso. apply IH; [simpl in Hlen; lia | exact Hk | reflexivity].
Qed.

Lemma rmatch_sound r : forall s cap (k : pystr -> option pystr -> option A) x,
  rmatch r s cap k = Some x ->
  exists m rest cap', s = m ++ rest /\ matches r m rest /\ k rest cap' = Some x.
Proof.
  induction r as [l|r IH|cls lo|r1 IH1 r2 IH2|r1 IH1 r2 IH2| |r IH];
    intros s cap k x H; simpl in H.
  - destruct (strip_prefix l s) as [rest|] eqn:Hp; [|discriminate].
    apply strip_prefix_Some in Hp. exists l, rest, cap.
    repeat split; [exact Hp | constructor | exact H].
  - destruct (rmatch r s cap k) as [y|] eqn:Hr.
    + injection H as ->. destruct (IH _ _ _ _ Hr) as (m & rest & cap' & -> & Hm & Hk).
      exists m, rest, cap'. repeat split; [constructor; exact Hm | exact Hk].
    + exists [], s, cap. repeat split; [apply matches_opt_none | exact H].
  - destruct (many_sound _ _ _ _ _ H) as (m & rest & -> & Hall & Hlen & Hk).
    exists m, rest, cap. repeat split; [constructor; assumption | exact Hk].
  - destruct (IH1 _ _ _ _ H) as (m1 & rest1 & cap1 & -> & Hm1 & H2).
    destruct (IH2 _ _ _ _ H2) as (m2 & rest & cap2 & -> & Hm2 & Hk).
    exists (m1 ++ m2), rest, cap2. rewrite <- app_assoc.
    repeat split; [constructor; assumption | exact Hk].
  - destruct (rmatch r1 s cap k) as [y|] eqn:Hr.
    + injection H as ->. destruct (IH1 _ _ _ _ Hr) as (m & rest & cap' & -> & Hm & Hk).
      exists m, rest, cap'. repeat split; [apply matches_alt_l; exact Hm | exact Hk].
    + destruct (IH2 _ _ _ _ H) as (m & rest & cap' & -> & Hm & Hk).
      exists m, rest, cap'. repeat split; [apply matches_alt_r; exact Hm | exact Hk].
  - destruct (at_end s) eqn:He; [|discriminate].
    exists [], s, cap. repeat split; [constructor; exact He | exact H].
  - destruct (IH _ _ _ _ H) as (m & rest & cap' & -> & Hm & Hk).
    exists m, rest, (Some (firstn (length (m ++ rest) - length rest) (m ++ rest))).
    repeat split; [constructor; exact Hm | exact Hk].
Qed.

Lemma rmatch_complete r m rest :
  matches r m rest ->
  forall (k : pystr -> option pystr -> option A) cap,
    (forall cap', k rest cap' <> None) -> rmatch r (m ++ rest) cap k <> None.
Proof.
  induction 1 as [l rest|r m rest Hm IH|r rest|cls lo m rest Hall Hlen
                 |r1 r2 m1 m2 rest H1 IH1 H2 IH2|r1 r2 m rest Hm IH
                 |r1 r2 m rest Hm IH|rest He|r m rest Hm IH];
    intros k cap Hk; simpl.
  - rewrite strip_prefix_app. apply Hk.
  - specialize (IH k cap Hk). destruct (rmatch r (m ++ rest) cap k);
      [discriminate | contradiction].
  - destruct (rmatch r rest cap k); [discriminate | apply Hk].
  - apply many_complete; [assumption | assumption | apply Hk].
  - rewrite <- app_assoc. apply IH1. intros cap'. apply IH2. exact Hk.
  - specialize (IH k cap Hk). destruct (rmatch r1 (m ++ rest) cap k);
      [discriminate | contradiction].
  - destruct (rmatch r1 (m ++ rest) cap k); [discriminate|]. apply IH. exact Hk.
  - rewrite He. apply Hk.
  - apply IH. intros cap'. apply Hk.
Qed.

End Matcher.

Section Scanning.

Lemma length_app_sub {A} (m rest : list A) :
  (length (m ++ rest) - length rest)%nat = length m.
Proof. rewrite length_app. lia. Qed.

Lemma firstn_app_exact {A} (m rest : list A) : firstn (length m) (m ++ rest) = m.
Proof. rewrite take_app_length. reflexivity. Qed.

Lemma skipn_app_exact {A} (m rest : list A) : skipn (length m) (m ++ rest) = rest.
Proof. rewrite drop_app_length. reflexivity. Qed.

(** A successful anchored match splits the subject. *)
Lemma match_here_sound r s rest cap :
  match_here r s = Some (rest, cap) ->
  exists m, s = m ++ rest /\ matches r m rest.
Proof.
  unfold match_here. intros H.
  destruct (rmatch_sound _ _ _ _ _ H) as (m & rest' & cap' & -> & Hm & [= -> _]).
  exists m. split; [reflexivity | exact Hm].
Qed.

Lemma match_here_complete r m rest :
  matches r m rest -> match_here r (m ++ rest) <> None.
Proof.
  intros Hm. unfold match_here. apply rmatch_complete; [exact Hm|].
  intros cap'. discriminate.
Qed.

(** Every match found lies in the subject, where the pattern matches. *)
Lemma scan_sound r : forall s skip m cap,
  In (m, cap) (scan r s skip) ->
  exists pre post, s = pre ++ m ++ post /\ matches r m post.
Proof.
  induction s as [|c s IH]; intros skip m cap Hin.
  - destruct skip; simpl in Hin; [|contradiction].
    destruct (match_here r []) as [[rest cap0]|] eqn:Hm; [|contradiction].
    destruct Hin as [[= <- <-]|[]].
    destruct (match_here_sound _ _ _ _ Hm) as (m0 & Heq & Hmatch).
    symmetry in Heq. apply app_eq_nil in Heq. destruct Heq as [-> ->].
    exists [], []. split; [reflexivity | exact Hmatch].
  - destruct skip as [|n]; simpl in Hin.
    + destruct (match_here r (c :: s)) as [[rest cap0]|] eqn:Hm.
      * destruct (match_here_sound _ _ _ _ Hm) as (m0 & Heq & Hmatch).
        destruct Hin as [[= <- <-]|Hin].
        -- assert (Hfirst : firstn (length (c :: s) - length rest) (c :: s) = m0).
           { rewrite Heq, length_app_sub. apply firstn_app_exact. }
           simpl in Hfirst. exists [], rest. cbn [app]. rewrite Hfirst.
           split; [exact Heq | exact Hmatch].
        -- destruct (IH _ _ _ Hin) as (pre & post & -> & Hpost).
           exists (c :: pre), post. split; [reflexivity | exact Hpost].
      * destruct (IH _ _ _ Hin) as (pre & post & -> & Hpost).
        exists (c :: pre), post. split; [reflexivity | exact Hpost].
    + destruct (IH _ _ _ Hin) as (pre & post & -> & Hpost).
      exists (c :: pre), post. split; [reflexivity | exact Hpost].
Qed.

(** Where the pattern matches somewhere, a match is found. *)
Lemma scan_complete r : forall pre m post,
  matches r m post -> scan r (pre ++ m ++ post) 0 <> [].
Proof.
  induction pre as [|c pre IH]; intros m post Hm.
  - simpl app. pose proof (match_here_complete _ _ _ Hm) as Hsome.
    destruct (m ++ post) as [|c s]; simpl;
      destruct (match_here r _) as [[rest cap]|]; try discriminate;
      contradiction.
  - simpl. destruct (match_here r (c :: pre ++ m ++ post)) as [[rest cap]|];
      [discriminate | apply IH; exact Hm].
Qed.

End Scanning.

(** ** Image URLs *)

Section ImageUrls.

Ltac invert H := inversion H; subst; clear H.

Lemma matches_lit_inv l m rest : matches (Lit l) m rest -> m = l.
Proof. intros H. invert H. reflexivity. Qed.

Lemma matches_seq_inv r1 r2 m rest :
  matches (Seq r1 r2) m rest ->
  exists m1 m2, m = m1 ++ m2 /\ matches r1 m1 (m2 ++ rest) /\ matches r2 m2 rest.
Proof. intros H. invert H. eauto. Qed.

Lemma matches_opt_inv r m rest :
  matches (Opt r) m rest -> m = [] \/ matches r m rest.
Proof. intros H. invert H; auto. Qed.

Lemma matches_many_inv cls lo m rest :
  matches (Many cls lo) m rest -> forallb cls m = true /\ (lo <= length m)%nat.
Proof. intros H. invert H. auto. Qed.

Lemma matches_eol_inv m rest : matches Eol m rest -> m = [] /\ at_end rest = true.
Proof. intros H. invert H. auto. Qed.

Lemma matches_extension m rest :
  matches extension_alt m rest <-> In m image_extensions.
Proof.
  split.
  - unfold extension_alt. intros H.
    repeat match goal with
           | H : matches (Alt _ _) _ _ |- _ => invert H
           | H : matches (Lit _) _ _ |- _ => apply matches_lit_inv in H; subst
           end;
      simpl; tauto.
  - unfold image_extensions, extension_alt. simpl.
    intros H.
    repeat (destruct H as [<-|H];
            [solve [repeat first [apply matches_lit
                                 | apply matches_alt_l; apply matches_lit
                                 | apply matches_alt_r]]|]).
    contradiction.
Qed.

Lemma matches_image_pattern m rest :
  matches image_pattern m rest <-> image_url m.
Proof.
  split.
  - unfold image_pattern. intros H.
    apply matches_seq_inv in H. destruct H as (m1 & t1 & -> & H1 & H).
    apply matches_seq_inv in H. destruct H as (m2 & t2 & -> & H2 & H).
    apply matches_seq_inv in H. destruct H as (m3 & t3 & -> & H3 & H).
    apply matches_seq_inv in H. destruct H as (body & t4 & -> & H4 & H).
    apply matches_seq_inv in H. destruct H as (m5 & ext & -> & H5 & H).
    apply matches_lit_inv in H1, H3, H5. subst.
    apply matches_extension in H.
    apply matches_many_inv in H4. destruct H4 as [Hall Hlen].
    assert (Hbody : body <> []) by (intros ->; simpl in Hlen; lia).
    apply matches_opt_inv in H2. destruct H2 as [-> | H2].
    + exists (str "http://"), body, ext. repeat split; try assumption.
      left. reflexivity.
    + apply matches_lit_inv in H2. subst.
      exists (str "https://"), body, ext. repeat split; try assumption.
      right. reflexivity.
  - intros (scheme & body & ext & -> & Hscheme & Hbody & Hall & Hext).
    assert (Htail : matches
              (Seq (Many nonspace 1) (Seq (Lit (str ".")) extension_alt))
              (body ++ str "." ++ ext) rest).
    { apply matches_seq.
      - apply matches_many; [exact Hall|].
        destruct body; [contradiction | simpl; lia].
      - apply matches_seq; [apply matches_lit|].
        apply matches_extension. exact Hext. }
    unfold image_pattern.
    destruct Hscheme as [-> | ->].
    + change (str "http://" ++ body ++ str "." ++ ext)
        with (str "http" ++ [] ++ str "://" ++ body ++ str "." ++ ext).
      apply matches_seq; [apply matches_lit|].
      apply matches_seq; [apply matches_opt_none|].
      apply matches_seq; [apply matches_lit | exact Htail].
    + change (str "https://" ++ body ++ str "." ++ ext)
        with (str "http" ++ str "s" ++ str "://" ++ body ++ str "." ++ ext).
      apply matches_seq; [apply matches_lit|].
      apply matches_seq; [apply matches_opt_some; apply matches_lit|].
      apply matches_seq; [apply matches_lit | exact Htail].
Qed.

End ImageUrls.

(** ** [extract_image_urls] *)

Section Extraction.

(** Where the pattern matches nowhere, [re.sub] changes nothing. *)
Lemma re_sub_no_match r repl : forall s,
  (forall n, match_here r (skipn n s) = None) -> re_sub r repl s = s.
Proof.
  unfold re_sub. induction s as [|c s IH]; intros Hnone; simpl.
  - pose proof (Hnone 0%nat) as H0. simpl in H0. rewrite H0. reflexivity.
  - pose proof (Hnone 0%nat) as H0. simpl in H0. rewrite H0.
    f_equal. apply IH. intros n. exact (Hnone (S n)).
Qed.

(** [[.,;:!?)\]]+$] needs a subject that ends with punctuation, or with
    punctuation and a newline. *)
Lemma trailing_punct_no_match t c :
  punct c = false -> c <> 10%N ->
  forall n, match_here trailing_punct (skipn n (t ++ [c])) = None.
Proof.
  intros Hc Hnl n.
  destruct (match_here trailing_punct (skipn n (t ++ [c]))) as [[rest cap]|] eqn:Hm;
    [exfalso|reflexivity].
  apply match_here_sound in Hm. destruct Hm as (m & Heq & Hm).
  unfold trailing_punct in Hm.
  apply matches_seq_inv in Hm. destruct Hm as (m1 & m2 & -> & H1 & H2).
  apply matches_eol_inv in H2. destruct H2 as [-> Hend].
  apply matches_many_inv in H1. destruct H1 as [Hall Hlen].
  rewrite app_nil_r in Heq.
  destruct (Nat.le_gt_cases n (length t)) as [Hle|Hgt].
  - rewrite skipn_app in Heq.
    replace (n - length t)%nat with 0%nat in Heq by lia. simpl in Heq.
    destruct rest as [|d [|d' rest]]; simpl in Hend; try discriminate.
    + rewrite app_nil_r in Heq. subst m1.
      rewrite forallb_app in Hall. apply andb_prop in Hall.
      destruct Hall as [_ Hall]. simpl in Hall. rewrite Hc in Hall. discriminate.
    + apply N.eqb_eq in Hend. subst d.
      apply app_inj_tail in Heq. destruct Heq as [_ Heq]. contradiction.
  - rewrite skipn_all2 in Heq by (rewrite length_app; simpl; lia).
    symmetry in Heq. apply app_eq_nil in Heq. destruct Heq as [-> _].
    simpl in Hlen. lia.
Qed.

Lemma extension_last ext :
  In ext image_extensions ->
  exists e c, ext = e ++ [c] /\ punct c = false /\ c <> 10%N.
Proof.
  unfold image_extensions. simpl. intros H.
  repeat (destruct H as [<-|H];
          [match goal with |- exists e c, ?x = _ /\ _ =>
             exists (removelast x), (List.last x 0%N)
           end; repeat split; discriminate|]).
  contradiction.
Qed.

(** An image URL ends with a letter of its extension. *)
Lemma image_url_last u :
  image_url u -> exists t c, u = t ++ [c] /\ punct c = false /\ c <> 10%N.
Proof.
  intros (scheme & body & ext & -> & _ & _ & _ & Hext).
  destruct (extension_last ext Hext) as (e & c & -> & Hc & Hnl).
  exists (scheme ++ body ++ str "." ++ e), c.
  split; [|split; assumption].
  rewrite <- !app_assoc. reflexivity.
Qed.

Lemma image_url_clean u : image_url u -> re_sub trailing_punct [] u = u.
Proof.
  intros Hu. destruct (image_url_last u Hu) as (t & c & -> & Hc & Hnl).
  apply re_sub_no_match. apply trailing_punct_no_match; assumption.
Qed.

Lemma findall_image_pattern text :
  findall image_pattern text = List.map fst (scan image_pattern text 0).
Proof. reflexivity. Qed.

Lemma findall_image_url text u :
  In u (findall image_pattern text) ->
  image_url u /\ exists pre post, text = pre ++ u ++ post.
Proof.
  rewrite findall_image_pattern. intros Hin.
  apply in_map_iff in Hin. destruct Hin as ([m cap] & <- & Hin).
  apply scan_sound in Hin. destruct Hin as (pre & post & -> & Hm).
  apply matches_image_pattern in Hm. simpl. split; [exact Hm|].
  exists pre, post. reflexivity.
Qed.

(** The trimming of [extract_image_urls] never has anything to trim. *)
Lemma extract_image_urls_findall text :
  extract_image_urls text = findall image_pattern text.
Proof.
  unfold extract_image_urls. cbv zeta.
  rewrite <- (map_id (findall image_pattern text)) at 2.
  apply map_ext_in. intros u Hu.
  apply image_url_clean. apply (findall_image_url text u Hu).
Qed.


End Extraction.



(** ** Matching does not look past whitespace *)

Section Locality.

Variables (w : char) (t : pystr).
Hypothesis Hw : isspace w = true.

Lemma strip_prefix_local l : forall s,
  forallb nonspace l = true ->
  strip_prefix l (s ++ w :: t) =
  option_map (fun rest => rest ++ w :: t) (strip_prefix l s).
Proof.
  induction l as [|a l IH]; intros s Hl; [reflexivity|].
  simpl in Hl. apply andb_prop in Hl. destruct Hl as [Ha Hl].
  destruct s as [|b s]; simpl.
  - destruct (N.eqb_spec a w) as [->|_]; [|reflexivity].
    unfold nonspace in Ha. rewrite Hw in Ha. discriminate.
  - destruct (a =? b)%N; [apply IH; exact Hl | reflexivity].
Qed.

Lemma many_local {A} cls (k k' : pystr -> option A) :
  cls w = false ->
  (forall rest, k (rest ++ w :: t) = k' rest) ->
  forall s lo, many cls lo (s ++ w :: t) k = many cls lo s k'.
Proof.
  intros Hc Hk. induction s as [|c s IH]; intros lo; simpl.
  - rewrite Hc. destruct lo; [apply (Hk [])|reflexivity].
  - pose proof (Hk (c :: s)) as Hcs. simpl in Hcs.
    rewrite IH, Hcs. reflexivity.
Qed.

Lemma rmatch_local {A} r :
  spaceless r ->
  forall s cap (k k' : pystr -> option pystr -> option A),
    (forall rest cap', k (rest ++ w :: t) cap' = k' rest cap') ->
    rmatch r (s ++ w :: t) cap k = rmatch r s cap k'.
Proof.
  induction r as [l|r IH|cls lo|r1 IH1 r2 IH2|r1 IH1 r2 IH2| |r IH];
    simpl; intros Hr s cap k k' Hk.
  - rewrite strip_prefix_local by exact Hr.
    destruct (strip_prefix l s); simpl; [apply Hk | reflexivity].
  - rewrite (IH Hr s cap k k' Hk), (Hk s). reflexivity.
  - apply many_local; [apply Hr; exact Hw|]. intros rest. apply Hk.
  - destruct Hr as [Hr1 Hr2]. apply IH1; [exact Hr1|].
    intros rest cap'. apply IH2; [exact Hr2 | exact Hk].
  - destruct Hr as [Hr1 Hr2].
    rewrite (IH1 Hr1 s cap k k' Hk), (IH2 Hr2 s cap k k' Hk). reflexivity.
  - contradiction.
  - contradiction.
Qed.

End Locality.

Section Continuations.

Context {A : Type}.

Lemma many_ext cls (k k' : pystr -> option A) :
  (forall rest, k rest = k' rest) ->
  forall s lo, many cls lo s k = many cls lo s k'.
Proof.
  intros Hk. induction s as [|c s IH]; intros lo; simpl.
  - rewrite (Hk []). reflexivity.
  - rewrite IH, (Hk (c :: s)). reflexivity.
Qed.

Lemma rmatch_ext r : forall s cap (k k' : pystr -> option pystr -> option A),
  (forall rest cap', k rest cap' = k' rest cap') ->
  rmatch r s cap k = rmatch r s cap k'.
Proof.
  induction r as [l|r IH|cls lo|r1 IH1 r2 IH2|r1 IH1 r2 IH2| |r IH];
    simpl; intros s cap k k' Hk.
  - destruct (strip_prefix l s); [apply Hk | reflexivity].
  - rewrite (IH s cap k k' Hk), (Hk s). reflexivity.
  - apply many_ext. intros rest. apply Hk.
  - apply IH1. intros rest cap'. apply IH2. exact Hk.
  - rewrite (IH1 s cap k k' Hk), (IH2 s cap k k' Hk). reflexivity.
  - rewrite (Hk s). reflexivity.
  - apply IH. intros rest cap'. apply Hk.
Qed.

End Continuations.

Section Mapping.

Context {A B : Type} (f : A -> B).

Lemma many_map cls (k : pystr -> option A) : forall s lo,
  many cls lo s (fun rest => option_map f (k rest)) =
  option_map f (many cls lo s k).
Proof.
  induction s as [|c s IH]; intros lo; simpl.
  - destruct lo; reflexivity.
  - rewrite IH. destruct (cls c); [|destruct lo; reflexivity].
    destruct (many cls (pred lo) s k); [reflexivity|].
    destruct lo; reflexivity.
Qed.

Lemma rmatch_map r : forall s cap (k : pystr -> option pystr -> option A),
  rmatch r s cap (fun rest cap' => option_map f (k rest cap')) =
  option_map f (rmatch r s cap k).
Proof.
  induction r as [l|r IH|cls lo|r1 IH1 r2 IH2|r1 IH1 r2 IH2| |r IH];
    simpl; intros s cap k.
  - destruct (strip_prefix l s); reflexivity.
  - rewrite IH. destruct (rmatch r s cap k); reflexivity.
  - apply many_map.
  - rewrite <- IH1. apply rmatch_ext. intros rest cap'. apply IH2.
  - rewrite IH1, IH2. destruct (rmatch r1 s cap k); reflexivity.
  - destruct (at_end s); reflexivity.
  - apply (IH s cap (fun rest _ => k rest (Some (firstn (length s - length rest) s)))).
Qed.

End Mapping.

(** ** Texts cut at a whitespace character *)

Section Repeats.

Lemma match_here_local r s w t :
  spaceless r -> isspace w = true ->
  match_here r (s ++ w :: t) =
  option_map (fun p => (fst p ++ w :: t, snd p)) (match_here r s).
Proof.
  intros Hr Hw. unfold match_here.
  rewrite <- (rmatch_map (fun p : pystr * option pystr => (fst p ++ w :: t, snd p))).
  apply rmatch_local; [exact Hw | exact Hr | reflexivity].
Qed.

(** The matches of a text cut at a whitespace character are those of the
    two parts. *)
Lemma scan_local r w t :
  spaceless r -> isspace w = true -> match_here r [] = None ->
  forall s skip, (skip <= length s)%nat ->
    scan r (s ++ w :: t) skip = scan r s skip ++ scan r t 0.
Proof.
  intros Hr Hw Hnil. induction s as [|c s IH]; intros skip Hle.
  - simpl in Hle. assert (skip = 0%nat) as -> by lia.
    pose proof (match_here_local r [] w t Hr Hw) as Hm.
    rewrite Hnil in Hm. simpl in Hm. simpl. rewrite Hm, Hnil. reflexivity.
  - destruct skip as [|n]; simpl in *.
    + pose proof (match_here_local r (c :: s) w t Hr Hw) as Hm.
      simpl in Hm. rewrite Hm.
      destruct (match_here r (c :: s)) as [[rest cap]|]; simpl.
      * rewrite !length_app. simpl length.
        replace (S (length s + S (length t)) - (length rest + S (length t)))%nat
          with (S (length s) - length rest)%nat by lia.
        rewrite IH by lia. f_equal. f_equal.
        destruct (S (length s) - length rest)%nat as [|n] eqn:Hn; [reflexivity|].
        simpl. f_equal. apply take_app_le. lia.
      * apply IH. lia.
    + apply IH. lia.
Qed.

Lemma spaceless_image_pattern : spaceless image_pattern.
Proof.
  unfold image_pattern, extension_alt. simpl.
  repeat split; try reflexivity.
  intros c Hc. unfold nonspace. rewrite Hc. reflexivity.
Qed.

Lemma extract_image_urls_space t1 w t2 :
  isspace w = true ->
  extract_image_urls (t1 ++ w :: t2) =
  extract_image_urls t1 ++ extract_image_urls t2.
Proof.
  intros Hw. rewrite !extract_image_urls_findall, !findall_image_pattern.
  rewrite scan_local; [apply map_app|apply spaceless_image_pattern|exact Hw
                      |reflexivity|lia].
Qed.

Lemma firstn_repeat_min {A} (x : A) n : forall k,
  firstn n (repeat x k) = repeat x (Nat.min k n).
Proof.
  induction n as [|n IH]; intros k.
  - rewrite Nat.min_0_r. reflexivity.
  - destruct k as [|k]; [reflexivity|]. simpl. f_equal. apply IH.
Qed.

End Repeats.

(** ** [re.sub] against the direct functions *)

Section Substitution.

Lemma sub_from_skip r repl : forall s n,
  (n <= length s)%nat -> sub_from r repl s n = sub_from r repl (skipn n s) 0.
Proof.
  induction s as [|c s IH]; intros n Hn.
  - simpl in Hn. assert (n = 0%nat) as -> by lia. reflexivity.
  - destruct n as [|n]; [reflexivity|]. simpl in Hn.
    change (sub_from r repl (c :: s) (S n)) with (sub_from r repl s n).
    rewrite IH by lia. reflexivity.
Qed.

(** [re.sub], one position at a time. *)
Lemma re_sub_cons r repl c s :
  re_sub r repl (c :: s) =
  match match_here r (c :: s) with
  | Some (rest, _) =>
      repl ++ (if (length rest <? length (c :: s))%nat then re_sub r repl rest
               else c :: re_sub r repl s)
  | None => c :: re_sub r repl s
  end.
Proof.
  unfold re_sub. cbn [sub_from].
  destruct (match_here r (c :: s)) as [[rest cap]|] eqn:Hm; [|reflexivity].
  apply match_here_sound in Hm. destruct Hm as (m & Heq & _).
  f_equal. rewrite Heq, length_app_sub.
  destruct m as [|c' m]; simpl in Heq.
  - subst rest. simpl length. rewrite Nat.ltb_irrefl. reflexivity.
  - injection Heq as -> ->. simpl length. rewrite length_app.
    replace (length rest <? S (length m + length rest))%nat with true
      by (symmetry; apply Nat.ltb_lt; lia).
    rewrite sub_from_skip by (rewrite length_app; lia).
    rewrite skipn_app_exact. reflexivity.
Qed.

Lemma many_greedy {A} cls (g : pystr -> A) : forall s lo,
  many cls lo s (fun rest => Some (g rest)) =
  if (lo <=? run cls s)%nat then Some (g (drop_run cls s)) else None.
Proof.
  induction s as [|c s IH]; intros lo; simpl.
  - destruct lo; reflexivity.
  - destruct (cls c).
    + rewrite IH. destruct lo as [|lo]; simpl.
      * reflexivity.
      * destruct (lo <=? run cls s)%nat; reflexivity.
    + destruct lo; reflexivity.
Qed.

Lemma match_here_many cls lo s :
  match_here (Many cls lo) s =
  if (lo <=? run cls s)%nat then Some (drop_run cls s, None) else None.
Proof. unfold match_here. simpl. apply many_greedy. Qed.

Lemma match_here_url url s :
  match_here (url_pattern url) s =
  match strip_prefix url s with
  | Some rest => Some (drop_run punct rest, None)
  | None => None
  end.
Proof.
  unfold match_here, url_pattern. simpl.
  destruct (strip_prefix url s) as [rest|]; [|reflexivity].
  rewrite (many_greedy punct (fun rest => (rest, None))). reflexivity.
Qed.

Lemma run_drop_run cls s : (run cls s + length (drop_run cls s))%nat = length s.
Proof.
  induction s as [|c s IH]; [reflexivity|]. simpl.
  destruct (cls c); simpl; lia.
Qed.

End Substitution.

Section Refinement.

Lemma sub_from_url url : forall text skip,
  sub_from (url_pattern url) [] text skip = remove_url_from url text skip.
Proof.
  induction text as [|c text IH]; intros skip.
  - destruct skip; simpl; [|reflexivity].
    destruct (match_here (url_pattern url) []) as [[rest cap]|]; reflexivity.
  - destruct skip as [|n]; [|apply IH].
    cbn [sub_from remove_url_from]. rewrite match_here_url.
    destruct (strip_prefix url (c :: text)) as [rest|] eqn:Hp;
      [|simpl; f_equal; apply IH].
    apply strip_prefix_Some in Hp. cbn [app].
    assert (Hlen : (length (c :: text) - length (drop_run punct rest))%nat =
                   (length url + run punct rest)%nat).
    { rewrite Hp, length_app.
      pose proof (run_drop_run punct rest). lia. }
    rewrite Hlen.
    destruct (length url + run punct rest)%nat; [f_equal|]; apply IH.
Qed.

Lemma re_sub_url url text : re_sub (url_pattern url) [] text = remove_url url text.
Proof. apply sub_from_url. Qed.

Lemma is_space_eq c : is_space c = true -> c = 32%N.
Proof. apply N.eqb_eq. Qed.

Lemma is_newline_eq c : is_newline c = true -> c = 10%N.
Proof. apply N.eqb_eq. Qed.

Lemma collapse_spaces_cons c s :
  collapse_spaces (c :: s) =
  if is_space c then
    match s with
    | d :: _ => if is_space d then collapse_spaces s else c :: collapse_spaces s
    | [] => [c]
    end
  else c :: collapse_spaces s.
Proof. reflexivity. Qed.

Lemma collapse_newlines_cons c s :
  collapse_newlines (c :: s) =
  if is_newline c then
    match s with
    | d :: e :: _ =>
        if is_newline d && is_newline e then collapse_newlines s
        else c :: collapse_newlines s
    | _ => c :: collapse_newlines s
    end
  else c :: collapse_newlines s.
Proof. reflexivity. Qed.

(** A space and the spaces after it leave one space. *)
Lemma collapse_spaces_run c : forall s,
  is_space c = true ->
  collapse_spaces (c :: s) = 32%N :: collapse_spaces (drop_run is_space s).
Proof.
  intros s Hc. revert c Hc. induction s as [|d s IH]; intros c Hc.
  - rewrite collapse_spaces_cons, Hc. apply is_space_eq in Hc. subst c.
    reflexivity.
  - rewrite collapse_spaces_cons, Hc. cbn [drop_run].
    destruct (is_space d) eqn:Hd; [apply IH; exact Hd|].
    apply is_space_eq in Hc. subst c. reflexivity.
Qed.

Lemma re_sub_spaces s :
  re_sub (Many is_space 1) (str " ") s = collapse_spaces s.
Proof.
  remember (length s) as n eqn:Hn.
  revert s Hn. induction n as [n IH] using lt_wf_ind. intros s Hn.
  destruct s as [|c s]; [reflexivity|].
  rewrite re_sub_cons, match_here_many. cbn [run drop_run].
  destruct (is_space c) eqn:Hc.
  - cbn [Nat.leb].
    pose proof (run_drop_run is_space s) as Hlen.
    replace (length (drop_run is_space s) <? length (c :: s))%nat
      with true by (symmetry; apply Nat.ltb_lt; cbn [length]; lia).
    rewrite (IH (length (drop_run is_space s)));
      [|subst n; cbn [length]; lia|reflexivity].
    rewrite collapse_spaces_run by exact Hc. reflexivity.
  - cbn [Nat.leb]. rewrite (IH (length s)); [|subst n; cbn [length]; lia|reflexivity].
    rewrite collapse_spaces_cons, Hc. reflexivity.
Qed.

(** Two newlines or more at the head leave two newlines. *)
Lemma collapse_newlines_run : forall s,
  (2 <= run is_newline s)%nat ->
  collapse_newlines s = 10%N :: 10%N :: collapse_newlines (drop_run is_newline s).
Proof.
  induction s as [|c s IH]; intros Hrun; [cbn in Hrun; lia|].
  cbn [run] in Hrun. destruct (is_newline c) eqn:Hc; [|lia].
  destruct s as [|d s]; [cbn in Hrun; lia|].
  cbn [run] in Hrun. destruct (is_newline d) eqn:Hd; [|lia].
  rewrite collapse_newlines_cons, Hc. cbn [drop_run]. rewrite Hc.
  cbn [drop_run]. rewrite Hd.
  apply is_newline_eq in Hc. subst c.
  destruct s as [|e s].
  - rewrite collapse_newlines_cons, Hd. apply is_newline_eq in Hd. subst d.
    reflexivity.
  - cbn [andb drop_run]. destruct (is_newline e) eqn:He.
    + rewrite IH by (cbn [run]; rewrite Hd, He; lia).
      cbn [drop_run]. rewrite Hd, He. reflexivity.
    + rewrite (collapse_newlines_cons d), Hd.
      apply is_newline_eq in Hd. subst d.
      destruct s as [|f s]; [reflexivity|]. rewrite He. reflexivity.
Qed.

Lemma collapse_newlines_short c s :
  is_newline c = true -> (run is_newline s <= 1)%nat ->
  collapse_newlines (c :: s) = c :: collapse_newlines s.
Proof.
  intros Hc Hrun. rewrite collapse_newlines_cons, Hc.
  destruct s as [|d [|e s]]; try reflexivity.
  cbn [run] in Hrun.
  destruct (is_newline d); [|reflexivity].
  destruct (is_newline e); [lia | reflexivity].
Qed.

Lemma re_sub_newlines s :
  re_sub (Many is_newline 3) [10; 10]%N s = collapse_newlines s.
Proof.
  remember (length s) as n eqn:Hn.
  revert s Hn. induction n as [n IH] using lt_wf_ind. intros s Hn.
  destruct s as [|c s]; [reflexivity|].
  rewrite re_sub_cons, match_here_many. cbn [run drop_run].
  destruct (is_newline c) eqn:Hc.
  - destruct (Nat.leb_spec 3 (S (run is_newline s))) as [Hrun|Hrun].
    + pose proof (run_drop_run is_newline s) as Hlen.
      replace (length (drop_run is_newline s) <? length (c :: s))%nat
        with true by (symmetry; apply Nat.ltb_lt; cbn [length]; lia).
      rewrite (IH (length (drop_run is_newline s)));
        [|subst n; cbn [length]; lia|reflexivity].
      rewrite (collapse_newlines_run (c :: s)) by (cbn [run]; rewrite Hc; lia).
      cbn [drop_run]. rewrite Hc. reflexivity.
    + rewrite (IH (length s)); [|subst n; cbn [length]; lia|reflexivity].
      rewrite collapse_newlines_short by (assumption || lia). reflexivity.
  - cbn [Nat.leb]. rewrite (IH (length s)); [|subst n; cbn [length]; lia|reflexivity].
    rewrite collapse_newlines_cons, Hc. reflexivity.
Qed.

(** [remove_image_urls] does what the specification says of it. *)
Lemma remove_image_urls_post_body text urls :
  remove_image_urls text urls =
  strip (collapse_newlines (collapse_spaces
    (fold_left (fun t url => remove_url url t) urls text))).
Proof.
  unfold remove_image_urls. cbv zeta.
  rewrite re_sub_newlines, re_sub_spaces. do 3 f_equal.
  revert text. induction urls as [|u urls IH]; intros text; [reflexivity|].
  simpl. rewrite re_sub_url. apply IH.
Qed.

End Refinement.

(** ** The body of the published post *)

Section Body.

Context {World Blob : Type}.
Variable env : services World Blob.

Lemma post_text_post_body content (attached : list (pystr * Blob)) :
  post_text content attached = post_body content (List.map fst attached).
Proof.
  destruct attached as [|a attached]; [reflexivity|].
  unfold post_text, post_body. cbn [List.map].
  apply remove_image_urls_post_body.
Qed.

End Body.

(** The example of the specification: the URL and the exclamation mark
    go, and so does the space they leave at the end. *)
Example published_body_example :
  posts (trace (post_to_bluesky quiet_services
                  (str "look at https://ex.com/a.png!")
                  (Some (extract_image_urls (str "look at https://ex.com/a.png!")))
                  (initial 0) 0%nat)) =
  [(str "look at", Some [{| alt := str "Image from Nostr"; image := 4%nat |}])].
Proof. vm_compute. reflexivity. Qed.

(** ** Mention resolution *)

Section Mentions.

Context {World Blob : Type}.
Variable env : services World Blob.

Lemma fetch_profile_metadata_run npub s w :
  fetch_profile_metadata env npub s w =
  Reply
    (Some match profile_of env npub w with
          | Some fields =>
              if truthy (chosen_name fields) then
                Some [(str "display_name", chosen_name fields);
                      (str "name", dict_get fields (str "name") (JStr []))]
              else None
          | None => None
          end)
    s (world_after env npub w) (List.map Query (lookup_queries env npub)).
Proof.
  unfold fetch_profile_metadata, profile_of, world_after, lookup_queries.
  destruct (PublicKey_parse env npub) as [pubkey|]; [|reflexivity].
  unfold bind, call.
  destruct (get_events_of env pubkey w) as [[[|ev evs]|] w1]; simpl;
    try reflexivity.
  destruct (json_loads env ev) as [[| | | | |fields]|]; simpl; try reflexivity.
  fold (chosen_name fields).
  destruct (truthy (chosen_name fields)); reflexivity.
Qed.

Lemma replace_mention_run text npub s w :
  replace_mention env text npub s w =
  Reply (option_map (replace text (str "nostr:" ++ npub)) (replacement env npub w))
    s (world_after env npub w) (List.map Query (lookup_queries env npub)).
Proof.
  unfold replace_mention. rewrite bind_run, fetch_profile_metadata_run.
  cbn [result self world trace]. unfold replacement.
  destruct (profile_of env npub w) as [fields|]; [|simpl; rewrite app_nil_r; reflexivity].
  destruct (truthy (chosen_name fields)) eqn:Ht;
    [|simpl; rewrite app_nil_r; reflexivity].
  unfold has_display_name.
  change (dict_get [(str "display_name", chosen_name fields);
                    (str "name", dict_get fields (str "name") (JStr []))]
            (str "display_name") JNull) with (chosen_name fields).
  rewrite Ht.
  destruct (chosen_name fields); simpl; rewrite app_nil_r; reflexivity.
Qed.

Lemma for_each_replace_mention tokens : forall text s w,
  let r := for_each (replace_mention env) tokens text s w in
  result r = resolve_all env tokens text w /\
  self r = s /\
  (result r <> None ->
   trace r = List.map Query (flat_map (lookup_queries env) tokens)).
Proof.
  induction tokens as [|npub rest IH]; intros text s w; cbv zeta.
  - simpl. repeat split.
  - change (for_each (replace_mention env) (npub :: rest) text s w)
      with (bind (replace_mention env text npub)
              (fun text' => for_each (replace_mention env) rest text') s w).
    rewrite bind_run, replace_mention_run. cbn [result self world trace].
    cbn [resolve_all flat_map].
    destruct (replacement env npub w) as [name|]; cbn [option_map].
    + specialize (IH (replace text (str "nostr:" ++ npub) name) s
                    (world_after env npub w)).
      cbv zeta in IH. destruct IH as (Hres & Hself & Htrace).
      cbn [result self trace]. split; [exact Hres|]. split; [exact Hself|].
      intros Hok. rewrite map_app, Htrace by exact Hok. reflexivity.
    + cbn [result self trace]. split; [reflexivity|]. split; [reflexivity|].
      intros Hok. contradiction.
Qed.


Lemma resolve_all_app before : forall after text w,
  resolve_all env (before ++ after) text w =
  match resolve_all env before text w with
  | Some text' => resolve_all env after text' (world_after_all env before w)
  | None => None
  end.
Proof.
  induction before as [|npub rest IH]; intros after text w; [reflexivity|].
  cbn [app resolve_all]. unfold world_after_all. cbn [fold_left].
  destruct (replacement env npub w) as [name|]; [apply IH | reflexivity].
Qed.

(** With a set that holds no element twice and no element of its own, the
    method is its loop over the tokens. *)
Lemma replace_npub_mentions_run content s w :
  set_iter_lawful env ->
  result (replace_npub_mentions env content s w) =
  resolve_all env (set_iter env (extract_npub_mentions content)) content w.
Proof.
  intros Hlaw.
  destruct (Hlaw (extract_npub_mentions content)) as [_ Hin].
  unfold replace_npub_mentions.
  destruct (extract_npub_mentions content) as [|t ts] eqn:He.
  - destruct (set_iter env []) as [|x l] eqn:Hs; [reflexivity|].
    exfalso. apply (proj1 (Hin x)). left. reflexivity.
  - apply (for_each_replace_mention (set_iter env (t :: ts)) content s w).
Qed.

(** A list without repetition whose elements are all [t]. *)
Lemma NoDup_all_equal (t : pystr) before after :
  List.NoDup (before ++ t :: after) ->
  (forall x, In x (before ++ t :: after) -> x = t) ->
  before = [] /\ after = [].
Proof.
  intros Hnd Hall. destruct before as [|b before].
  - split; [reflexivity|]. destruct after as [|a after]; [reflexivity|].
    exfalso. simpl in Hnd. apply List.NoDup_cons_iff in Hnd.
    destruct Hnd as [Hnot _]. apply Hnot.
    rewrite <- (Hall a); [left; reflexivity|]. right. left. reflexivity.
  - exfalso. simpl in Hnd. apply List.NoDup_cons_iff in Hnd.
    destruct Hnd as [Hnot _]. apply Hnot.
    rewrite (Hall b) by (left; reflexivity).
    apply in_or_app. right. left. reflexivity.
Qed.

(** C10, as amended. [replace_npub_mentions] visits the tokens of the
    text one after the other. At the turn of a token whose metadata
    record has no [display_name], or an empty one, and a non-empty [name],
    every occurrence of the prefixed token in the text as the turns
    before left it is replaced by the [name]; a non-empty [display_name]
    comes first; the bare token is used for a record only when both are
    absent or empty. When the text mentions one token only, however
    often, the text in question is the text given, and the result is that
    text with the occurrences replaced. *)
Theorem name_is_fallback_display_name content s w before t after text_t fields :
  set_iter_lawful env ->
  set_iter env (extract_npub_mentions content) = before ++ t :: after ->
  resolve_all env before content w = Some text_t ->
  let w_t := world_after_all env before w in
  profile_of env t w_t = Some fields ->
  let display_name := dict_get fields (str "display_name") JNull in
  let name := dict_get fields (str "name") JNull in
  let r := replace_npub_mentions env content s w in
  let turn x :=
    resolve_all env after (replace text_t (str "nostr:" ++ t) x)
      (world_after env t w_t) in
  (forall n, truthy display_name = false -> name = JStr n -> n <> [] ->
     result r = turn n) /\
  (forall d, display_name = JStr d -> d <> [] -> result r = turn d) /\
  (truthy display_name = false -> truthy name = false -> result r = turn t) /\
  (replacement env t w_t = Some t ->
     truthy display_name = false /\ truthy name = false \/
     chosen_name fields = JStr t) /\
  ((forall x, In x (extract_npub_mentions content) -> x = t) ->
   before = [] /\ after = [] /\ text_t = content /\
   forall x, turn x = Some (replace content (str "nostr:" ++ t) x)).
Proof.
  intros Hlaw Htokens Hbefore. cbv zeta. intros Hprofile.
  rewrite (replace_npub_mentions_run content s w Hlaw), Htokens.
  rewrite resolve_all_app, Hbefore. cbn [resolve_all].
  unfold replacement. rewrite Hprofile. unfold chosen_name, py_or.
  split; [|split; [|split; [|split]]].
  - intros n Hd -> Hn. rewrite Hd. destruct n; [contradiction|reflexivity].
  - intros d -> Hd. destruct d; [contradiction|reflexivity].
  - intros Hd Hn. rewrite Hd, Hn. reflexivity.
  - destruct (truthy (dict_get fields (str "display_name") JNull)) eqn:Hd.
    + rewrite Hd.
      destruct (dict_get fields (str "display_name") JNull);
        try discriminate. intros [= ->]. right. reflexivity.
    + destruct (truthy (dict_get fields (str "name") JNull)) eqn:Hn.
      * rewrite Hn.
        destruct (dict_get fields (str "name") JNull);
          try discriminate. intros [= ->]. right. reflexivity.
      * intros _. left. split; reflexivity.
  - intros Hall.
    destruct (Hlaw (extract_npub_mentions content)) as [Hnd Hin].
    rewrite Htokens in Hnd, Hin.
    destruct (NoDup_all_equal t before after) as [-> ->].
    + apply NoDup_ListNoDup. exact Hnd.
    + intros x Hx. apply Hall. apply Hin. exact Hx.
    + simpl in Hbefore. injection Hbefore as <-.
      repeat split. 
Qed.


End Mentions.

Lemma sample_set_iter_lawful profile decode page posting :
  set_iter_lawful (sample_services profile decode page posting).
Proof.
  intros l. simpl.
  split; [apply NoDup_remove_dups|].
  intros x. rewrite <- !list_elem_of_In. apply elem_of_remove_dups.
Qed.

Lemma name_is_fallback_display_name_witness :
  result (replace_npub_mentions named_services
            (str "hi nostr:npub1xxxx and nostr:npub1xxxx") (initial 0) 0%nat) =
  Some (str "hi Fountain and Fountain").
Proof.
  rewrite (proj1 (name_is_fallback_display_name named_services
                    (str "hi nostr:npub1xxxx and nostr:npub1xxxx") (initial 0)
                    0%nat [] (str "npub1xxxx") [] _
                    [(str "name", JStr (str "Fountain"))]
                    (sample_set_iter_lawful _ _ _ _) eq_refl eq_refl eq_refl)
            (str "Fountain") eq_refl eq_refl ltac:(discriminate)).
  reflexivity.
Defined.

(** C10, the claim as stated fails: the token [npub10], whose lookup
    finds nothing, is visited first, and the bare token that takes its
    place also takes the place of the beginning of the mention of
    [npub10xlx]; at the turn of that token, whose record has a [name],
    no occurrence is left for the name. *)
Lemma name_not_applied_after_prefix_token :
  let content := str "nostr:npub10 hi nostr:npub10xlx" in
  set_iter prefix_services (extract_npub_mentions content) =
    [str "npub10"; str "npub10xlx"] /\
  profile_of prefix_services (str "npub10xlx") 1%nat =
    Some [(str "name", JStr (str "Fountain"))] /\
  result (replace_npub_mentions prefix_services content (initial 0) 0%nat) =
    Some (str "npub10 hi npub10xlx").
Proof. vm_compute. repeat split. Qed.



(** The examples of the specification: a resolved and an unresolved
    mention. *)
Example mention_resolved_example :
  result (replace_npub_mentions display_named_services
            (str "hi nostr:npub1xxxx") (initial 0) 0%nat) =
  Some (str "hi Fountain").
Proof. vm_compute. reflexivity. Qed.

Example mention_unresolved_example :
  result (replace_npub_mentions quiet_services
            (str "hi nostr:npub1xxxx") (initial 0) 0%nat) =
  Some (str "hi npub1xxxx").
Proof. vm_compute. reflexivity. Qed.

(** ** Further properties of [handle_nostr_event] *)

Section Skips.

Context {World Blob : Type}.
Variable env : services World Blob.

Lemma lstrip_nil s : lstrip s = [] <-> forallb isspace s = true.
Proof.
  induction s as [|c s IH]; simpl; [tauto|].
  destruct (isspace c); simpl; [exact IH|].
  split; discriminate.
Qed.

Lemma lstrip_head s c t : lstrip s = c :: t -> isspace c = false.
Proof.
  induction s as [|d s IH]; simpl; [discriminate|].
  destruct (isspace d) eqn:Hd; [exact IH|]. intros [= -> _]. exact Hd.
Qed.

Lemma forallb_rev_true {A} (f : A -> bool) (l : list A) :
  forallb f (rev l) = true -> forallb f l = true.
Proof.
  rewrite !forallb_forall. intros H x Hx. apply H. apply in_rev.
  rewrite rev_involutive. exact Hx.
Qed.

(** [not content.strip()] holds of the texts made of whitespace only. *)
Lemma strip_nil s : strip s = [] <-> forallb isspace s = true.
Proof.
  unfold strip, rstrip. split.
  - intros H. apply lstrip_nil.
    assert (Hrev : lstrip (rev (lstrip s)) = []).
    { destruct (lstrip (rev (lstrip s))) as [|c t]; [reflexivity|].
      simpl in H. destruct (rev t); discriminate. }
    apply lstrip_nil in Hrev. apply forallb_rev_true in Hrev.
    destruct (lstrip s) as [|c t] eqn:Hs; [reflexivity|].
    apply lstrip_head in Hs. simpl in Hrev. rewrite Hs in Hrev. discriminate.
  - intros H. apply lstrip_nil in H. rewrite H. reflexivity.
Qed.

Lemma cross_post_reply event s w :
  is_reply event = true ->
  cross_post env event s w = Reply (Some (Skipped reply_event)) s w [].
Proof. intros H. unfold cross_post. rewrite H. reflexivity. Qed.

Lemma cross_post_blank event s w :
  is_reply event = false ->
  forallb isspace (content event) = true ->
  cross_post env event s w = Reply (Some (Skipped empty)) s w [].
Proof.
  intros Hr Hb. unfold cross_post. rewrite Hr.
  apply strip_nil in Hb. rewrite Hb. reflexivity.
Qed.

(** X1. A note that refers to another event is never cross-posted: no
    lookup, no media request and no publish call is made for it and the
    world is left as it was. When it is new it is still marked, so it
    counts as processed. *)
Theorem reply_is_marked_not_posted event s w :
  event_ids event <> [] ->
  let r := handle_nostr_event env event s w in
  world r = w /\
  queries (trace r) = [] /\ gets (trace r) = [] /\ uploads (trace r) = [] /\
  posts (trace r) = [] /\
  (id event ∉ processed_events s ->
   (start_time s <= created_at event)%Z ->
   r = Reply (Some (Skipped reply_event)) (mark (id event) s) w [Mark (id event)]).
Proof.
  intros Htags. cbv zeta.
  assert (Hreply : is_reply event = true).
  { unfold is_reply. destruct (event_ids event); [contradiction | reflexivity]. }
  rewrite handle_nostr_event_run.
  destruct (decide (id event ∈ processed_events s)) as [Hin|Hout].
  { repeat split. intros Hc. contradiction. }
  destruct (created_at event <? start_time s)%Z eqn:Hold.
  { repeat split. intros _ Hnew. apply Z.ltb_lt in Hold. lia. }
  cbv zeta. rewrite cross_post_reply by exact Hreply. repeat split.
Qed.

(** X2. A new note whose text is only whitespace (the empty text
    included) is marked and then skipped as empty: the mark is the only
    thing that happens. *)
Theorem blank_note_is_marked_not_posted event s w :
  id event ∉ processed_events s ->
  (start_time s <= created_at event)%Z ->
  event_ids event = [] ->
  forallb isspace (content event) = true ->
  handle_nostr_event env event s w =
  Reply (Some (Skipped empty)) (mark (id event) s) w [Mark (id event)].
Proof.
  intros Hout Hnew Htags Hblank.
  rewrite (handle_fresh env event s w Hout Hnew). cbv zeta.
  rewrite cross_post_blank; [reflexivity| |exact Hblank].
  unfold is_reply. rewrite Htags. reflexivity.
Qed.

End Skips.

Lemma reply_is_marked_not_posted_witness :
  handle_nostr_event quiet_services
    {| id := str "e1"; created_at := 100; event_ids := [str "e0"];
       content := str "I agree" |} (initial 50) 0%nat =
  Reply (Some (Skipped reply_event)) (mark (str "e1") (initial 50)) 0%nat
    [Mark (str "e1")].
Proof.
  refine (proj2 (proj2 (proj2 (proj2 (proj2
    (reply_is_marked_not_posted quiet_services
       {| id := str "e1"; created_at := 100; event_ids := [str "e0"];
          content := str "I agree" |} (initial 50) 0%nat _)))))
    _ _).
  - discriminate.
  - simpl. apply not_elem_of_empty.
  - simpl. lia.
Defined.

Lemma blank_note_is_marked_not_posted_witness :
  handle_nostr_event quiet_services (note "e1" 100 "  ") (initial 50) 0%nat =
  Reply (Some (Skipped empty)) (mark (str "e1") (initial 50)) 0%nat
    [Mark (str "e1")].
Proof.
  apply (blank_note_is_marked_not_posted quiet_services (note "e1" 100 "  ")
           (initial 50) 0%nat).
  - simpl. apply not_elem_of_empty.
  - simpl. lia.
  - reflexivity.
  - reflexivity.
Defined.

(** ** A whole run, and the order of the steps for one note *)

Section Runs.

Context {World Blob : Type}.
Variable env : services World Blob.

(** One delivery marks nothing and publishes nothing, or marks the
    identifier of the event, which was not in the set, and publishes at
    most once. *)
Lemma handle_marks event s w :
  let r := handle_nostr_event env event s w in
  marks (trace r) = [] /\ posts (trace r) = [] /\ self r = s \/
  marks (trace r) = [id event] /\ (id event ∉ processed_events s) /\
  self r = mark (id event) s /\ (length (posts (trace r)) <= 1)%nat.
Proof.
  cbv zeta. rewrite handle_nostr_event_run.
  destruct (decide (id event ∈ processed_events s)) as [Hin|Hout];
    [left; repeat split|].
  destruct (created_at event <? start_time s)%Z; [left; repeat split|].
  right. cbv zeta.
  destruct (cross_post_frame env event (mark (id event) s) w)
    as (Hself & Hmarks & Hle & _).
  cbn [trace self marks flat_map]. cbn [app].
  change (flat_map
            (fun e : effect Blob => match e with Mark i => [i] | _ => [] end)
            (trace (cross_post env event (mark (id event) s) w)))
    with (marks (trace (cross_post env event (mark (id event) s) w))).
  rewrite Hmarks. repeat split; assumption.
Qed.

(** X3. Over any sequence of deliveries, each identifier is marked at
    most once and only if it was not in the set before; the set ends up
    as the old one with the marked identifiers; and there are no more
    publish calls than marks. So within one run no identifier is
    cross-posted twice, however often and in whatever order events are
    delivered. *)
Theorem one_publish_per_identifier events : forall s w,
  let d := deliver env events s w in
  NoDup (marks d.2) /\
  (forall x, x ∈ marks d.2 -> x ∉ processed_events s) /\
  (forall x, x ∈ processed_events d.1.1 <->
             x ∈ processed_events s \/ x ∈ marks d.2) /\
  (length (posts d.2) <= length (marks d.2))%nat.
Proof.
  induction events as [|event rest IH]; intros s w; cbv zeta.
  - simpl. split; [constructor|]. split; [intros x Hx; inversion Hx|].
    split; [|lia]. intros x. split; [auto|]. intros [H|H]; [exact H|inversion H].
  - rewrite deliver_cons. cbv zeta. cbn [fst snd].
    set (r := handle_nostr_event env event s w).
    destruct (IH (self r) (world r)) as (Hnd & Hfresh & Hset & Hle).
    set (d := deliver env rest (self r) (world r)) in *.
    rewrite marks_app, posts_app, !length_app.
    destruct (handle_marks event s w) as [(Hm & Hp & Hs)|(Hm & Hout & Hs & Hp)];
      fold r in Hm, Hp, Hs; rewrite Hm.
    + rewrite Hp, Hs in *. simpl. repeat split; try assumption.
      * apply Hset.
      * apply Hset.
    + assert (Hnew : forall x, x ∈ marks d.2 -> x <> id event).
      { intros x Hx ->. apply (Hfresh _ Hx). rewrite Hs.
        apply elem_of_mark. left. reflexivity. }
      cbn [app length]. split; [|split; [|split]].
      * apply NoDup_cons. split; [|exact Hnd].
        intros Hin. exact (Hnew _ Hin eq_refl).
      * intros x Hx. apply elem_of_cons in Hx. destruct Hx as [->|Hx];
          [exact Hout|].
        intros Hin. apply (Hfresh _ Hx). rewrite Hs.
        apply elem_of_mark. right. exact Hin.
      * intros x. rewrite Hset, Hs, elem_of_mark, elem_of_cons. tauto.
      * lia.
Qed.

(** X4. For a new note that is no reply, has text and a time that can be
    converted, the steps come in this order: the mark, the profile
    queries of the mentions, the downloads and uploads of the candidates,
    one publish call. The image URLs are those of the text after mention
    resolution, the first four; the text published is that resolved text
    less the attached URLs; and the method reports what the publish call
    returned. *)
Theorem steps_in_order event s w resolved :
  id event ∉ processed_events s ->
  (start_time s <= created_at event)%Z ->
  event_ids event = [] ->
  strip (content event) <> [] ->
  fromtimestamp_utc (created_at event) <> None ->
  let r1 := replace_npub_mentions env (content event) (mark (id event) s) w in
  result r1 = Some resolved ->
  let a := attach env (firstn 4 (extract_image_urls resolved)) (world r1) in
  let text := post_text resolved a.1.1 in
  let embed := post_embed a.1.1 in
  let sent := send_post env text embed a.1.2 in
  handle_nostr_event env event s w =
    Reply (Some (if sent.1 then Published else PublishFailed))
      (mark (id event) s) sent.2
      (Mark (id event) :: trace r1 ++ a.2 ++ [Post text embed]) /\
  Forall is_query (trace r1) /\ Forall is_media a.2 /\
  gets a.2 = firstn 4 (extract_image_urls resolved).
Proof.
  intros Hout Hnew Htags Htext Htime. cbv zeta. intros Hres.
  rewrite (handle_fresh env event s w Hout Hnew). cbv zeta.
  rewrite cross_post_run; [|unfold is_reply; rewrite Htags; reflexivity|exact Htext].
  destruct (fromtimestamp_utc (created_at event)) as [timestamp|];
    [|contradiction].
  cbv zeta. rewrite Hres. cbn [result self world trace].
  split; [reflexivity|]. split; [|split].
  - apply confined_replace_npub_mentions.
  - apply attach_media.
  - apply attach_gets.
Qed.

Lemma resolve_all_None tokens : forall text w,
  resolve_all env tokens text w = None ->
  exists t w', In t tokens /\ replacement env t w' = None.
Proof.
  induction tokens as [|t rest IH]; intros text w H; [discriminate|].
  simpl in H. destruct (replacement env t w) as [name|] eqn:Hr.
  - destruct (IH _ _ H) as (t' & w' & Hin & Hnone).
    exists t', w'. split; [right; exact Hin | exact Hnone].
  - exists t, w. split; [left; reflexivity | exact Hr].
Qed.

Lemma replacement_None t w :
  replacement env t w = None ->
  exists fields, profile_of env t w = Some fields /\
    truthy (chosen_name fields) = true /\
    forall name, chosen_name fields <> JStr name.
Proof.
  unfold replacement. destruct (profile_of env t w) as [fields|]; [|discriminate].
  destruct (truthy (chosen_name fields)) eqn:Ht; [|discriminate].
  intros H. exists fields. split; [reflexivity|]. split; [exact Ht|].
  intros name Hname. rewrite Hname in H. discriminate.
Qed.

(** X5. When mention resolution raises, [handle_nostr_event] raises with
    it: the note is already marked, so it is not handled again, and no
    media is requested and nothing is published for it. Resolution raises
    only at a mentioned profile whose chosen name is a JSON value that is
    true but not a string. *)
Theorem unreadable_name_loses_note event s w :
  id event ∉ processed_events s ->
  (start_time s <= created_at event)%Z ->
  event_ids event = [] ->
  strip (content event) <> [] ->
  result (replace_npub_mentions env (content event) (mark (id event) s) w) = None ->
  let r := handle_nostr_event env event s w in
  result r = None /\
  self r = mark (id event) s /\
  gets (trace r) = [] /\ uploads (trace r) = [] /\ posts (trace r) = [] /\
  (forall w', handle_nostr_event env event (self r) w' =
              Reply (Some (Skipped duplicate)) (self r) w' []) /\
  exists t w' fields,
    In t (set_iter env (extract_npub_mentions (content event))) /\
    profile_of env t w' = Some fields /\
    truthy (chosen_name fields) = true /\
    forall name, chosen_name fields <> JStr name.
Proof.
  intros Hout Hnew Htags Htext Hraise. cbv zeta.
  assert (Hcause : exists t w' fields,
            In t (set_iter env (extract_npub_mentions (content event))) /\
            profile_of env t w' = Some fields /\
            truthy (chosen_name fields) = true /\
            forall name, chosen_name fields <> JStr name).
  { unfold replace_npub_mentions in Hraise.
    destruct (extract_npub_mentions (content event)) as [|t0 ts] eqn:He;
      [discriminate|].
    destruct (for_each_replace_mention env (set_iter env (t0 :: ts))
                (content event) (mark (id event) s) w) as (Hres & _).
    rewrite Hraise in Hres. symmetry in Hres.
    apply resolve_all_None in Hres. destruct Hres as (t & w' & Hin & Hnone).
    apply replacement_None in Hnone. destruct Hnone as (fields & Hp' & Ht & Hn).
    exists t, w', fields. repeat split; assumption. }
  assert (Hdup : forall w',
            handle_nostr_event env event (mark (id event) s) w' =
            Reply (Some (Skipped duplicate)) (mark (id event) s) w' []).
  { intros w'. apply handle_duplicate. apply elem_of_mark. left. reflexivity. }
  rewrite (handle_fresh env event s w Hout Hnew). cbv zeta.
  rewrite cross_post_run; [|unfold is_reply; rewrite Htags; reflexivity|exact Htext].
  destruct (confined_replace_npub_mentions env (content event)
              (mark (id event) s) w) as [_ Hq].
  apply queries_no_marks in Hq. destruct Hq as (_ & Hp & Hg & Hu).
  destruct (fromtimestamp_utc (created_at event)) as [timestamp|];
    cbv zeta; rewrite ?Hraise; cbn [result self world trace].
  - split; [reflexivity|]. split; [reflexivity|].
    split; [exact Hg|]. split; [exact Hu|]. split; [exact Hp|].
    split; [exact Hdup | exact Hcause].
  - split; [reflexivity|]. split; [reflexivity|].
    split; [reflexivity|]. split; [reflexivity|]. split; [reflexivity|].
    split; [exact Hdup | exact Hcause].
Qed.

End Runs.

Lemma steps_in_order_witness :
  handle_nostr_event quiet_services
    (note "e1" 100 "look at https://ex.com/a.png!") (initial 50) 0%nat =
  Reply (Some Published) (mark (str "e1") (initial 50)) 3%nat
    [Mark (str "e1"); Get (str "https://ex.com/a.png");
     Upload [Byte.x89; Byte.x50; Byte.x4e; Byte.x47];
     Post (str "look at")
       (Some [{| alt := str "Image from Nostr"; image := 4%nat |}])].
Proof.
  rewrite (proj1 (steps_in_order quiet_services
                    (note "e1" 100 "look at https://ex.com/a.png!")
                    (initial 50) 0%nat (str "look at https://ex.com/a.png!")
                    (not_elem_of_empty _) ltac:(simpl; lia) eq_refl
                    ltac:(discriminate) ltac:(discriminate) eq_refl)).
  reflexivity.
Defined.

Lemma unreadable_name_loses_note_witness :
  let r := handle_nostr_event numeric_name_services
             (note "e1" 100 "hi nostr:npub1xxxx") (initial 50) 0%nat in
  result r = None /\ posts (trace r) = [] /\
  handle_nostr_event numeric_name_services
    (note "e1" 100 "hi nostr:npub1xxxx") (self r) 1%nat =
  Reply (Some (Skipped duplicate)) (self r) 1%nat [].
Proof.
  destruct (unreadable_name_loses_note numeric_name_services
              (note "e1" 100 "hi nostr:npub1xxxx") (initial 50) 0%nat
              (not_elem_of_empty _) ltac:(simpl; lia) eq_refl
              ltac:(discriminate) eq_refl)
    as (Hres & _ & _ & _ & Hposts & Hdup & _).
  cbv zeta. split; [exact Hres|]. split; [exact Hposts | apply Hdup].
Defined.

(** ** Further properties of the lookups, the downloads and the post *)

Section Calls.

Context {World Blob : Type}.
Variable env : services World Blob.

(** X6. [fetch_profile_metadata] never raises and leaves the bot alone.
    It makes at most one relay query, and none when the token does not
    parse as a public key. It answers [None] whenever no metadata object
    is obtained (the token does not parse, the query fails or finds no
    event, the content is not JSON or not a JSON object) or the object
    has no true [display_name] or [name]; a dictionary it answers holds
    under [display_name] the chosen name, which is true. *)
Theorem fetch_profile_metadata_total npub s w :
  let r := fetch_profile_metadata env npub s w in
  result r <> None /\ self r = s /\
  (length (trace r) <= 1)%nat /\ Forall is_query (trace r) /\
  (PublicKey_parse env npub = None -> r = Reply (Some None) s w []) /\
  (profile_of env npub w = None -> result r = Some None) /\
  (forall fields, profile_of env npub w = Some fields ->
     truthy (chosen_name fields) = false -> result r = Some None) /\
  (forall d, result r = Some (Some d) ->
     exists fields, profile_of env npub w = Some fields /\
       truthy (chosen_name fields) = true /\
       dict_get d (str "display_name") JNull = chosen_name fields).
Proof.
  cbv zeta.
  destruct (confined_fetch_profile_metadata env npub s w) as [Hs Hq].
  rewrite fetch_profile_metadata_run in *. cbn [result self trace] in *.
  split; [discriminate|]. split; [reflexivity|]. split.
  { rewrite length_map. unfold lookup_queries.
    destruct (PublicKey_parse env npub); simpl; lia. }
  split; [exact Hq|]. split.
  { intros Hparse. unfold profile_of, world_after, lookup_queries.
    rewrite Hparse. reflexivity. }
  split; [intros ->; reflexivity|]. split.
  { intros fields -> ->. reflexivity. }
  intros d Hd. destruct (profile_of env npub w) as [fields|]; [|discriminate].
  exists fields. split; [reflexivity|].
  destruct (truthy (chosen_name fields)) eqn:Ht; [|discriminate].
  split; [reflexivity|]. injection Hd as <-. reflexivity.
Qed.

Lemma attach_counts urls : forall w,
  (length (attach env urls w).1.1 <= length (uploads (attach env urls w).2))%nat /\
  (length (uploads (attach env urls w).2) <= length urls)%nat.
Proof.
  induction urls as [|url rest IH]; intros w; [simpl; lia|].
  rewrite attach_cons.
  destruct (accepted env (http_get env url w).1) as [[image_bytes mime]|];
    cbv zeta; cbn [fst snd uploads flat_map app length].
  - destruct (IH (upload_blob env image_bytes (http_get env url w).2).2) as [H1 H2].
    fold (uploads (attach env rest
                     (upload_blob env image_bytes (http_get env url w).2).2).2).
    destruct (upload_blob env image_bytes (http_get env url w).2).1;
      cbn [length]; lia.
  - destruct (IH (http_get env url w).2) as [H1 H2].
    fold (uploads (attach env rest (http_get env url w).2).2). lia.
Qed.

(** X7. [post_to_bluesky] never raises and always ends with exactly one
    publish call, whose outcome it returns; before it come only downloads
    and uploads, at most four downloads and no more uploads than
    downloads. An embed is sent only with at least one image, at most one
    per upload, each with the alternative text "Image from Nostr".
    Without image URLs ([None] or the empty list) nothing is requested
    and the text is published as it is, without embed. *)
Theorem post_to_bluesky_publishes_once content image_urls s w :
  let r := post_to_bluesky env content image_urls s w in
  exists t text embed w1,
    trace r = t ++ [Post text embed] /\ Forall is_media t /\
    result r = Some (send_post env text embed w1).1 /\
    world r = (send_post env text embed w1).2 /\ self r = s /\
    (length (uploads t) <= length (gets t))%nat /\
    (length (gets t) <= 4)%nat /\
    (forall images, embed = Some images ->
       images <> [] /\ (length images <= length (uploads t))%nat /\
       Forall (fun i => alt i = str "Image from Nostr") images) /\
    (image_urls = None \/ image_urls = Some [] ->
       t = [] /\ text = content /\ embed = None).
Proof.
  cbv zeta. rewrite post_to_bluesky_run. cbv zeta.
  set (a := attach env (candidates image_urls) w).
  exists a.2, (post_text content a.1.1), (post_embed a.1.1), a.1.2.
  cbn [trace result world self].
  split; [reflexivity|]. split; [apply attach_media|].
  split; [reflexivity|]. split; [reflexivity|]. split; [reflexivity|].
  destruct (attach_counts (candidates image_urls) w) as [Hatt Hup].
  fold a in Hatt, Hup.
  assert (Hgets : gets a.2 = candidates image_urls) by apply attach_gets.
  assert (Hfour : (length (candidates image_urls) <= 4)%nat).
  { unfold candidates. destruct image_urls as [urls|]; [|simpl; lia].
    rewrite length_take. lia. }
  split; [rewrite Hgets; exact Hup|]. split; [rewrite Hgets; exact Hfour|].
  split.
  - intros images Himages. unfold post_embed in Himages.
    destruct a.1.1 as [|[u b] att] eqn:Ha; [discriminate|].
    injection Himages as <-. split; [discriminate|]. split.
    + cbn [List.map length] in *. rewrite !length_map. exact Hatt.
    + apply List.Forall_forall. intros i Hi.
      destruct Hi as [<-|Hi]; [reflexivity|].
      apply in_map_iff in Hi. destruct Hi as (b' & <- & _). reflexivity.
  - intros Hnone. assert (Hc : candidates image_urls = []).
    { destruct Hnone as [-> | ->]; reflexivity. }
    subst a. rewrite Hc. simpl. repeat split.
Qed.

(** X8. For every size limit, [download_image] never raises, makes one
    request, and returns an image exactly when the request answered with
    a success status, a [content-type] that starts with [image/], a body
    of at most [max_size_mb * 1024 * 1024] bytes that decodes as an
    image; what it returns is then the body as received and the content
    type as sent. A response without [content-type] header is
    rejected. *)
Theorem download_image_accepts url max_size_mb s w :
  let r := download_image env url max_size_mb s w in
  result r <> None /\ trace r = [Get url] /\ self r = s /\
  world r = (http_get env url w).2 /\
  (forall data mime,
     result r = Some (Some (data, mime)) <->
     exists resp,
       (http_get env url w).1 = Some resp /\
       is_success resp = true /\
       startswith (content_type resp) (str "image/") = true /\
       (Z.of_nat (length (body resp)) <= max_size_mb * (1024 * 1024))%Z /\
       image_verify env (body resp) = true /\
       data = body resp /\ mime = content_type resp) /\
  (forall resp,
     (http_get env url w).1 = Some resp -> content_type_header resp = None ->
     result r = Some None).
Proof.
  cbv zeta. unfold download_image. rewrite bind_run. unfold call.
  destruct (http_get env url w) as [[resp|] w1]; cbn [fst snd result self world trace].
  - assert (Hcheck :
      forall data mime,
        check_response env max_size_mb resp = inr (data, mime) <->
        is_success resp = true /\
        startswith (content_type resp) (str "image/") = true /\
        (Z.of_nat (length (body resp)) <= max_size_mb * (1024 * 1024))%Z /\
        image_verify env (body resp) = true /\
        data = body resp /\ mime = content_type resp).
    { intros data mime. unfold check_response. rewrite too_large_iff.
      fold (content_type resp).
      destruct (is_success resp); cbn [negb]; [|split; [discriminate|intros (H & _); discriminate]].
      destruct (startswith (content_type resp) (str "image/")); cbn [negb];
        [|split; [discriminate|intros (_ & H & _); discriminate]].
      destruct (Z.ltb_spec (max_size_mb * (1024 * 1024))
                  (Z.of_nat (length (body resp)))) as [Hbig|Hsmall].
      { split; [discriminate|]. intros (_ & _ & H & _). lia. }
      destruct (image_verify env (body resp)); cbn [negb];
        [|split; [discriminate|intros (_ & _ & _ & H & _); discriminate]].
      split.
      - intros [= <- <-]. repeat split. exact Hsmall.
      - intros (_ & _ & _ & _ & -> & ->). reflexivity. }
    destruct (check_response env max_size_mb resp) as [why|[data0 mime0]] eqn:Hc;
      cbn [ret result self world trace].
    + split; [discriminate|]. split; [reflexivity|]. split; [reflexivity|].
      split; [reflexivity|]. split; [|reflexivity].
      intros data mime. split; [discriminate|].
      intros (resp' & [= <-] & H). apply Hcheck in H. discriminate.
    + split; [discriminate|]. split; [reflexivity|]. split; [reflexivity|].
      split; [reflexivity|]. split.
      * intros data mime. split.
        -- intros [= <- <-]. exists resp. split; [reflexivity|].
           apply Hcheck. reflexivity.
        -- intros (resp' & [= <-] & H). apply Hcheck in H.
           injection H as -> ->. reflexivity.
      * intros resp' [= <-] Hnone.
        destruct (proj1 (Hcheck data0 mime0) eq_refl) as (_ & Hstart & _).
        unfold content_type in Hstart. rewrite Hnone in Hstart. discriminate.
  - cbn [ret result self world trace].
    split; [discriminate|]. split; [reflexivity|]. split; [reflexivity|].
    split; [reflexivity|]. split.
    + intros data mime. split; [discriminate|].
      intros (resp & H & _). discriminate.
    + intros resp H. discriminate.
Qed.

End Calls.

Lemma fetch_profile_metadata_total_witness :
  fetch_profile_metadata strict_services (str "npub1xxxx") (initial 0) 0%nat =
  Reply (Some None) (initial 0) 0%nat [].
Proof.
  apply (proj1 (proj2 (proj2 (proj2 (proj2
           (fetch_profile_metadata_total strict_services (str "npub1xxxx")
              (initial 0) 0%nat)))))).
  reflexivity.
Defined.

Lemma post_to_bluesky_publishes_once_witness :
  exists t text embed w1,
    trace (post_to_bluesky quiet_services (str "no picture") None
             (initial 0) 0%nat) = t ++ [Post text embed] /\
    t = [] /\ text = str "no picture" /\ embed = None /\ w1 = 0%nat.
Proof.
  destruct (post_to_bluesky_publishes_once quiet_services (str "no picture")
              None (initial 0) 0%nat)
    as (t & text & embed & w1 & Htrace & _ & _ & Hw & _ & _ & _ & _ & Hnone).
  destruct (Hnone (or_introl eq_refl)) as (-> & -> & ->).
  exists [], (str "no picture"), None, w1.
  split; [exact Htrace|]. repeat split.
  simpl in Hw. injection Hw. intros ->. reflexivity.
Defined.

Lemma download_image_accepts_witness :
  result (download_image quiet_services (str "https://ex.com/a.png") 1
            (initial 0) 0%nat) =
  Some (Some ([Byte.x89; Byte.x50; Byte.x4e; Byte.x47], str "image/png")).
Proof.
  apply (proj2 (proj1 (proj2 (proj2 (proj2 (proj2
           (download_image_accepts quiet_services (str "https://ex.com/a.png") 1
              (initial 0) 0%nat))))) _ _)).
  eexists. repeat split. simpl. lia.
Defined.

(** ** [__init__] *)

Section Init.

Variable getenv : pystr -> option pystr.
Variable parse : pystr -> option pystr.
Variable now : Z.

(** X9. [__init__] succeeds only when NOSTR_RELAY, BLUESKY_USERNAME and
    BLUESKY_APP_PASSWORD are all set and not empty, which is checked
    before any key is looked at; the key it parses is NOSTR_NPUB when
    that is set and not empty, NOSTR_PUBKEY otherwise, so a rejected npub
    fails the start even beside a NOSTR_PUBKEY that would parse. A bot
    that starts has no processed event and the current time as cutoff. *)
Theorem init_checks :
  (forall cfg, init getenv parse now = inr cfg ->
     getenv (str "NOSTR_RELAY") = Some (nostr_relay cfg) /\
     getenv (str "BLUESKY_USERNAME") = Some (bluesky_username cfg) /\
     getenv (str "BLUESKY_APP_PASSWORD") = Some (bluesky_password cfg) /\
     nostr_relay cfg <> [] /\ bluesky_username cfg <> [] /\
     bluesky_password cfg <> [] /\
     bot_fields cfg = initial now /\
     exists key, key <> [] /\ parse key = Some (nostr_pubkey cfg) /\
       (getenv (str "NOSTR_NPUB") = Some key \/
        set_and_nonempty (getenv (str "NOSTR_NPUB")) = false /\
        getenv (str "NOSTR_PUBKEY") = Some key)) /\
  (set_and_nonempty (getenv (str "NOSTR_RELAY")) = false \/
   set_and_nonempty (getenv (str "BLUESKY_USERNAME")) = false \/
   set_and_nonempty (getenv (str "BLUESKY_APP_PASSWORD")) = false ->
   init getenv parse now = inl MissingVariables) /\
  (forall npub,
     set_and_nonempty (getenv (str "NOSTR_RELAY")) = true ->
     set_and_nonempty (getenv (str "BLUESKY_USERNAME")) = true ->
     set_and_nonempty (getenv (str "BLUESKY_APP_PASSWORD")) = true ->
     getenv (str "NOSTR_NPUB") = Some npub -> npub <> [] ->
     parse npub = None ->
     init getenv parse now = inl InvalidPublicKey) /\
  (set_and_nonempty (getenv (str "NOSTR_RELAY")) = true ->
   set_and_nonempty (getenv (str "BLUESKY_USERNAME")) = true ->
   set_and_nonempty (getenv (str "BLUESKY_APP_PASSWORD")) = true ->
   set_and_nonempty (getenv (str "NOSTR_NPUB")) = false ->
   set_and_nonempty (getenv (str "NOSTR_PUBKEY")) = false ->
   init getenv parse now = inl MissingPublicKey).
Proof.
  unfold init.
  destruct (getenv (str "NOSTR_RELAY")) as [[|r0 r]|];
    destruct (getenv (str "BLUESKY_USERNAME")) as [[|u0 u]|];
    destruct (getenv (str "BLUESKY_APP_PASSWORD")) as [[|p0 p]|];
    cbn [set_and_nonempty];
    try (split; [intros cfg H; discriminate|];
         split; [reflexivity|]; split; [intros; discriminate|];
         intros; discriminate).
  split; [|split; [|split]].
  - intros cfg H.
    destruct (getenv (str "NOSTR_NPUB")) as [[|n0 n]|] eqn:Hn;
      cbn [set_and_nonempty] in H.
    2:{ destruct (parse (n0 :: n)) as [pubkey|] eqn:Hp; [|discriminate].
        injection H as <-. cbn. repeat split; try discriminate.
        exists (n0 :: n). repeat split; [discriminate | exact Hp | left; reflexivity]. }
    all: destruct (getenv (str "NOSTR_PUBKEY")) as [[|h0 h]|] eqn:Hh;
      cbn [set_and_nonempty] in H; try discriminate;
      destruct (parse (h0 :: h)) as [pubkey|] eqn:Hp; try discriminate;
      injection H as <-; cbn; repeat split; try discriminate;
      exists (h0 :: h); repeat split;
        [discriminate | exact Hp | right; split; reflexivity].
  - intros [H|[H|H]]; discriminate.
  - intros npub _ _ _ -> Hne Hp. destruct npub as [|n0 n]; [contradiction|].
    cbn [set_and_nonempty]. rewrite Hp. reflexivity.
  - intros _ _ _ Hn Hh. rewrite Hn, Hh. reflexivity.
Qed.

End Init.

Lemma init_checks_witness :
  init sample_getenv hex_only_parse 1700000000 = inl InvalidPublicKey.
Proof.
  apply (proj1 (proj2 (proj2 (init_checks sample_getenv hex_only_parse 1700000000)))
           (str "npub1xxxx")); try reflexivity. discriminate.
Defined.

(** ** Mentions *)

Section MentionTokens.

Lemma take_drop_run cls s : take_run cls s ++ drop_run cls s = s.
Proof.
  induction s as [|c s IH]; [reflexivity|]. simpl.
  destruct (cls c); [simpl; f_equal; exact IH | reflexivity].
Qed.

Lemma take_run_all cls s : forallb cls (take_run cls s) = true.
Proof.
  induction s as [|c s IH]; [reflexivity|]. simpl.
  destruct (cls c) eqn:Hc; [simpl; rewrite Hc; exact IH | reflexivity].
Qed.

Lemma take_run_length cls s : length (take_run cls s) = run cls s.
Proof.
  induction s as [|c s IH]; [reflexivity|]. simpl.
  destruct (cls c); [simpl; f_equal; exact IH | reflexivity].
Qed.

Lemma run_drop_run_0 cls s : run cls (drop_run cls s) = 0%nat.
Proof.
  induction s as [|c s IH]; [reflexivity|]. simpl.
  destruct (cls c) eqn:Hc; [exact IH | simpl; rewrite Hc; reflexivity].
Qed.

Lemma run_all cls s :
  forallb cls s = true ->
  run cls s = length s /\ take_run cls s = s /\ drop_run cls s = [].
Proof.
  induction s as [|c s IH]; [repeat split|]. simpl.
  intros H. apply andb_prop in H. destruct H as [Hc Hs]. rewrite Hc.
  destruct (IH Hs) as (H1 & H2 & H3). rewrite H1, H2, H3. repeat split.
Qed.

(** [npub_pattern] at the head of a text: the prefix, the five characters
    [npub1], and the longest run of the bech32 alphabet, not empty. *)
Lemma match_here_npub s :
  match_here npub_pattern s =
  match strip_prefix (str "nostr:") s with
  | Some s1 =>
      match strip_prefix (str "npub1") s1 with
      | Some s2 =>
          if (1 <=? run bech32 s2)%nat then
            Some (drop_run bech32 s2, Some (str "npub1" ++ take_run bech32 s2))
          else None
      | None => None
      end
  | None => None
  end.
Proof.
  unfold match_here, npub_pattern. cbn [rmatch].
  destruct (strip_prefix (str "nostr:") s) as [s1|]; [|reflexivity].
  destruct (strip_prefix (str "npub1") s1) as [s2|] eqn:H2; [|reflexivity].
  rewrite (many_greedy bech32
             (fun rest => (rest, Some (firstn (length s1 - length rest) s1)))).
  destruct (1 <=? run bech32 s2)%nat; [|reflexivity].
  do 3 f_equal. apply strip_prefix_Some in H2. subst s1.
  rewrite <- (take_drop_run bech32 s2) at 1 3.
  rewrite app_assoc, length_app_sub. apply firstn_app_exact.
Qed.

Lemma findall_npub_pattern text :
  findall npub_pattern text =
  List.map (fun m : pystr * option pystr =>
              match snd m with Some g => g | None => [] end)
    (scan npub_pattern text 0).
Proof. reflexivity. Qed.

(** Every match found is a match at its place. *)
Lemma scan_match_here r : forall s skip m cap,
  In (m, cap) (scan r s skip) ->
  exists pre rest, s = pre ++ m ++ rest /\ match_here r (m ++ rest) = Some (rest, cap).
Proof.
  induction s as [|c s IH]; intros skip m cap Hin.
  - destruct skip; simpl in Hin; [|contradiction].
    destruct (match_here r []) as [[rest cap0]|] eqn:Hm; [|contradiction].
    destruct Hin as [[= <- <-]|[]].
    destruct (match_here_sound _ _ _ _ Hm) as (m0 & Heq & _).
    symmetry in Heq. apply app_eq_nil in Heq. destruct Heq as [-> ->].
    exists [], []. split; [reflexivity | exact Hm].
  - destruct skip as [|n]; simpl in Hin.
    + destruct (match_here r (c :: s)) as [[rest cap0]|] eqn:Hm.
      * destruct (match_here_sound _ _ _ _ Hm) as (m0 & Heq & _).
        destruct Hin as [[= <- <-]|Hin].
        -- assert (Hfirst : firstn (length (c :: s) - length rest) (c :: s) = m0).
           { rewrite Heq, length_app_sub. apply firstn_app_exact. }
           simpl in Hfirst. exists [], rest. cbn [app]. rewrite Hfirst.
           split; [exact Heq|]. rewrite <- Heq. exact Hm.
        -- destruct (IH _ _ _ Hin) as (pre & post & -> & Hpost).
           exists (c :: pre), post. split; [reflexivity | exact Hpost].
      * destruct (IH _ _ _ Hin) as (pre & post & -> & Hpost).
        exists (c :: pre), post. split; [reflexivity | exact Hpost].
    + destruct (IH _ _ _ Hin) as (pre & post & -> & Hpost).
      exists (c :: pre), post. split; [reflexivity | exact Hpost].
Qed.

Lemma scan_skip_all r : forall s, scan r s (length s) = scan r [] 0.
Proof. induction s as [|c s IH]; [reflexivity | exact IH]. Qed.

(** X10. Every token [extract_npub_mentions] returns is [npub1] followed
    by one or more characters of the bech32 alphabet; it stands in the
    text right after [nostr:], and it is the whole run: the character
    after it, if any, is not of the alphabet. A mention that is the whole
    text gives its token back. *)
Theorem mention_tokens content :
  (forall t, In t (extract_npub_mentions content) ->
     exists pre body post,
       t = str "npub1" ++ body /\ body <> [] /\ forallb bech32 body = true /\
       content = pre ++ str "nostr:" ++ t ++ post /\ run bech32 post = 0%nat) /\
  (forall body,
     content = str "nostr:npub1" ++ body -> body <> [] ->
     forallb bech32 body = true ->
     extract_npub_mentions content = [str "npub1" ++ body]).
Proof.
  unfold extract_npub_mentions. rewrite findall_npub_pattern. split.
  - intros t Hin. apply in_map_iff in Hin. destruct Hin as ([m cap] & Ht & Hin).
    apply scan_match_here in Hin. destruct Hin as (pre & rest & -> & Hm).
    rewrite match_here_npub in Hm.
    destruct (strip_prefix (str "nostr:") (m ++ rest)) as [s1|] eqn:H1;
      [|discriminate].
    destruct (strip_prefix (str "npub1") s1) as [s2|] eqn:H2; [|discriminate].
    destruct (Nat.leb_spec 1 (run bech32 s2)) as [Hrun|]; [|discriminate].
    injection Hm as <- <-. simpl in Ht. subst t.
    apply strip_prefix_Some in H1, H2. subst s1.
    exists pre, (take_run bech32 s2), (drop_run bech32 s2).
    split; [reflexivity|]. split.
    { intros Hnil. rewrite <- take_run_length, Hnil in Hrun. simpl in Hrun. lia. }
    split; [apply take_run_all|]. split; [|apply run_drop_run_0].
    rewrite H1. f_equal. simpl. repeat f_equal.
    symmetry. apply take_drop_run.
  - intros body -> Hne Hall.
    destruct (run_all bech32 body Hall) as (Hrun & Htake & Hdrop).
    assert (Hm : match_here npub_pattern (str "nostr:npub1" ++ body) =
                 Some ([], Some (str "npub1" ++ body))).
    { rewrite match_here_npub.
      change (str "nostr:npub1" ++ body)
        with (str "nostr:" ++ str "npub1" ++ body).
      rewrite !strip_prefix_app, Hrun, Htake, Hdrop.
      destruct body; [contradiction | reflexivity]. }
    change (str "nostr:npub1" ++ body)
      with (110%N :: (str "ostr:npub1" ++ body)) in *.
    cbn [scan]. rewrite Hm. cbn [length Nat.sub Nat.pred List.map snd].
    rewrite scan_skip_all. reflexivity.
Qed.

Section Unmentioned.

Context {World Blob : Type}.
Variable env : services World Blob.

(** X11. A text has no mention exactly when [nostr:npub1] followed by a
    character of the bech32 alphabet occurs nowhere in it; such a text
    comes out of [replace_npub_mentions] as it went in, without any
    lookup. *)
Theorem unmentioned_text_unchanged content s w :
  (extract_npub_mentions content = [] <->
   ~ exists c, bech32 c = true /\ occurs (str "nostr:npub1" ++ [c]) content) /\
  (extract_npub_mentions content = [] ->
   replace_npub_mentions env content s w = Reply (Some content) s w []).
Proof.
  split.
  - unfold extract_npub_mentions. rewrite findall_npub_pattern. split.
    + intros Hnil (c & Hc & pre & post & ->).
      assert (Hm : matches npub_pattern (str "nostr:npub1" ++ [c]) post).
      { change (str "nostr:npub1" ++ [c])
          with (str "nostr:" ++ (str "npub1" ++ [c])).
        unfold npub_pattern. rewrite <- (app_nil_r (str "npub1" ++ [c])).
        rewrite app_nil_r.
        apply matches_seq; [apply matches_lit|].
        apply matches_group. apply matches_seq; [apply matches_lit|].
        apply matches_many; [simpl; rewrite Hc; reflexivity | simpl; lia]. }
      apply (scan_complete npub_pattern pre) in Hm.
      destruct (scan npub_pattern _ 0); [contradiction | discriminate].
    + intros Hno.
      destruct (scan npub_pattern content 0) as [|[m cap] l] eqn:Hs;
        [reflexivity|].
      exfalso. apply Hno.
      assert (Hin : In (m, cap) (scan npub_pattern content 0))
        by (rewrite Hs; left; reflexivity).
      apply scan_match_here in Hin. destruct Hin as (pre & rest & -> & Hm).
      rewrite match_here_npub in Hm.
      destruct (strip_prefix (str "nostr:") (m ++ rest)) as [s1|] eqn:H1;
        [|discriminate].
      destruct (strip_prefix (str "npub1") s1) as [s2|] eqn:H2; [|discriminate].
      destruct s2 as [|c s2]; [discriminate|]. cbn [run] in Hm.
      destruct (bech32 c) eqn:Hc; [|discriminate].
      apply strip_prefix_Some in H1, H2. subst s1.
      exists c. split; [exact Hc|]. exists pre, s2. rewrite H1.
      rewrite <- !app_assoc. reflexivity.
  - intros Hnil. unfold replace_npub_mentions. rewrite Hnil. reflexivity.
Qed.

End Unmentioned.

End MentionTokens.

Lemma mention_tokens_witness :
  extract_npub_mentions (str "nostr:npub1xxxx") = [str "npub1xxxx"].
Proof.
  apply (proj2 (mention_tokens (str "nostr:npub1xxxx")) (str "xxxx"));
    [reflexivity | discriminate | reflexivity].
Defined.

Lemma unmentioned_text_unchanged_witness :
  replace_npub_mentions quiet_services (str "see nostr:note1abc")
    (initial 0) 0%nat =
  Reply (Some (str "see nostr:note1abc")) (initial 0) 0%nat [].
Proof.
  apply (proj2 (unmentioned_text_unchanged quiet_services
                  (str "see nostr:note1abc") (initial 0) 0%nat)).
  reflexivity.
Defined.

(** ** The order of the extracted image URLs *)

Section LeftmostLongest.

(** The greedy repetition stops at the longest run that lets the rest of
    the pattern match. *)
Lemma many_longest {A} cls : forall s lo (k : pystr -> option A) x,
  many cls lo s k = Some x ->
  exists m rest, s = m ++ rest /\ forallb cls m = true /\
    (lo <= length m)%nat /\ k rest = Some x /\
    forall m' rest', s = m' ++ rest' -> forallb cls m' = true ->
      (length m < length m')%nat -> k rest' = None.
Proof.
  induction s as [|c s IH]; intros lo k x H; simpl in H.
  - destruct lo; [|discriminate]. exists [], [].
    split; [reflexivity|]. split; [reflexivity|]. split; [simpl; lia|].
    split; [exact H|]. intros m' rest' Heq _ Hlt.
    symmetry in Heq. apply app_eq_nil in Heq. destruct Heq as [-> _].
    simpl in Hlt. lia.
  - assert (Hstop : match lo with O => k (c :: s) | S _ => None end = Some x ->
              (cls c = false \/ many cls (pred lo) s k = None) ->
              exists m rest, c :: s = m ++ rest /\ forallb cls m = true /\
                (lo <= length m)%nat /\ k rest = Some x /\
                forall m' rest', c :: s = m' ++ rest' -> forallb cls m' = true ->
                  (length m < length m')%nat -> k rest' = None).
    { destruct lo; [|discriminate]. intros Hk Hwhy.
      exists [], (c :: s).
      split; [reflexivity|]. split; [reflexivity|]. split; [simpl; lia|].
      split; [exact Hk|]. intros m' rest' Heq Hall Hlt.
      destruct m' as [|c' m']; [simpl in Hlt; lia|].
      simpl in Heq. injection Heq as <- ->.
      simpl in Hall. apply andb_prop in Hall. destruct Hall as [Hc Hall].
      destruct Hwhy as [Hno|Hnone]; [congruence|].
      destruct (k rest') as [y|] eqn:Hk'; [exfalso|reflexivity].
      apply (many_complete cls m' 0 rest' k); simpl;
        [exact Hall | lia | congruence | exact Hnone]. }
    destruct (cls c) eqn:Hc; [|apply Hstop; [exact H | left; reflexivity]].
    destruct (many cls (pred lo) s k) as [y|] eqn:Hrec;
      [|apply Hstop; [exact H | right; reflexivity]].
    injection H as ->.
    destruct (IH _ _ _ Hrec) as (m & rest & -> & Hall & Hlen & Hk & Hlong).
    exists (c :: m), rest. simpl. rewrite Hc, Hall.
    split; [reflexivity|]. split; [reflexivity|]. split; [lia|].
    split; [exact Hk|]. intros m' rest' Heq Hall' Hlt.
    destruct m' as [|c' m']; [simpl in Hlt; lia|].
    simpl in Heq. injection Heq as <- Heq.
    simpl in Hall'. apply andb_prop in Hall'. destruct Hall' as [_ Hall'].
    apply (Hlong m' rest' Heq Hall'). simpl in Hlt. lia.
Qed.

Lemma match_here_image_pattern s :
  match_here image_pattern s =
  match strip_prefix (str "http") s with
  | Some s1 =>
      match
        match strip_prefix (str "s") s1 with
        | Some s2 =>
            match strip_prefix (str "://") s2 with
            | Some b => after_scheme b
            | None => None
            end
        | None => None
        end
      with
      | Some x => Some x
      | None =>
          match strip_prefix (str "://") s1 with
          | Some b => after_scheme b
          | None => None
          end
      end
  | None => None
  end.
Proof. reflexivity. Qed.

Lemma extension_length ext :
  In ext image_extensions -> (3 <= length ext <= 4)%nat.
Proof.
  unfold image_extensions. simpl. intros H.
  repeat (destruct H as [<-|H]; [simpl; lia|]). contradiction.
Qed.

(** No extension is the beginning of another. *)
Lemma extension_prefix_free e e' r r' :
  In e image_extensions -> In e' image_extensions ->
  e ++ r = e' ++ r' -> e = e'.
Proof.
  unfold image_extensions. simpl. intros H H' Heq.
  repeat (destruct H as [<-|H]; [|]); try contradiction;
    repeat (destruct H' as [<-|H']; [|]); try contradiction;
    first [reflexivity | discriminate Heq].
Qed.

Lemma dot_extension_matches ext rest :
  In ext image_extensions ->
  matches (Seq (Lit (str ".")) extension_alt) (str "." ++ ext) rest.
Proof.
  intros Hext. apply matches_seq; [apply matches_lit|].
  apply matches_extension. exact Hext.
Qed.

(** After the scheme the match is a body, a dot and an extension, with
    the longest body possible. *)
Lemma after_scheme_longest b rest cap :
  after_scheme b = Some (rest, cap) ->
  exists body ext,
    b = body ++ str "." ++ ext ++ rest /\
    body <> [] /\ forallb nonspace body = true /\ In ext image_extensions /\
    forall body' ext' rest',
      b = body' ++ str "." ++ ext' ++ rest' ->
      forallb nonspace body' = true -> In ext' image_extensions ->
      (length body' + length ext' <= length body + length ext)%nat.
Proof.
  unfold after_scheme. intros H.
  apply many_longest in H.
  destruct H as (body & rest1 & -> & Hall & Hlen & Hk & Hlong).
  apply rmatch_sound in Hk.
  destruct Hk as (m2 & rest2 & cap2 & -> & Hm & [= -> _]).
  apply matches_seq_inv in Hm. destruct Hm as (dot & ext & -> & Hdot & Hext).
  apply matches_lit_inv in Hdot. subst dot.
  apply matches_extension in Hext.
  exists body, ext. rewrite <- !app_assoc.
  split; [reflexivity|].
  split; [intros ->; simpl in Hlen; lia|].
  split; [exact Hall|]. split; [exact Hext|].
  intros body' ext' rest' Heq Hall' Hext'.
  destruct (Nat.lt_trichotomy (length body') (length body)) as [Hlt|[Hlt|Hlt]].
  - pose proof (extension_length ext Hext).
    pose proof (extension_length ext' Hext'). lia.
  - symmetry in Hlt. apply app_inj_1 in Heq; [|exact Hlt].
    destruct Heq as [_ Heq]. simpl in Heq. injection Heq as Heq.
    apply extension_prefix_free in Heq; [|assumption|assumption].
    subst ext'. lia.
  - exfalso.
    specialize (Hlong body' (str "." ++ ext' ++ rest') Heq Hall' Hlt).
    pose proof (dot_extension_matches ext' rest' Hext') as Hm.
    apply (rmatch_complete _ _ _ Hm
             (fun rest' cap => Some (rest', cap)) None); [discriminate|].
    rewrite <- app_assoc. exact Hlong.
Qed.

Lemma image_url_nonempty u : image_url u -> u <> [].
Proof.
  intros (scheme & body & ext & -> & [-> | ->] & _) Heq; discriminate Heq.
Qed.

(** An anchored match of [image_pattern] is the longest image URL the
    subject starts with. *)
Lemma match_here_longest s rest cap :
  match_here image_pattern s = Some (rest, cap) ->
  exists u, s = u ++ rest /\ image_url u /\
    forall u' rest', s = u' ++ rest' -> image_url u' ->
      (length u' <= length u)%nat.
Proof.
  rewrite match_here_image_pattern. intros H.
  destruct (strip_prefix (str "http") s) as [s1|] eqn:H1; [|discriminate].
  apply strip_prefix_Some in H1. subst s.
  assert (Hcase :
    (exists b, s1 = str "s://" ++ b /\ after_scheme b = Some (rest, cap)) \/
    (exists b, s1 = str "://" ++ b /\ after_scheme b = Some (rest, cap))).
  { destruct (strip_prefix (str "s") s1) as [s2|] eqn:H2.
    - apply strip_prefix_Some in H2. subst s1.
      destruct (strip_prefix (str "://") s2) as [b|] eqn:H3.
      + apply strip_prefix_Some in H3. subst s2.
        destruct (after_scheme b) as [x|] eqn:Hb.
        * injection H as ->. left. exists b. split; [reflexivity | exact Hb].
        * simpl in H. discriminate.
      + destruct s2 as [|c s2]; simpl in H; discriminate.
    - destruct (strip_prefix (str "://") s1) as [b|] eqn:H3; [|discriminate].
      apply strip_prefix_Some in H3. subst s1.
      right. exists b. split; [reflexivity | exact H]. }
  assert (Hgen : forall scheme b,
    (scheme = str "http://" \/ scheme = str "https://") ->
    str "http" ++ s1 = scheme ++ b ->
    (forall scheme' b', (scheme' = str "http://" \/ scheme' = str "https://") ->
       str "http" ++ s1 = scheme' ++ b' -> scheme' = scheme) ->
    after_scheme b = Some (rest, cap) ->
    exists u, str "http" ++ s1 = u ++ rest /\ image_url u /\
      forall u' rest', str "http" ++ s1 = u' ++ rest' -> image_url u' ->
        (length u' <= length u)%nat).
  { intros scheme b Hscheme Hs Hother Hb.
    apply after_scheme_longest in Hb.
    destruct Hb as (body & ext & -> & Hne & Hall & Hext & Hlong).
    exists (scheme ++ body ++ str "." ++ ext).
    split; [rewrite Hs, <- !app_assoc; reflexivity|].
    split; [exists scheme, body, ext; repeat split; assumption|].
    intros u' rest' Heq (scheme' & body' & ext' & -> & Hscheme' & _ & Hall' & Hext').
    rewrite <- !app_assoc in Heq.
    pose proof (Hother scheme' _ Hscheme' Heq) as ->.
    rewrite Hs in Heq. apply app_inv_head in Heq.
    specialize (Hlong body' ext' rest' Heq Hall' Hext').
    rewrite !length_app. simpl length. lia. }
  destruct Hcase as [(b & -> & Hb)|(b & -> & Hb)].
  - apply (Hgen (str "https://") b); [right; reflexivity | reflexivity | | exact Hb].
    intros scheme' b' [-> | ->] Heq; [discriminate Heq | reflexivity].
  - apply (Hgen (str "http://") b); [left; reflexivity | reflexivity | | exact Hb].
    intros scheme' b' [-> | ->] Heq; [reflexivity | discriminate Heq].
Qed.

End LeftmostLongest.

Section Reading_order.

Lemma scan_skip r : forall s n,
  (n <= length s)%nat -> scan r s n = scan r (skipn n s) 0.
Proof.
  induction s as [|c s IH]; intros n Hn.
  - simpl in Hn. assert (n = 0%nat) as -> by lia. reflexivity.
  - destruct n as [|n]; [reflexivity|]. simpl in Hn.
    change (scan r (c :: s) (S n)) with (scan r s n).
    rewrite IH by lia. reflexivity.
Qed.

(** [re.findall], one position at a time, for a pattern that matches no
    empty string. *)
Lemma scan_cons r c s :
  scan r (c :: s) 0 =
  match match_here r (c :: s) with
  | Some (rest, cap) =>
      (firstn (length (c :: s) - length rest) (c :: s), cap) ::
      (if (length rest <? length (c :: s))%nat then scan r rest 0
       else scan r s 0)
  | None => scan r s 0
  end.
Proof.
  cbn [scan].
  destruct (match_here r (c :: s)) as [[rest cap]|] eqn:Hm; [|reflexivity].
  apply match_here_sound in Hm. destruct Hm as (m & Heq & _).
  f_equal. rewrite Heq, length_app_sub.
  destruct m as [|c' m]; simpl in Heq.
  - subst rest. simpl length. rewrite Nat.ltb_irrefl. reflexivity.
  - injection Heq as -> ->. simpl length. rewrite length_app.
    replace (length rest <? S (length m + length rest))%nat with true
      by (symmetry; apply Nat.ltb_lt; lia).
    cbn [pred Nat.pred].
    rewrite scan_skip by (rewrite length_app; lia).
    rewrite skipn_app_exact. reflexivity.
Qed.

(** A character in front of a text where no image URL starts. *)
Lemma extraction_cons c text urls :
  (forall u rest, c :: text = u ++ rest -> ~ image_url u) ->
  extraction text urls -> extraction (c :: text) urls.
Proof.
  intros Hhead Hex. destruct Hex as [text Hno|gap u rest urls Hu Hleft Hrest].
  - apply extraction_done. intros pre u post Heq Hu.
    destruct pre as [|c' pre].
    + exact (Hhead u post Heq Hu).
    + simpl in Heq. injection Heq as _ Heq. exact (Hno pre u post Heq Hu).
  - change (c :: gap ++ u ++ rest) with ((c :: gap) ++ u ++ rest).
    apply extraction_next; [exact Hu| |exact Hrest].
    intros pre u' post Heq Hu'.
    destruct pre as [|c' pre].
    + exfalso. exact (Hhead u' post Heq Hu').
    + simpl in Heq. injection Heq as _ Heq.
      destruct (Hleft pre u' post Heq Hu') as [Hle Hsame].
      simpl. split; [lia|]. intros Hlen. apply Hsame. lia.
Qed.

Lemma match_here_None_no_url s u rest :
  match_here image_pattern s = None -> s = u ++ rest -> ~ image_url u.
Proof.
  intros Hnone -> Hu.
  apply (matches_image_pattern u rest) in Hu.
  exact (match_here_complete _ _ _ Hu Hnone).
Qed.

(** [re.findall] reads the image URLs leftmost first, longest first. *)
Lemma extraction_scan : forall n s,
  length s = n -> extraction s (List.map fst (scan image_pattern s 0)).
Proof.
  induction n as [n IH] using lt_wf_ind. intros s Hn.
  destruct s as [|c s].
  - simpl. apply extraction_done. intros pre u post Heq Hu.
    symmetry in Heq. apply app_eq_nil in Heq. destruct Heq as [_ Heq].
    apply app_eq_nil in Heq. destruct Heq as [-> _].
    exact (image_url_nonempty [] Hu eq_refl).
  - rewrite scan_cons.
    destruct (match_here image_pattern (c :: s)) as [[rest cap]|] eqn:Hm.
    + apply match_here_longest in Hm.
      destruct Hm as (u & Heq & Hu & Hlong).
      pose proof (image_url_nonempty u Hu) as Hne.
      rewrite Heq, length_app_sub, firstn_app_exact.
      rewrite length_app.
      replace (length rest <? length u + length rest)%nat with true
        by (symmetry; apply Nat.ltb_lt; destruct u; [contradiction|simpl; lia]).
      cbn [List.map fst].
      apply (extraction_next [] u rest); [exact Hu| |].
      * intros pre u' post Heq' Hu'. simpl length. split; [lia|].
        intros Hpre. destruct pre; [|discriminate Hpre].
        apply (Hlong u' post); [rewrite Heq; exact Heq' | exact Hu'].
      * apply (IH (length rest)); [|reflexivity].
        subst n. rewrite Heq, length_app.
        destruct u; [contradiction|simpl; lia].
    + apply extraction_cons.
      * intros u rest. apply match_here_None_no_url. exact Hm.
      * apply (IH (length s)); [subst n; simpl; lia | reflexivity].
Qed.

Lemma extraction_unique text urls :
  extraction text urls -> forall urls', extraction text urls' -> urls = urls'.
Proof.
  induction 1 as [text Hno|gap u rest urls Hu Hleft Hrest IH];
    intros urls' H'.
  - destruct H' as [text' _|gap' u' rest' urls' Hu' _ _]; [reflexivity|].
    exfalso. exact (Hno gap' u' rest' eq_refl Hu').
  - remember (gap ++ u ++ rest) as text eqn:Htext.
    destruct H' as [text Hno|gap' u' rest' urls' Hu' Hleft' Hrest'].
    + exfalso. exact (Hno gap u rest Htext Hu).
    + destruct (Hleft gap' u' rest' eq_refl Hu') as [Hle Hlen].
      destruct (Hleft' gap u rest Htext Hu) as [Hle' Hlen'].
      assert (Hgap : length gap' = length gap) by lia.
      apply app_inj_1 in Htext; [|exact Hgap].
      destruct Htext as [-> Htext].
      specialize (Hlen eq_refl). specialize (Hlen' eq_refl).
      apply app_inj_1 in Htext; [|lia].
      destruct Htext as [-> ->].
      f_equal. apply IH. exact Hrest'.
Qed.

End Reading_order.

(** X12. [extract_image_urls] reads the text from left to right: each URL
    it returns is the leftmost image URL in what is left of the text and
    the longest image URL that starts there, and the reading resumes right
    after it, so that the URLs come in the order of the text and do not
    overlap; and the list it returns is the only one of that kind. *)
Theorem extract_image_urls_leftmost_longest text urls :
  extraction text urls <-> extract_image_urls text = urls.
Proof.
  rewrite extract_image_urls_findall, findall_image_pattern. split.
  - intros H. symmetry. apply (extraction_unique text urls H).
    apply (extraction_scan _ _ eq_refl).
  - intros <-. apply (extraction_scan _ _ eq_refl).
Qed.

Section RoundTrip.

Lemma extraction_single u : image_url u -> extraction u [u].
Proof.
  intros Hu.
  pose proof (extraction_next [] u [] [] Hu) as H.
  simpl in H. rewrite app_nil_r in H. apply H.
  - intros pre u' post Heq _. split; [lia|].
    intros Hpre. destruct pre; [|discriminate Hpre].
    simpl in Heq. rewrite Heq, length_app. lia.
  - apply extraction_done. intros pre u' post Heq Hu'.
    symmetry in Heq. apply app_eq_nil in Heq. destruct Heq as [_ Heq].
    apply app_eq_nil in Heq. destruct Heq as [-> _].
    exact (image_url_nonempty [] Hu' eq_refl).
Qed.

Lemma extract_image_url u : image_url u -> extract_image_urls u = [u].
Proof.
  intros Hu. rewrite extract_image_urls_findall, findall_image_pattern.
  symmetry. apply (extraction_unique u [u] (extraction_single u Hu)).
  apply (extraction_scan _ _ eq_refl).
Qed.

(** X13. Image URLs that single whitespace characters separate are
    extracted as they are: one entry each, whole, in order. *)
Theorem image_urls_round_trip w urls :
  isspace w = true -> List.Forall image_url urls ->
  extract_image_urls (join [w] urls) = urls.
Proof.
  intros Hw Hall. induction Hall as [|u urls Hu Hall IH]; [reflexivity|].
  destruct urls as [|u2 urls]; [exact (extract_image_url u Hu)|].
  change (join [w] (u :: u2 :: urls)) with (u ++ w :: join [w] (u2 :: urls)).
  rewrite extract_image_urls_space by exact Hw.
  rewrite IH, (extract_image_url u Hu). reflexivity.
Qed.

End RoundTrip.

Lemma sample_image_url : image_url (str "https://ex.com/a.png").
Proof.
  exists (str "https://"), (str "ex.com/a"), (str "png").
  repeat split; [right; reflexivity | discriminate | simpl; tauto].
Qed.

Lemma extract_image_urls_leftmost_longest_witness :
  extraction (str "see https://ex.com/a.png.") [str "https://ex.com/a.png"].
Proof.
  apply (proj2 (extract_image_urls_leftmost_longest
                  (str "see https://ex.com/a.png.") [str "https://ex.com/a.png"])).
  vm_compute. reflexivity.
Defined.

Lemma image_urls_round_trip_witness :
  extract_image_urls
    (str "https://ex.com/a.png" ++ [10%N] ++ str "http://ex.com/b.JPG") =
  [str "https://ex.com/a.png"; str "http://ex.com/b.JPG"].
Proof.
  apply (image_urls_round_trip 10%N
           [str "https://ex.com/a.png"; str "http://ex.com/b.JPG"]);
    [reflexivity|].
  repeat apply List.Forall_cons; [apply sample_image_url| |apply List.Forall_nil].
  exists (str "http://"), (str "ex.com/b"), (str "JPG").
  repeat split; [left; reflexivity | discriminate | simpl; tauto].
Defined.

(** ** Occurrences of one image URL *)

Section Occurrences.

Lemma image_url_head u : image_url u -> exists v, u = chr "h" :: v.
Proof.
  intros (scheme & body & ext & -> & [-> | ->] & _); eexists; reflexivity.
Qed.

(** A text that gives no URL holds no image URL. *)
Lemma extract_nil_no_url text :
  extract_image_urls text = [] ->
  forall pre v post, text = pre ++ v ++ post -> ~ image_url v.
Proof.
  rewrite extract_image_urls_findall, findall_image_pattern.
  intros Hnil pre v post -> Hv.
  apply (matches_image_pattern v post) in Hv.
  apply (scan_complete image_pattern pre) in Hv.
  destruct (scan image_pattern (pre ++ v ++ post) 0); [contradiction|].
  discriminate.
Qed.

Lemma no_url_extract_nil text :
  (forall pre v post, text = pre ++ v ++ post -> ~ image_url v) ->
  extract_image_urls text = [].
Proof.
  intros Hno. rewrite extract_image_urls_findall, findall_image_pattern.
  symmetry. apply (extraction_unique text [] (extraction_done text Hno)).
  apply (extraction_scan _ _ eq_refl).
Qed.

(** Punctuation holds no image URL. *)
Lemma punct_no_url tail :
  forallb punct tail = true ->
  forall pre v post, tail = pre ++ v ++ post -> ~ image_url v.
Proof.
  intros Hall pre v post -> Hv.
  destruct (image_url_head v Hv) as [v' ->].
  rewrite !forallb_app in Hall. apply andb_prop in Hall. destruct Hall as [_ Hall].
  apply andb_prop in Hall. destruct Hall as [Hall _].
  simpl in Hall. discriminate.
Qed.

(** A URL that stands after characters other than the letter h and
    before punctuation is extracted as it is. *)
Lemma extraction_delimited u pre tail :
  image_url u -> ~ In (chr "h") pre -> forallb punct tail = true ->
  extraction (pre ++ u ++ tail) [u].
Proof.
  intros Hu Hpre Htail.
  apply extraction_next;
    [exact Hu| |apply extraction_done; apply punct_no_url; exact Htail].
  intros pre' u' post Heq Hu'.
  assert (Hle : (length pre <= length pre')%nat).
  { destruct (Nat.le_gt_cases (length pre) (length pre')) as [H|H]; [exact H|].
    exfalso. apply Hpre.
    destruct (image_url_head u' Hu') as [v ->].
    apply app_eq_app in Heq. destruct Heq as [l [[-> Hl]|[-> Hl]]].
    - destruct l as [|c l]; [rewrite app_nil_r in H; lia|].
      simpl in Hl. injection Hl as <- _.
      apply in_or_app. right. left. reflexivity.
    - rewrite length_app in H. lia. }
  split; [exact Hle|]. intros Hlen.
  apply app_inj_1 in Heq; [|symmetry; exact Hlen]. destruct Heq as [_ Heq].
  destruct (Nat.le_gt_cases (length u') (length u)) as [H|H]; [exact H|].
  exfalso.
  apply app_eq_app in Heq. destruct Heq as [l [[-> Hl]|[-> Hl]]].
  - rewrite length_app in H. lia.
  - destruct (image_url_last (u ++ l) Hu') as (t & c & Hlast & Hc & _).
    destruct l as [|d l] using rev_ind; [rewrite app_nil_r in H; lia|].
    rewrite app_assoc in Hlast. apply app_inj_tail in Hlast.
    destruct Hlast as [_ ->].
    rewrite Hl, !forallb_app in Htail.
    apply andb_prop in Htail. destruct Htail as [Htail _].
    apply andb_prop in Htail. destruct Htail as [_ Htail].
    simpl in Htail. rewrite Hc in Htail. discriminate.
Qed.

Lemma delimited_extract u text k :
  image_url u -> delimited u text k -> extract_image_urls text = repeat u k.
Proof.
  intros Hu Hd.
  induction Hd as [part Hno|pre tail Hpre Htail|t1 w t2 k1 k2 Hw _ IH1 _ IH2].
  - apply no_url_extract_nil. exact Hno.
  - rewrite extract_image_urls_findall, findall_image_pattern.
    symmetry.
    apply (extraction_unique _ [u] (extraction_delimited u pre tail Hu Hpre Htail)).
    apply (extraction_scan _ _ eq_refl).
  - rewrite extract_image_urls_space by exact Hw.
    rewrite IH1, IH2. symmetry. apply repeat_app.
Qed.

Context {World Blob : Type}.
Variable env : services World Blob.

Lemma media_calls_repeat url (image_bytes : list Byte.byte) (blob : Blob) n :
  List.map (fun item : pystr * list Byte.byte * Blob => item.1.1)
    (repeat (url, image_bytes, blob) n) = repeat url n /\
  attachments (repeat (url, image_bytes, blob) n) = repeat (url, blob) n.
Proof.
  unfold attachments. rewrite !map_repeat. split; reflexivity.
Qed.

(** C9, as amended. In a text made of parts that whitespace separates,
    of which [k] hold the image URL [u], between characters other than
    the letter h before it and punctuation after it, and the others hold
    no image URL, extraction returns [u] once for each of the [k] parts:
    duplicates are kept. The posting loop requests each of the first four
    entries on its own; when [u] is served, each of them is downloaded,
    uploaded and attached in turn, so that the embed holds the same image
    as many times, four at most. *)
Theorem repeated_url_attached_again content text u k s w :
  image_url u ->
  delimited u text k ->
  extract_image_urls text = repeat u k /\
  let r := post_to_bluesky env content (Some (extract_image_urls text)) s w in
  let n := Nat.min k 4 in
  gets (trace r) = repeat u n /\
  (forall image_bytes blob,
     served env u image_bytes blob ->
     trace r =
       media_calls (repeat (u, image_bytes, blob) n) ++
       [Post (post_text content (repeat (u, blob) n))
          (match n with
           | O => None
           | _ => Some (repeat (generic_image blob) n)
           end)]).
Proof.
  intros Hu Hd. rewrite (delimited_extract u text k Hu Hd).
  split; [reflexivity|].
  cbv zeta. rewrite post_to_bluesky_run. cbv zeta. cbn [trace candidates].
  rewrite firstn_repeat_min.
  set (n := Nat.min k 4).
  pose proof (attach_media env (repeat u n) w) as Hm.
  apply media_no_marks in Hm. destruct Hm as (_ & Hp & _).
  split.
  - rewrite gets_app, attach_gets. simpl. apply app_nil_r.
  - intros image_bytes blob Hserved.
    destruct (media_calls_repeat u image_bytes blob n) as [Hurls Hatt].
    destruct (attach_served env (repeat (u, image_bytes, blob) n) w) as [Ha Hc].
    { apply List.Forall_forall. intros item Hitem.
      apply repeat_spec in Hitem. subst item. exact Hserved. }
    rewrite Hurls in Ha, Hc. rewrite Ha, Hc, Hatt.
    do 3 f_equal. unfold post_embed.
    destruct n as [|n']; [reflexivity|].
    rewrite !map_repeat. reflexivity.
Qed.

End Occurrences.

(** C9, the claim as stated fails twice: two occurrences of a URL that a
    comma separates are extracted as one entry, and of five occurrences
    the fifth is extracted but never requested. *)
Lemma repeated_url_not_always_kept :
  let u := str "https://ex.com/a.png" in
  extract_image_urls (u ++ str "," ++ u) = [u ++ str "," ++ u] /\
  extract_image_urls (join (str " ") (repeat u 5)) = repeat u 5 /\
  gets (trace (post_to_bluesky quiet_services (join (str " ") (repeat u 5))
                 (Some (repeat u 5)) (initial 0) 0%nat)) = repeat u 4.
Proof. vm_compute. repeat split. Qed.

Lemma sample_delimited :
  delimited (str "https://ex.com/a.png")
    (str "pic https://ex.com/a.png and again (https://ex.com/a.png)!") 2.
Proof.
  apply (delimited_sep _ (str "pic") 32%N _ 0 2 eq_refl).
  { apply delimited_none. apply extract_nil_no_url. reflexivity. }
  apply (delimited_sep _ (str "https://ex.com/a.png") 32%N _ 1 1 eq_refl).
  { refine (delimited_one (str "https://ex.com/a.png") [] [] _ eq_refl).
    intros []. }
  apply (delimited_sep _ (str "and") 32%N _ 0 1 eq_refl).
  { apply delimited_none. apply extract_nil_no_url. reflexivity. }
  apply (delimited_sep _ (str "again") 32%N _ 0 1 eq_refl).
  { apply delimited_none. apply extract_nil_no_url. reflexivity. }
  refine (delimited_one (str "https://ex.com/a.png") (str "(") (str ")!") _ eq_refl).
  intros [H|[]]. discriminate H.
Defined.

Lemma repeated_url_attached_again_witness :
  let u := str "https://ex.com/a.png" in
  let text := str "pic https://ex.com/a.png and again (https://ex.com/a.png)!" in
  extract_image_urls text = [u; u] /\
  trace (post_to_bluesky quiet_services text (Some (extract_image_urls text))
           (initial 0) 0%nat) =
  [Get u; Upload [Byte.x89; Byte.x50; Byte.x4e; Byte.x47];
   Get u; Upload [Byte.x89; Byte.x50; Byte.x4e; Byte.x47];
   Post (str "pic and again (")
     (Some (repeat {| alt := str "Image from Nostr"; image := 4%nat |} 2))].
Proof.
  cbv zeta.
  destruct (repeated_url_attached_again quiet_services
              (str "pic https://ex.com/a.png and again (https://ex.com/a.png)!")
              (str "pic https://ex.com/a.png and again (https://ex.com/a.png)!")
              (str "https://ex.com/a.png") 2 (initial 0) 0%nat
              sample_image_url sample_delimited)
    as (Hex & _ & Htrace).
  split; [exact Hex|].
  rewrite (Htrace [Byte.x89; Byte.x50; Byte.x4e; Byte.x47] 4%nat
             (sample_png_served _ _ _ _)).
  reflexivity.
Defined.

(** ** The text [remove_image_urls] leaves *)

Section NormalForm.

Lemma run_app_all cls p : forall post,
  forallb cls p = true -> (length p <= run cls (p ++ post))%nat.
Proof.
  induction p as [|c p IH]; intros post Hall; simpl; [lia|].
  simpl in Hall. apply andb_prop in Hall. destruct Hall as [-> Hall].
  specialize (IH post Hall). lia.
Qed.

Lemma run_app_le cls b : forall s, (run cls s <= run cls (s ++ b))%nat.
Proof.
  induction s as [|c s IH]; simpl; [lia|].
  destruct (cls c); lia.
Qed.

Lemma long_run_suffix cls n a : forall s,
  long_run cls n s = true -> long_run cls n (a ++ s) = true.
Proof.
  induction a as [|c a IH]; intros s H; [exact H|].
  cbn [app long_run]. rewrite (IH s H). apply orb_true_r.
Qed.

Lemma long_run_prefix cls n b : forall s,
  long_run cls n s = true -> long_run cls n (s ++ b) = true.
Proof.
  induction s as [|c s IH]; intros H; [discriminate H|].
  cbn [app long_run] in *. apply orb_true_iff in H.
  apply orb_true_iff. destruct H as [H|H]; [left|right; apply IH; exact H].
  apply Nat.leb_le in H. apply Nat.leb_le.
  pose proof (run_app_le cls b (c :: s)) as Hle. cbn [app] in Hle. lia.
Qed.

Lemma occurs_long_run cls p s :
  occurs p s -> p <> [] -> forallb cls p = true ->
  long_run cls (length p) s = true.
Proof.
  intros (pre & post & ->) Hne Hall. apply long_run_suffix.
  destruct p as [|c p]; [contradiction|].
  cbn [app long_run]. apply orb_true_iff. left. apply Nat.leb_le.
  apply (run_app_all cls (c :: p) post Hall).
Qed.

Lemma lstrip_suffix s : exists a, s = a ++ lstrip s.
Proof.
  induction s as [|c s [a IH]]; [exists []; reflexivity|].
  simpl. destruct (isspace c); [|exists []; reflexivity].
  exists (c :: a). simpl. f_equal. exact IH.
Qed.

Lemma rstrip_prefix s : exists b, s = rstrip s ++ b.
Proof.
  unfold rstrip. destruct (lstrip_suffix (rev s)) as [a Ha].
  exists (rev a). rewrite <- rev_app_distr, <- Ha, rev_involutive. reflexivity.
Qed.

Lemma long_run_strip cls n s :
  long_run cls n s = false -> long_run cls n (strip s) = false.
Proof.
  intros H. destruct (long_run cls n (strip s)) eqn:Hs; [|reflexivity].
  unfold strip in Hs.
  destruct (rstrip_prefix (lstrip s)) as [b Hb].
  destruct (lstrip_suffix s) as [a Ha].
  apply (long_run_prefix cls n b) in Hs. rewrite <- Hb in Hs.
  apply (long_run_suffix cls n a) in Hs. rewrite <- Ha in Hs.
  congruence.
Qed.

Lemma strip_first s c t : strip s = c :: t -> isspace c = false.
Proof.
  unfold strip. intros H.
  destruct (rstrip_prefix (lstrip s)) as [b Hb].
  rewrite H in Hb. simpl in Hb. exact (lstrip_head s c _ Hb).
Qed.

Lemma strip_last s t c : strip s = t ++ [c] -> isspace c = false.
Proof.
  unfold strip, rstrip. intros H.
  apply (f_equal (@rev char)) in H.
  rewrite rev_involutive, rev_app_distr in H. simpl in H.
  exact (lstrip_head _ c _ H).
Qed.

Lemma lstrip_fixed s :
  (forall c t, s = c :: t -> isspace c = false) -> lstrip s = s.
Proof.
  intros H. destruct s as [|c s]; [reflexivity|].
  simpl. rewrite (H c s eq_refl). reflexivity.
Qed.

Lemma strip_fixed s :
  (forall c t, s = c :: t -> isspace c = false) ->
  (forall t c, s = t ++ [c] -> isspace c = false) ->
  strip s = s.
Proof.
  intros Hfirst Hlast. unfold strip, rstrip.
  rewrite (lstrip_fixed s Hfirst).
  rewrite lstrip_fixed; [apply rev_involutive|].
  intros c t Heq. apply (Hlast (rev t) c).
  rewrite <- (rev_involutive s), Heq. reflexivity.
Qed.

Lemma newline_not_space c : is_newline c = true -> is_space c = false.
Proof. intros H. apply is_newline_eq in H. subst c. reflexivity. Qed.

Lemma collapse_spaces_cases c s :
  (collapse_spaces (c :: s) = c :: collapse_spaces s /\
   (is_space c = true -> run is_space s = 0%nat)) \/
  (collapse_spaces (c :: s) = collapse_spaces s /\
   is_space c = true /\ (1 <= run is_space s)%nat).
Proof.
  rewrite collapse_spaces_cons. destruct (is_space c) eqn:Hc.
  - destruct s as [|d s]; [left; split; reflexivity|].
    cbn [run]. destruct (is_space d) eqn:Hd.
    + right. repeat split. lia.
    + left. split; reflexivity.
  - left. split; [reflexivity | discriminate].
Qed.

Lemma collapse_newlines_cases c s :
  (collapse_newlines (c :: s) = c :: collapse_newlines s /\
   (is_newline c = true -> (run is_newline s <= 1)%nat)) \/
  (collapse_newlines (c :: s) = collapse_newlines s /\
   is_newline c = true /\ (2 <= run is_newline s)%nat).
Proof.
  rewrite collapse_newlines_cons. destruct (is_newline c) eqn:Hc.
  - destruct s as [|d [|e s]].
    + left. split; [reflexivity | simpl; lia].
    + left. split; [reflexivity | simpl; destruct (is_newline d); lia].
    + cbn [run]. destruct (is_newline d) eqn:Hd; cbn [andb].
      * destruct (is_newline e) eqn:He.
        -- right. repeat split. lia.
        -- left. split; [reflexivity | lia].
      * left. split; [reflexivity | lia].
  - left. split; [reflexivity | discriminate].
Qed.

Lemma run_collapse_spaces : forall s,
  run is_space (collapse_spaces s) = Nat.min 1 (run is_space s).
Proof.
  induction s as [|c s IH]; [reflexivity|].
  destruct (collapse_spaces_cases c s) as [[-> H0]|(-> & Hc & H1)].
  - cbn [run]. rewrite IH. destruct (is_space c); [|reflexivity].
    rewrite (H0 eq_refl). reflexivity.
  - cbn [run]. rewrite IH, Hc. lia.
Qed.

Lemma collapse_spaces_no_run : forall s,
  long_run is_space 2 (collapse_spaces s) = false.
Proof.
  induction s as [|c s IH]; [reflexivity|].
  pose proof (run_collapse_spaces (c :: s)) as Hrun.
  destruct (collapse_spaces_cases c s) as [[Heq _]|(Heq & _)];
    rewrite Heq in *; [|exact IH].
  cbn [long_run]. rewrite IH, orb_false_r. apply Nat.leb_gt. lia.
Qed.

Lemma run_space_collapse_newlines : forall s,
  run is_space (collapse_newlines s) = run is_space s.
Proof.
  induction s as [|c s IH]; [reflexivity|].
  destruct (collapse_newlines_cases c s) as [[-> _]|(-> & Hc & H2)].
  - cbn [run]. rewrite IH. reflexivity.
  - rewrite IH. cbn [run]. rewrite (newline_not_space c Hc).
    destruct s as [|d s]; [reflexivity|]. cbn [run] in *.
    destruct (is_newline d) eqn:Hd; [|lia].
    rewrite (newline_not_space d Hd). reflexivity.
Qed.

Lemma collapse_newlines_keeps_spaces : forall s,
  long_run is_space 2 (collapse_newlines s) = long_run is_space 2 s.
Proof.
  induction s as [|c s IH]; [reflexivity|].
  pose proof (run_space_collapse_newlines (c :: s)) as Hrun.
  destruct (collapse_newlines_cases c s) as [[Heq _]|(Heq & Hc & _)];
    rewrite Heq in *.
  - cbn [long_run]. rewrite IH, Hrun. reflexivity.
  - rewrite IH. cbn [long_run run]. rewrite (newline_not_space c Hc).
    reflexivity.
Qed.

Lemma run_collapse_newlines : forall s,
  run is_newline (collapse_newlines s) = Nat.min 2 (run is_newline s).
Proof.
  induction s as [|c s IH]; [reflexivity|].
  destruct (collapse_newlines_cases c s) as [[-> H1]|(-> & Hc & H2)].
  - cbn [run]. rewrite IH. destruct (is_newline c); [|reflexivity].
    specialize (H1 eq_refl). lia.
  - cbn [run]. rewrite IH, Hc. lia.
Qed.

Lemma collapse_newlines_no_run : forall s,
  long_run is_newline 3 (collapse_newlines s) = false.
Proof.
  induction s as [|c s IH]; [reflexivity|].
  pose proof (run_collapse_newlines (c :: s)) as Hrun.
  destruct (collapse_newlines_cases c s) as [[Heq _]|(Heq & _)];
    rewrite Heq in *; [|exact IH].
  cbn [long_run]. rewrite IH, orb_false_r. apply Nat.leb_gt. lia.
Qed.

Lemma collapse_spaces_fixed : forall s,
  long_run is_space 2 s = false -> collapse_spaces s = s.
Proof.
  induction s as [|c s IH]; intros H; [reflexivity|].
  cbn [long_run] in H. apply orb_false_iff in H. destruct H as [Hrun H].
  apply Nat.leb_gt in Hrun. cbn [run] in Hrun.
  destruct (collapse_spaces_cases c s) as [[-> _]|(_ & Hc & H1)].
  - rewrite (IH H). reflexivity.
  - rewrite Hc in Hrun. lia.
Qed.

Lemma collapse_newlines_fixed : forall s,
  long_run is_newline 3 s = false -> collapse_newlines s = s.
Proof.
  induction s as [|c s IH]; intros H; [reflexivity|].
  cbn [long_run] in H. apply orb_false_iff in H. destruct H as [Hrun H].
  apply Nat.leb_gt in Hrun. cbn [run] in Hrun.
  destruct (collapse_newlines_cases c s) as [[-> _]|(_ & Hc & H2)].
  - rewrite (IH H). reflexivity.
  - rewrite Hc in Hrun. lia.
Qed.

(** X14. What [remove_image_urls] returns, for any list of URLs, holds
    no two spaces in a row and no three newlines in a row, and neither
    begins nor ends with whitespace; cleaning it again with no URL leaves
    it as it is. *)
Theorem remove_image_urls_normal content image_urls :
  let cleaned := remove_image_urls content image_urls in
  ~ occurs (str "  ") cleaned /\
  ~ occurs [10; 10; 10]%N cleaned /\
  (forall c t, cleaned = c :: t -> isspace c = false) /\
  (forall t c, cleaned = t ++ [c] -> isspace c = false) /\
  remove_image_urls cleaned [] = cleaned.
Proof.
  cbv zeta. rewrite (remove_image_urls_post_body _ []).
  rewrite remove_image_urls_post_body. cbn [fold_left].
  set (text := fold_left (fun t url => remove_url url t) image_urls content).
  assert (Hspaces : long_run is_space 2
            (strip (collapse_newlines (collapse_spaces text))) = false).
  { apply long_run_strip. rewrite collapse_newlines_keeps_spaces.
    apply collapse_spaces_no_run. }
  assert (Hnewlines : long_run is_newline 3
            (strip (collapse_newlines (collapse_spaces text))) = false).
  { apply long_run_strip. apply collapse_newlines_no_run. }
  split; [|split; [|split; [|split]]].
  - intros Hocc.
    apply (occurs_long_run is_space) in Hocc; [|discriminate|reflexivity].
    simpl length in Hocc. congruence.
  - intros Hocc.
    apply (occurs_long_run is_newline) in Hocc; [|discriminate|reflexivity].
    simpl length in Hocc. congruence.
  - apply strip_first.
  - apply strip_last.
  - rewrite (collapse_spaces_fixed _ Hspaces).
    rewrite (collapse_newlines_fixed _ Hnewlines).
    apply strip_fixed; [apply strip_first | apply strip_last].
Qed.

End NormalForm.

(** ** The body of the published post, in words *)

Section Published.

Lemma lstrip_split s :
  exists a, s = a ++ lstrip s /\ forallb isspace a = true.
Proof.
  induction s as [|c s (a & IH & Ha)]; [exists []; split; reflexivity|].
  simpl. destruct (isspace c) eqn:Hc; [|exists []; split; reflexivity].
  exists (c :: a). simpl. rewrite Hc, Ha. split; [f_equal; exact IH | reflexivity].
Qed.

Lemma rstrip_split s :
  exists b, s = rstrip s ++ b /\ forallb isspace b = true.
Proof.
  unfold rstrip. destruct (lstrip_split (rev s)) as (a & Ha & Hall).
  exists (rev a). split.
  - rewrite <- rev_app_distr, <- Ha, rev_involutive. reflexivity.
  - apply forallb_rev_true. rewrite rev_involutive. exact Hall.
Qed.

(** [str.strip] takes the whitespace off the two ends, and nothing
    else. *)
Lemma strip_trimmed s : trimmed s (strip s).
Proof.
  destruct (lstrip_split s) as (a & Ha & Hall).
  destruct (rstrip_split (lstrip s)) as (b & Hb & Hbll).
  exists a, b. fold (strip s) in Hb.
  split; [rewrite <- Hb; exact Ha|].
  split; [exact Hall|]. split; [exact Hbll|].
  split; [apply strip_first | apply strip_last].
Qed.

Lemma strip_prefix_absent url text n :
  ~ occurs url text -> strip_prefix url (skipn n text) = None.
Proof.
  intros Hno. destruct (strip_prefix url (skipn n text)) as [rest|] eqn:Hp;
    [exfalso|reflexivity].
  apply strip_prefix_Some in Hp. apply Hno.
  exists (firstn n text), rest. rewrite <- Hp. symmetry. apply firstn_skipn.
Qed.

(** The removal of a URL leaves a text alone in which the URL does not
    occur. *)
Lemma remove_url_absent url : forall text,
  ~ occurs url text -> remove_url url text = text.
Proof.
  unfold remove_url. intros text Hno.
  assert (Hnone : forall n, strip_prefix url (skipn n text) = None)
    by (intros n; apply strip_prefix_absent; exact Hno).
  clear Hno. induction text as [|c text IH]; [reflexivity|].
  cbn [remove_url_from].
  pose proof (Hnone 0%nat) as H0. cbn [skipn] in H0. rewrite H0.
  f_equal. apply IH. intros n. exact (Hnone (S n)).
Qed.

Context {World Blob : Type}.
Variable env : services World Blob.

(** C8, as amended. The text that [post_to_bluesky] publishes is the text
    it was given when no candidate was attached. Otherwise it is that
    text from which, for each attached URL in turn, every occurrence of
    the URL is removed with the punctuation right after it, wherever the
    occurrence stands, then with runs of spaces collapsed to one space
    and runs of three newlines or more collapsed to two, and last with
    the whitespace taken off its two ends. A text in which the URL does
    not occur is left alone by its removal. The attached candidates are
    those whose download passed every check and whose upload
    succeeded. *)
Theorem published_body content image_urls s w :
  let r := post_to_bluesky env content image_urls s w in
  let attached := (attach env (candidates image_urls) w).1.1 in
  let body := post_text content attached in
  posts (trace r) = [(body, post_embed attached)] /\
  (attached = [] -> body = content) /\
  (attached <> [] ->
   trimmed
     (collapse_newlines (collapse_spaces
        (fold_left (fun text url => remove_url url text)
           (List.map fst attached) content)))
     body) /\
  (forall url text, ~ occurs url text -> remove_url url text = text).
Proof.
  cbv zeta. rewrite post_to_bluesky_run. cbv zeta. cbn [trace].
  pose proof (attach_media env (candidates image_urls) w) as Hm.
  apply media_no_marks in Hm. destruct Hm as (_ & Hp & _).
  rewrite posts_app, Hp.
  split; [reflexivity|]. split; [|split].
  - intros ->. reflexivity.
  - intros Hne. rewrite post_text_post_body. unfold post_body.
    destruct (List.map fst (attach env (candidates image_urls) w).1.1)
      as [|url urls] eqn:Hurls.
    + destruct ((attach env (candidates image_urls) w).1.1);
        [contradiction | discriminate].
    + apply strip_trimmed.
  - intros url text. apply remove_url_absent.
Qed.

End Published.

(** C8, the claim as stated fails: the URL that is attached is also the
    beginning of a URL that is not, the page behind it being no image,
    and its removal cuts that URL down to [jpg]. *)
Lemma unattached_url_is_cut :
  let content := str "x https://ex.com/a.png y https://ex.com/a.png.jpg" in
  let r := post_to_bluesky one_png_services content
             (Some (extract_image_urls content)) (initial 0) 0%nat in
  extract_image_urls content =
    [str "https://ex.com/a.png"; str "https://ex.com/a.png.jpg"] /\
  gets (trace r) = [str "https://ex.com/a.png"; str "https://ex.com/a.png.jpg"] /\
  uploads (trace r) = [[Byte.x89; Byte.x50; Byte.x4e; Byte.x47]] /\
  posts (trace r) =
    [(str "x y jpg",
      Some [{| alt := str "Image from Nostr"; image := 4%nat |}])].
Proof. vm_compute. repeat split. Qed.

Lemma published_body_witness :
  posts (trace (post_to_bluesky quiet_services
                  (str "look at https://ex.com/a.png!")
                  (Some [str "https://ex.com/a.png"]) (initial 0) 0%nat)) =
  [(str "look at", Some [{| alt := str "Image from Nostr"; image := 4%nat |}])] /\
  trimmed (str "look at ") (str "look at").
Proof.
  destruct (published_body quiet_services (str "look at https://ex.com/a.png!")
              (Some [str "https://ex.com/a.png"]) (initial 0) 0%nat)
    as (Hposts & _ & Htrim & _).
  split; [exact Hposts|]. apply Htrim. discriminate.
Defined.

(** ** A note of plain text *)

Section PlainNote.

Context {World Blob : Type}.
Variable env : services World Blob.

(** X15. A new note that is no reply, has text and a time that can be
    converted, mentions nobody and holds no image URL is marked and
    published as it is, without embed: no profile is queried, nothing is
    downloaded or uploaded, and the method reports what the one publish
    call returned. *)
Theorem plain_note_posted_verbatim event s w :
  id event ∉ processed_events s ->
  (start_time s <= created_at event)%Z ->
  event_ids event = [] ->
  strip (content event) <> [] ->
  fromtimestamp_utc (created_at event) <> None ->
  extract_npub_mentions (content event) = [] ->
  extract_image_urls (content event) = [] ->
  let sent := send_post env (content event) None w in
  handle_nostr_event env event s w =
    Reply (Some (if sent.1 then Published else PublishFailed))
      (mark (id event) s) sent.2
      [Mark (id event); Post (content event) None].
Proof.
  intros Hout Hnew Htags Htext Htime Hnpub Himg. cbv zeta.
  rewrite (handle_fresh env event s w Hout Hnew). cbv zeta.
  rewrite cross_post_run; [|unfold is_reply; rewrite Htags; reflexivity|exact Htext].
  destruct (fromtimestamp_utc (created_at event)) as [timestamp|];
    [|contradiction].
  cbv zeta. unfold replace_npub_mentions. rewrite Hnpub.
  cbn [ret result self world trace]. rewrite Himg. reflexivity.
Qed.

(** X16. The time of a note is converted to a date for the log once the
    note is marked and found to be no reply and to have text, and the
    conversion raises for a time past the year 9999. Such a note is
    marked and lost: the method raises with nothing looked up, downloaded
    or published, and a later delivery of the note is a duplicate. The
    conversion fails exactly outside the years 1 to 9999. *)
Theorem unconvertible_time_loses_note event s w :
  id event ∉ processed_events s ->
  (start_time s <= created_at event)%Z ->
  event_ids event = [] ->
  strip (content event) <> [] ->
  (253402300799 < created_at event)%Z ->
  handle_nostr_event env event s w =
    Reply None (mark (id event) s) w [Mark (id event)] /\
  (forall w',
     handle_nostr_event env event (mark (id event) s) w' =
     Reply (Some (Skipped duplicate)) (mark (id event) s) w' []) /\
  (forall secs,
     fromtimestamp_utc secs = None <->
     (secs < -62135596800 \/ 253402300799 < secs)%Z).
Proof.
  intros Hout Hnew Htags Htext Hfar.
  assert (Htime : forall secs,
            fromtimestamp_utc secs = None <->
            (secs < -62135596800 \/ 253402300799 < secs)%Z).
  { intros secs. unfold fromtimestamp_utc.
    destruct (Z.leb_spec (-62135596800) secs) as [Hlo|Hlo];
      destruct (Z.leb_spec secs 253402300799) as [Hhi|Hhi]; cbn [andb];
      split; intros Hx; first [discriminate | reflexivity | lia]. }
  split; [|split; [|exact Htime]].
  - rewrite (handle_fresh env event s w Hout Hnew). cbv zeta.
    rewrite cross_post_run;
      [|unfold is_reply; rewrite Htags; reflexivity|exact Htext].
    rewrite (proj2 (Htime (created_at event))) by (right; exact Hfar).
    reflexivity.
  - intros w'. apply handle_duplicate. apply elem_of_mark. left. reflexivity.
Qed.

End PlainNote.

Lemma plain_note_posted_verbatim_witness :
  handle_nostr_event quiet_services (note "e1" 100 "gm nostr") (initial 50) 0%nat =
  Reply (Some Published) (mark (str "e1") (initial 50)) 1%nat
    [Mark (str "e1"); Post (str "gm nostr") None].
Proof.
  rewrite (plain_note_posted_verbatim quiet_services
             (note "e1" 100 "gm nostr") (initial 50) 0%nat
             (not_elem_of_empty _) ltac:(simpl; lia) eq_refl
             ltac:(discriminate) ltac:(discriminate) eq_refl eq_refl).
  reflexivity.
Defined.

Lemma unconvertible_time_loses_note_witness :
  handle_nostr_event quiet_services (note "e1" 253402300800 "gm nostr")
    (initial 50) 0%nat =
  Reply None (mark (str "e1") (initial 50)) 0%nat [Mark (str "e1")].
Proof.
  apply (proj1 (unconvertible_time_loses_note quiet_services
                  (note "e1" 253402300800 "gm nostr") (initial 50) 0%nat
                  (not_elem_of_empty _) ltac:(simpl; lia) eq_refl
                  ltac:(discriminate) ltac:(simpl; lia))).
Defined.
